(** * gemmi: the PDB reader (pdb.hpp) and the unit cell (unitcell.hpp)

    A shallow embedding of the field scanners, the entity resolver, the record
    dispatcher of [read_pdb_from_line_input] and of [UnitCell], followed by the
    properties proved about them.

    Conventions of the embedding.
    - A [const char*] is a list of bytes: the memory the pointer may legally
      read.  [p[i]] is the list lookup [p !! i]; it is [None] outside the
      buffer, and every scanner runs in the option monad, so a scanner that
      touches a byte outside its buffer yields [None].  [p + k] is [drop k p].
    - [int] values are unbounded integers ([Z]); the fields the reader scans are
      at most 10 columns wide, far from the 32-bit range.
    - [double] is an abstract arithmetic ([DoubleOps]), instantiated with the
      IEEE-754 binary64 numbers of the kernel ([Float64]) and with the real
      numbers ([RealOps]).
    - [fail(msg)] (an exception) is the outcome [Raise msg]. *)

From Stdlib Require Import ZArith List String Ascii DecimalString DecimalPos DecimalZ Bool Lia Reals
  Machin Lra Floats.
From stdpp Require Import base option list gmap strings.

Set Warnings "-inexact-float".
Local Open Scope Z_scope.

(* ===================================================================== *)
(** * Part I: the model                                                    *)
(* ===================================================================== *)

(** ** Bytes *)

Module Char.

(** The numeric value of a [char] (signed, as on the platforms gemmi targets). *)
Definition val (c : ascii) : Z :=
  let n := Z.of_N (N_of_ascii c) in if n <? 128 then n else n - 256.

Definition NUL : ascii := Ascii.zero.
Definition LF : ascii := ascii_of_nat 10.
Definition CR : ascii := ascii_of_nat 13.

(** [std::isspace] in the "C" locale: space and the controls \t \n \v \f \r. *)
Definition isspace (c : ascii) : bool :=
  let n := Z.of_N (N_of_ascii c) in (n =? 32) || ((9 <=? n) && (n <=? 13)).

(** [c >= '0' && c <= '9'] *)
Definition is_digit (c : ascii) : bool :=
  (val "0" <=? val c) && (val c <=? val "9").

Definition eqb (a b : ascii) : bool := Ascii.eqb a b.

End Char.

(** ** Field scanners (namespace [pdb_impl]) *)

Module pdb_impl.

(** [while (i < field_length && std::isspace(p[i])) ++i;]
    with [k = field_length - i] iterations left. *)
Fixpoint skip_space (p : list ascii) (i k : nat) : option nat :=
  match k with
  | O => Some i
  | S k' => c ← p !! i;
            if Char.isspace c then skip_space p (S i) k' else Some i
  end.

(** The optional sign: [if (p[i] == '-') { ++i; sign = -1; } else if (p[i] == '+') ++i;].
    The byte [p[i]] is read whatever [i] is. *)
Definition read_sign (p : list ascii) (i : nat) : option (nat * Z) :=
  c ← p !! i;
  if Char.eqb c "-" then Some (S i, -1)
  else if Char.eqb c "+" then Some (S i, 1)
  else Some (i, 1).

(** [for (; i < field_length && p[i] >= '0' && p[i] <= '9'; ++i) n = n * 10 + (p[i] - '0');] *)
Fixpoint read_digits (p : list ascii) (i k : nat) (n : Z) : option (nat * Z) :=
  match k with
  | O => Some (i, n)
  | S k' => c ← p !! i;
            if Char.is_digit c
            then read_digits p (S i) k' (n * 10 + (Char.val c - Char.val "0"))
            else Some (i, n)
  end.

Definition read_int (p : list ascii) (field_length : nat) : option Z :=
  i ← skip_space p 0 field_length;
  '(i, sign) ← read_sign p i;
  '(_, n) ← read_digits p i (field_length - i) 0;
  Some (sign * n).

(** *** [strtol] with a fixed base, on a NUL-terminated string

    The C library function, as the C standard describes it: leading white
    space, an optional sign, then the longest run of digits of the base
    (letters of either case count from 10); no digit at all gives 0. *)
Definition digit_value (c : ascii) : option Z :=
  let v := Char.val c in
  if (Char.val "0" <=? v) && (v <=? Char.val "9") then Some (v - Char.val "0")
  else if (Char.val "a" <=? v) && (v <=? Char.val "z") then Some (v - Char.val "a" + 10)
  else if (Char.val "A" <=? v) && (v <=? Char.val "Z") then Some (v - Char.val "A" + 10)
  else None.

Fixpoint strtol_digits (base : Z) (s : list ascii) (acc : Z) : Z :=
  match s with
  | [] => acc
  | c :: s' =>
      match digit_value c with
      | Some d => if d <? base then strtol_digits base s' (acc * base + d) else acc
      | None => acc
      end
  end.

Fixpoint c_str (s : list ascii) : list ascii :=
  match s with
  | [] => []
  | c :: s' => if Char.eqb c Char.NUL then [] else c :: c_str s'
  end.

Fixpoint skip_leading_space (s : list ascii) : list ascii :=
  match s with
  | c :: s' => if Char.isspace c then skip_leading_space s' else s
  | [] => []
  end.

Definition strtol (zstr : list ascii) (base : Z) : Z :=
  match skip_leading_space (c_str zstr) with
  | c :: s' =>
      if Char.eqb c "-" then - strtol_digits base s' 0
      else if Char.eqb c "+" then strtol_digits base s' 0
      else strtol_digits base (c :: s') 0
  | [] => 0
  end.

(** [std::memcpy(zstr, p, N)]: the [N] bytes [p[0..N-1]], all of them read. *)
Definition memcpy (p : list ascii) (N : nat) : option (list ascii) :=
  mapM (fun j => p !! j) (seq 0 N).

(** [template<int N> int read_base36(const char* p)] *)
Definition read_base36 (N : nat) (p : list ascii) : option Z :=
  zstr ← memcpy p N;
  Some (strtol (zstr ++ [Char.NUL]) 36).

(** *** [read_string] *)

(** Left trim: [while (field_length != 0 && std::isspace( *p)) { ++p; --field_length; }];
    returns the advanced pointer (as an offset) and the remaining length. *)
Fixpoint ltrim (p : list ascii) (off field_length : nat) : option (nat * nat) :=
  match field_length with
  | O => Some (off, O)
  | S fl => c ← p !! off;
            if Char.isspace c then ltrim p (S off) fl else Some (off, field_length)
  end.

Definition is_eol (c : ascii) : bool :=
  Char.eqb c Char.LF || Char.eqb c Char.CR || Char.eqb c Char.NUL.

(** [for (int i = 0; i < field_length; ++i) if (p[i] is EOL) { field_length = i; break; }]
    with [k = field_length - i]; returns the new field length. *)
Fixpoint cut_at_eol (p : list ascii) (i k : nat) : option nat :=
  match k with
  | O => Some i
  | S k' => c ← p !! i;
            if is_eol c then Some i else cut_at_eol p (S i) k'
  end.

(** Right trim: [while (field_length != 0 && std::isspace(p[field_length-1])) --field_length;] *)
Fixpoint rtrim (p : list ascii) (field_length : nat) : option nat :=
  match field_length with
  | O => Some O
  | S fl => c ← p !! fl;
            if Char.isspace c then rtrim p fl else Some field_length
  end.

Definition read_string (p : list ascii) (field_length : nat) : option string :=
  '(off, field_length) ← ltrim p 0 field_length;
  let p := drop off p in
  field_length ← cut_at_eol p 0 field_length;
  field_length ← rtrim p field_length;
  s ← memcpy p field_length;
  Some (string_of_list_ascii s).

(** *** [read_snic]: sequence number and insertion code *)

Record SNIC := { seq_num : Z; ins_code : ascii }.

Definition read_snic (s : list ascii) : option SNIC :=
  s0 ← s !! 0%nat;
  n ← (if Char.val s0 <? Char.val "A"
       then read_int s 4
       else (b ← read_base36 4 s; Some (b - 466560 + 10000)));
  s4 ← s !! 4%nat;
  Some {| seq_num := n; ins_code := if Char.eqb s4 " " then Char.NUL else s4 |}.

End pdb_impl.

(** ** Outcomes: a value, an exception raised by [gemmi::fail], or a read
    outside the buffer *)

Inductive outcome (A : Type) : Type :=
| Ok (a : A)
| Raise (msg : string)
| Fault.
Arguments Ok {A} a.
Arguments Raise {A} msg.
Arguments Fault {A}.

#[global] Instance outcome_ret : MRet outcome := fun _ a => Ok a.
#[global] Instance outcome_bind : MBind outcome := fun _ _ f m =>
  match m with
  | Ok a => f a
  | Raise msg => Raise msg
  | Fault => Fault
  end.

(** A scanner result inside the dispatcher: a read outside the buffer is a [Fault]. *)
Definition scan {A} (o : option A) : outcome A :=
  match o with Some a => Ok a | None => Fault end.

(** ** The arithmetic of [double] *)

(** The operations the two headers use on [double]. [d_of_Z] is the conversion
    from [int]; [d_lit m e] is the decimal literal [m]e[e] (0.1 is [d_lit 1 (-1)]);
    [d_pi] is [pi()] of math.hpp; [d_float] is the narrowing [(float) x]. *)
Class DoubleOps (D : Type) : Type := {
  d_of_Z : Z -> D;
  d_lit : Z -> Z -> D;
  d_pi : D;
  d_add : D -> D -> D;
  d_sub : D -> D -> D;
  d_mul : D -> D -> D;
  d_div : D -> D -> D;
  d_neg : D -> D;
  d_abs : D -> D;
  d_sqrt : D -> D;
  d_cos : D -> D;
  d_sin : D -> D;
  d_eqb : D -> D -> bool;
  d_ltb : D -> D -> bool;
  d_leb : D -> D -> bool;
  d_float : D -> D
}.

(** What only IEEE arithmetic has: [INFINITY], and [iround] of math.hpp
    ([static_cast<int>(std::round(d))]: to the nearest integer, halves away
    from zero). *)
Class IEEEOps (D : Type) `{DoubleOps D} : Type := {
  d_infinity : D;
  d_iround : D -> Z
}.

Declare Scope d_scope.
Delimit Scope d_scope with D.
Notation "x + y" := (d_add x y) : d_scope.
Notation "x - y" := (d_sub x y) : d_scope.
Notation "x * y" := (d_mul x y) : d_scope.
Notation "x / y" := (d_div x y) : d_scope.
Notation "- x" := (d_neg x) : d_scope.
Notation "x == y" := (d_eqb x y) (at level 70, no associativity) : d_scope.
Notation "x != y" := (negb (d_eqb x y)) (at level 70, no associativity) : d_scope.
Notation "x <? y" := (d_ltb x y) : d_scope.
Notation "x >? y" := (d_ltb y x) : d_scope.
Notation "x <=? y" := (d_leb x y) : d_scope.
Notation "# n" := (d_of_Z n%Z) (at level 1, format "# n") : d_scope.

(** *** binary64 *)

(** The C library's [cos] and [sin]: not part of the program, so parameters. *)
Record Libm := { libm_cos : float -> float; libm_sin : float -> float }.

Module B64.

(** Decimal literals: [m]e[e] with [m] and the power of ten exactly
    representable, so that one correctly rounded operation gives the double
    nearest to the literal. *)
Definition of_Z (z : Z) : float :=
  match z with
  | Z0 => PrimFloat.zero
  | Zpos p => SF2Prim (binary_normalize prec emax (Zpos p) 0 false)
  | Zneg p => SF2Prim (binary_normalize prec emax (Zneg p) 0 false)
  end.

Definition lit (m e : Z) : float :=
  if (0 <=? e)%Z then PrimFloat.mul (of_Z m) (of_Z (10 ^ e))
  else PrimFloat.div (of_Z m) (of_Z (10 ^ (- e))).

(** [std::round] followed by the conversion to [int]; the conversion of an
    infinity or a NaN is undefined in C++, and 0 here. *)
Definition iround (f : float) : Z :=
  match Prim2SF f with
  | S754_finite s m e =>
      let mag := if (0 <=? e)%Z then Zpos m * 2 ^ e
                 else (Zpos m + 2 ^ (- e - 1)) / 2 ^ (- e) in
      if s then - mag else mag
  | _ => 0
  end.

(** [(float) x]: rounding to binary32 (24 bits of precision, [emax] 128). *)
Definition to_float32 (f : float) : float :=
  match Prim2SF f with
  | S754_finite s m e =>
      SF2Prim (binary_normalize 24 128 (if s then Zneg m else Zpos m) e s)
  | _ => f
  end.

(** [pi()]: the double nearest to 3.14159265358979323846. *)
Definition pi : float := 0x1.921fb54442d18p+1%float.

(** The real number a finite double stands for. *)
Definition to_R (f : float) : R :=
  match Prim2SF f with
  | S754_finite s m e => (IZR (if s then Zneg m else Zpos m) * powerRZ 2 e)%R
  | _ => 0%R
  end.

End B64.

#[global] Instance Float64 (libm : Libm) : DoubleOps float := {
  d_of_Z := B64.of_Z;
  d_lit := B64.lit;
  d_pi := B64.pi;
  d_add := PrimFloat.add;
  d_sub := PrimFloat.sub;
  d_mul := PrimFloat.mul;
  d_div := PrimFloat.div;
  d_neg := PrimFloat.opp;
  d_abs := PrimFloat.abs;
  d_sqrt := PrimFloat.sqrt;
  d_cos := libm_cos libm;
  d_sin := libm_sin libm;
  d_eqb := PrimFloat.eqb;
  d_ltb := PrimFloat.ltb;
  d_leb := PrimFloat.leb;
  d_float := B64.to_float32
}.

(** A stand-in for the C library where no angle other than 90 degrees occurs,
    so that neither function is called. *)
Definition no_libm : Libm := {| libm_cos := fun x => x; libm_sin := fun x => x |}.

#[global] Instance Float64_ieee (libm : Libm) : @IEEEOps float (Float64 libm) := {
  d_infinity := PrimFloat.infinity;
  d_iround := B64.iround
}.

(** *** exact real arithmetic *)

Module RealArith.

Definition eqb (x y : R) : bool := if Req_dec_T x y then true else false.
Definition ltb (x y : R) : bool := if Rlt_dec x y then true else false.
Definition leb (x y : R) : bool := if Rle_dec x y then true else false.
Definition lit (m e : Z) : R :=
  if (0 <=? e)%Z then (IZR m * IZR (10 ^ e))%R else (IZR m / IZR (10 ^ (- e)))%R.

End RealArith.

#[global] Instance RealOps : DoubleOps R := {
  d_of_Z := IZR;
  d_lit := RealArith.lit;
  d_pi := PI;
  d_add := Rplus;
  d_sub := Rminus;
  d_mul := Rmult;
  d_div := Rdiv;
  d_neg := Ropp;
  d_abs := Rbasic_fun.Rabs;
  d_sqrt := R_sqrt.sqrt;
  d_cos := Rtrigo_def.cos;
  d_sin := Rtrigo_def.sin;
  d_eqb := RealArith.eqb;
  d_ltb := RealArith.ltb;
  d_leb := RealArith.leb;
  d_float := fun x => x
}.

(** ** Scanners that produce a [double], a charge or a record type *)

Module pdb_num.
Import pdb_impl.

Section with_double.
Context {D : Type} {ops : DoubleOps D}.
Local Open Scope d_scope.

(** [for (; i < field_length && p[i] >= '0' && p[i] <= '9'; ++i) d = d * 10 + (p[i] - '0');] *)
Fixpoint read_whole (p : list ascii) (i k : nat) (d : D) : option (nat * D) :=
  match k with
  | O => Some (i, d)
  | S k' => c ← p !! i;
            if Char.is_digit c
            then read_whole p (S i) k' (d * #10 + d_of_Z (Char.val c - Char.val "0"))
            else Some (i, d)
  end.

(** [for (++i; i < field_length && p[i] >= '0' && p[i] <= '9'; ++i, mult *= 0.1)
       d += mult * (p[i] - '0');] *)
Fixpoint read_fraction (p : list ascii) (i k : nat) (mult d : D) : option D :=
  match k with
  | O => Some d
  | S k' => c ← p !! i;
            if Char.is_digit c
            then read_fraction p (S i) k' (mult * d_lit 1 (-1))
                               (d + mult * d_of_Z (Char.val c - Char.val "0"))
            else Some d
  end.

Definition read_double (p : list ascii) (field_length : nat) : option D :=
  i ← skip_space p 0 field_length;
  '(i, sign) ← read_sign p i;
  '(i, d) ← read_whole p i (field_length - i) #0;
  d ← (if (i <? field_length)%nat
       then c ← p !! i;
            if Char.eqb c "."
            then read_fraction p (S i) (field_length - S i) (d_lit 1 (-1)) d
            else Some d
       else Some d);
  Some (d_of_Z sign * d).

End with_double.

(** The standard charge format is 2+, but some files have +2. *)
Definition read_charge (digit sign : ascii) : outcome Z :=
  if Char.eqb sign " " && Char.eqb digit " " then Ok 0%Z
  else
    let '(digit, sign) :=
      if Char.is_digit sign then (sign, digit) else (digit, sign) in
    if Char.is_digit digit then
      if negb (Char.eqb sign "+") && negb (Char.eqb sign "-")
         && negb (Char.eqb sign Char.NUL) && negb (Char.isspace sign)
      then Raise ("Wrong format for charge: " +:+ String digit (String sign ""))
      else Ok ((Char.val digit - Char.val "0") * (if Char.eqb sign "-" then -1 else 1))%Z
    else Ok 0%Z.

(** [s[0] << 24 | s[1] << 16 | s[2] << 8 | s[3]] *)
Definition pack4 (a b c d : ascii) : Z :=
  Z.lor (Z.lor (Z.lor (Z.shiftl (Char.val a) 24) (Z.shiftl (Char.val b) 16))
               (Z.shiftl (Char.val c) 8))
        (Char.val d).

(** A string literal: its characters and the terminating NUL. *)
Definition literal (s : string) : list ascii := list_ascii_of_string s ++ [Char.NUL].

(** Compare the first 4 letters of s, ignoring case, with uppercase record. *)
Definition is_record_type (s : list ascii) (record : string) : option bool :=
  let r := literal record in
  s0 ← s !! 0%nat; s1 ← s !! 1%nat; s2 ← s !! 2%nat; s3 ← s !! 3%nat;
  r0 ← r !! 0%nat; r1 ← r !! 1%nat; r2 ← r !! 2%nat; r3 ← r !! 3%nat;
  Some (Z.land (pack4 s0 s1 s2 s3) (Z.lnot 0x20202020) =? pack4 r0 r1 r2 r3)%Z.

End pdb_num.

(** ** Vectors and matrices *)

Section linear_algebra.
Context {D : Type} {ops : DoubleOps D}.
Local Open Scope d_scope.

(** *** The 4x4 matrix of linalg.h: four columns [x y z w] of four components *)

Record Vec4 := mkVec4 { v4_0 : D; v4_1 : D; v4_2 : D; v4_3 : D }.

(** [v[i] = d]; an index outside 0..3 writes outside the vector, and no
    caller of the reader produces one. *)
Definition vec4_set (v : Vec4) (i : Z) (d : D) : Vec4 :=
  match i with
  | 0%Z => mkVec4 d (v4_1 v) (v4_2 v) (v4_3 v)
  | 1%Z => mkVec4 (v4_0 v) d (v4_2 v) (v4_3 v)
  | 2%Z => mkVec4 (v4_0 v) (v4_1 v) d (v4_3 v)
  | 3%Z => mkVec4 (v4_0 v) (v4_1 v) (v4_2 v) d
  | _ => v
  end.

Definition vec4_eqb (u v : Vec4) : bool :=
  (v4_0 u == v4_0 v) && (v4_1 u == v4_1 v) && (v4_2 u == v4_2 v) && (v4_3 u == v4_3 v).

Record Mat4x4 := mkMat4x4 { col_x : Vec4; col_y : Vec4; col_z : Vec4; col_w : Vec4 }.

(** [linalg::identity] *)
Definition mat4_identity : Mat4x4 :=
  mkMat4x4 (mkVec4 #1 #0 #0 #0) (mkVec4 #0 #1 #0 #0)
           (mkVec4 #0 #0 #1 #0) (mkVec4 #0 #0 #0 #1).

(** [a == b] of linalg.h: every component compares equal; [a != b] is its negation. *)
Definition mat4_eqb (a b : Mat4x4) : bool :=
  vec4_eqb (col_x a) (col_x b) && vec4_eqb (col_y a) (col_y b)
  && vec4_eqb (col_z a) (col_z b) && vec4_eqb (col_w a) (col_w b).

(** *** [Vec3], [Mat33] and [Transform] of math.hpp *)

Record Vec3 := mkVec3 { vx : D; vy : D; vz : D }.

(** Row-major: [m_ij] is [mat[i][j]]. *)
Record Mat33 := mkMat33 {
  m00 : D; m01 : D; m02 : D;
  m10 : D; m11 : D; m12 : D;
  m20 : D; m21 : D; m22 : D }.

Record Transform := mkTransform { mat : Mat33; vec : Vec3 }.

Definition mat33_identity : Mat33 := mkMat33 #1 #0 #0 #0 #1 #0 #0 #0 #1.
Definition vec3_zero : Vec3 := mkVec3 #0 #0 #0.
Definition transform_identity : Transform := mkTransform mat33_identity vec3_zero.

(** Modelled from the spec: math.hpp is not among the sources.  [Vec3]'s
    operators are component-wise, [length_sq] is the sum of the squares and
    [dist_sq] the squared length of the difference. *)
Definition vec3_sub (u v : Vec3) : Vec3 := mkVec3 (vx u - vx v) (vy u - vy v) (vz u - vz v).
Definition vec3_add (u v : Vec3) : Vec3 := mkVec3 (vx u + vx v) (vy u + vy v) (vz u + vz v).
Definition length_sq (v : Vec3) : D := vx v * vx v + vy v * vy v + vz v * vz v.
Definition dist_sq (u v : Vec3) : D := length_sq (vec3_sub u v).

(** Modelled from the spec: "affine application of the stored transforms",
    that is [mat * x + vec]. *)
Definition mat33_multiply (m : Mat33) (p : Vec3) : Vec3 :=
  mkVec3 (m00 m * vx p + m01 m * vy p + m02 m * vz p)
         (m10 m * vx p + m11 m * vy p + m12 m * vz p)
         (m20 m * vx p + m21 m * vy p + m22 m * vz p).
Definition transform_apply (t : Transform) (x : Vec3) : Vec3 :=
  vec3_add (mat33_multiply (mat t) x) (vec t).


(** Modelled from the spec: "If [f] agrees within 5e-6 on the matrix and 1e-6
    on the vector": every component differs by at most [epsilon]. *)
Definition approx_d (x y epsilon : D) : bool := d_abs (x - y) <=? epsilon.
Definition mat33_approx (p q : Mat33) (epsilon : D) : bool :=
  approx_d (m00 p) (m00 q) epsilon && approx_d (m01 p) (m01 q) epsilon
  && approx_d (m02 p) (m02 q) epsilon && approx_d (m10 p) (m10 q) epsilon
  && approx_d (m11 p) (m11 q) epsilon && approx_d (m12 p) (m12 q) epsilon
  && approx_d (m20 p) (m20 q) epsilon && approx_d (m21 p) (m21 q) epsilon
  && approx_d (m22 p) (m22 q) epsilon.
Definition vec3_approx (u v : Vec3) (epsilon : D) : bool :=
  approx_d (vx u) (vx v) epsilon && approx_d (vy u) (vy v) epsilon
  && approx_d (vz u) (vz v) epsilon.

(** Modelled from the spec: "adopt [f] and its inverse": the inverse of an
    affine map, the matrix by cofactors and the vector [-(inv * vec)]. *)
Definition mat33_determinant (m : Mat33) : D :=
  m00 m * (m11 m * m22 m - m21 m * m12 m)
  + m01 m * (m12 m * m20 m - m22 m * m10 m)
  + m02 m * (m10 m * m21 m - m20 m * m11 m).
Definition mat33_inverse (m : Mat33) : Mat33 :=
  let inv_det := #1 / mat33_determinant m in
  mkMat33
    (inv_det * (m11 m * m22 m - m21 m * m12 m))
    (inv_det * (m02 m * m21 m - m01 m * m22 m))
    (inv_det * (m01 m * m12 m - m02 m * m11 m))
    (inv_det * (m12 m * m20 m - m10 m * m22 m))
    (inv_det * (m00 m * m22 m - m02 m * m20 m))
    (inv_det * (m10 m * m02 m - m00 m * m12 m))
    (inv_det * (m10 m * m21 m - m20 m * m11 m))
    (inv_det * (m20 m * m01 m - m00 m * m21 m))
    (inv_det * (m00 m * m11 m - m10 m * m01 m)).
Definition transform_inverse (t : Transform) : Transform :=
  let minv := mat33_inverse (mat t) in
  let v := mat33_multiply minv (vec t) in
  mkTransform minv (mkVec3 (- vx v) (- vy v) (- vz v)).

(** Modelled from the spec: the reader hands its 4x4 accumulator to
    [set_matrices_from_fract], which takes a [Transform]; the conversion is
    not among the sources.  Row [i] of the accumulator is
    [(x[i], y[i], z[i] | w[i])]: three matrix entries and the translation. *)
Definition transform_of_mat4 (m : Mat4x4) : Transform :=
  mkTransform
    (mkMat33 (v4_0 (col_x m)) (v4_0 (col_y m)) (v4_0 (col_z m))
             (v4_1 (col_x m)) (v4_1 (col_y m)) (v4_1 (col_z m))
             (v4_2 (col_x m)) (v4_2 (col_y m)) (v4_2 (col_z m)))
    (mkVec3 (v4_0 (col_w m)) (v4_1 (col_w m)) (v4_2 (col_w m))).

End linear_algebra.

Arguments Vec4 D : clear implicits.
Arguments Mat4x4 D : clear implicits.
Arguments Vec3 D : clear implicits.
Arguments Mat33 D : clear implicits.
Arguments Transform D : clear implicits.

(** ** The unit cell (unitcell.hpp) *)

Inductive SymmetryImage := Same | Different | Unspecified.

Definition SymmetryImage_eqb (x y : SymmetryImage) : bool :=
  match x, y with
  | Same, Same | Different, Different | Unspecified, Unspecified => true
  | _, _ => false
  end.

(** Result of [find_nearest_image]. *)
Record NearbyImage (D : Type) := mkNearbyImage {
  nb_dist_sq : D;
  nb_box : Z * Z * Z;
  nb_sym_id : Z
}.
Arguments mkNearbyImage {D}.
Arguments nb_dist_sq {D}.
Arguments nb_box {D}.
Arguments nb_sym_id {D}.

Record UnitCell (D : Type) := mkUnitCell {
  a : D; b : D; c : D;
  alpha : D; beta : D; gamma : D;
  orth : Transform D;
  frac : Transform D;
  volume : D;
  ar : D; br : D; cr : D;
  cos_alphar : D; cos_betar : D; cos_gammar : D;
  explicit_matrices : bool;
  images : list (Transform D)
}.
Arguments mkUnitCell {D}.
Arguments a {D}. Arguments b {D}. Arguments c {D}.
Arguments alpha {D}. Arguments beta {D}. Arguments gamma {D}.
Arguments orth {D}. Arguments frac {D}. Arguments volume {D}.
Arguments ar {D}. Arguments br {D}. Arguments cr {D}.
Arguments cos_alphar {D}. Arguments cos_betar {D}. Arguments cos_gammar {D}.
Arguments explicit_matrices {D}. Arguments images {D}.

Module UnitCellM.

Section with_double.
Context {D : Type} {ops : DoubleOps D}.
Local Open Scope d_scope.

(** [UnitCell() = default]: the member initialisers of the struct; the two
    transforms start as the identity (math.hpp). *)
Definition default : UnitCell D :=
  mkUnitCell #1 #1 #1 #90 #90 #90
             transform_identity transform_identity
             #1 #1 #1 #1 #0 #0 #0 false [].

Definition is_crystal (u : UnitCell D) : bool :=
  (a u != #1) && (m00 (mat (frac u)) != #1).

(** The angle's cosine and sine, exact for a right angle. *)
Definition deg2rad : D := d_pi / #180.
Definition snapped_cos (angle : D) : D :=
  if angle == #90 then #0 else d_cos (deg2rad * angle).
Definition snapped_sin (angle : D) : D :=
  if angle == #90 then #1 else d_sin (deg2rad * angle).

Definition impossible_angle : string := "Impossible angle - N*180deg.".

(** [calculate_properties]: the cell after the call, and the message of the
    exception when [gemmi::fail] was reached (the members written before the
    throw keep their new values). *)
Definition calculate_properties (u : UnitCell D) : UnitCell D * option string :=
  let cos_alpha := snapped_cos (alpha u) in
  let cos_beta := snapped_cos (beta u) in
  let cos_gamma := snapped_cos (gamma u) in
  let sin_alpha := snapped_sin (alpha u) in
  let sin_beta := snapped_sin (beta u) in
  let sin_gamma := snapped_sin (gamma u) in
  if (sin_alpha == #0) || (sin_beta == #0) || (sin_gamma == #0)
  then (u, Some impossible_angle)
  else
    let volume' :=
      a u * b u * c u
      * d_sqrt (#1 - cos_alpha * cos_alpha - cos_beta * cos_beta
                - cos_gamma * cos_gamma
                + #2 * cos_alpha * cos_beta * cos_gamma) in
    let ar' := b u * c u * sin_alpha / volume' in
    let br' := a u * c u * sin_beta / volume' in
    let cr' := a u * b u * sin_gamma / volume' in
    let cos_alphar_sin_beta := (cos_beta * cos_gamma - cos_alpha) / sin_gamma in
    let cos_alphar' := cos_alphar_sin_beta / sin_beta in
    let cos_betar' := (cos_alpha * cos_gamma - cos_beta) / (sin_alpha * sin_gamma) in
    let cos_gammar' := (cos_alpha * cos_beta - cos_gamma) / (sin_alpha * sin_beta) in
    if explicit_matrices u
    then (mkUnitCell (a u) (b u) (c u) (alpha u) (beta u) (gamma u)
                     (orth u) (frac u)
                     volume' ar' br' cr' cos_alphar' cos_betar' cos_gammar'
                     (explicit_matrices u) (images u), None)
    else
      let sin_alphar := d_sqrt (#1 - cos_alphar' * cos_alphar') in
      let orth_mat :=
        mkMat33 (a u) (b u * cos_gamma) (c u * cos_beta)
                #0 (b u * sin_gamma) (- c u * cos_alphar_sin_beta)
                #0 #0 (c u * sin_beta * sin_alphar) in
      let o12 := - cos_gamma / (sin_gamma * a u) in
      let o13 := - (cos_gamma * cos_alphar_sin_beta + cos_beta * sin_gamma)
                 / (sin_alphar * sin_beta * sin_gamma * a u) in
      let o23 := cos_alphar' / (sin_alphar * sin_gamma * b u) in
      let frac_mat :=
        mkMat33 (#1 / a u) o12 o13
                #0 (#1 / m11 orth_mat) o23
                #0 #0 (#1 / m22 orth_mat) in
      (mkUnitCell (a u) (b u) (c u) (alpha u) (beta u) (gamma u)
                  (mkTransform orth_mat vec3_zero) (mkTransform frac_mat vec3_zero)
                  volume' ar' br' cr' cos_alphar' cos_betar' cos_gammar'
                  (explicit_matrices u) (images u), None).

Definition set_matrices_from_fract (u : UnitCell D) (f : Transform D) : UnitCell D :=
  if mat33_approx (mat f) (mat (frac u)) (d_lit 5 (-6))
     && vec3_approx (vec f) (vec (frac u)) (d_lit 1 (-6))
  then u
  else if (m00 (mat (frac u)) == #1)
          && ((m00 (mat f) == #0) || (m00 (mat f) >? #1))
  then u
  else mkUnitCell (a u) (b u) (c u) (alpha u) (beta u) (gamma u)
                  (transform_inverse f) f
                  (volume u) (ar u) (br u) (cr u)
                  (cos_alphar u) (cos_betar u) (cos_gammar u)
                  true (images u).

(** [set]: ignores an empty or partial CRYST1 ([gamma_ == 0.0]). *)
Definition set (u : UnitCell D) (a_ b_ c_ alpha_ beta_ gamma_ : D)
  : UnitCell D * option string :=
  if gamma_ == #0 then (u, None)
  else calculate_properties
         (mkUnitCell a_ b_ c_ alpha_ beta_ gamma_
                     (orth u) (frac u) (volume u) (ar u) (br u) (cr u)
                     (cos_alphar u) (cos_betar u) (cos_gammar u)
                     (explicit_matrices u) (images u)).

Definition orthogonalize (u : UnitCell D) (f : Vec3 D) : Vec3 D :=
  transform_apply (orth u) f.
Definition fractionalize (u : UnitCell D) (o : Vec3 D) : Vec3 D :=
  transform_apply (frac u) o.

Context {ieee : IEEEOps D}.

Definition dist (image : NearbyImage D) : D := d_sqrt (nb_dist_sq image).

(** Helper function. PBC = periodic boundary conditions. *)
Definition search_pbc_images (u : UnitCell D) (diff : Vec3 D) (image : NearbyImage D)
  : bool * NearbyImage D :=
  let box := (d_iround (vx diff), d_iround (vy diff), d_iround (vz diff)) in
  let diff := mkVec3 (vx diff - d_of_Z (fst (fst box)))
                     (vy diff - d_of_Z (snd (fst box)))
                     (vz diff - d_of_Z (snd box)) in
  let orth_diff := orthogonalize u diff in
  let dsq := length_sq orth_diff in
  if dsq <? nb_dist_sq image
  then (true, mkNearbyImage dsq box (nb_sym_id image))
  else (false, image).

(** [for (int n = 0; n != images.size(); ++n)
      if (search_pbc_images(images[n].apply(fpos) - fref, image)) image.sym_id = n + 1;] *)
Fixpoint search_images (u : UnitCell D) (fpos fref : Vec3 D)
         (imgs : list (Transform D)) (n : Z) (image : NearbyImage D) : NearbyImage D :=
  match imgs with
  | [] => image
  | t :: imgs' =>
      let '(found, image) :=
        search_pbc_images u (vec3_sub (transform_apply t fpos) fref) image in
      let image := if found
                   then mkNearbyImage (nb_dist_sq image) (nb_box image) (n + 1)%Z
                   else image in
      search_images u fpos fref imgs' (n + 1)%Z image
  end.

Definition box_is_zero (image : NearbyImage D) : bool :=
  let '(b0, b1, b2) := nb_box image in ((b0 =? 0) && (b1 =? 0) && (b2 =? 0))%Z.

Definition find_nearest_image (u : UnitCell D) (ref pos : Vec3 D)
           (sym_image : SymmetryImage) : NearbyImage D :=
  let image := mkNearbyImage (dist_sq ref pos) (0, 0, 0)%Z 0%Z in
  if SymmetryImage_eqb sym_image Same || negb (is_crystal u)
  then
    if SymmetryImage_eqb sym_image Different || (nb_dist_sq image == #0)
    then mkNearbyImage d_infinity (nb_box image) (nb_sym_id image)
    else image
  else
    let fpos := fractionalize u pos in
    let fref := fractionalize u ref in
    let '(_, image) := search_pbc_images u (vec3_sub fpos fref) image in
    let image :=
      if (SymmetryImage_eqb sym_image Different || (nb_dist_sq image == #0))
         && box_is_zero image
      then mkNearbyImage d_infinity (nb_box image) (nb_sym_id image)
      else image in
    search_images u fpos fref (images u) 0%Z image.

End with_double.

End UnitCellM.

(** ** The structure tree (model.hpp)

    Modelled from the spec: model.hpp is not among the sources; the records
    follow the spec's data model and keep what the reader writes.  A pointer
    into a vector is the index of the element; an [Entity*] is the address of
    the heap object, a number no two allocations share. *)

Inductive EntityType := Polymer | NonPolymer | Water | Unknown.
Inductive PolymerType := NA.

Module Entity.
Record t := mk {
  id : string;
  type : EntityType;
  polymer_type : PolymerType;
  sequence : list string
}.
Definition with_sequence (e : t) (s : list string) : t :=
  mk (id e) (type e) (polymer_type e) s.
Definition with_id (e : t) (i : string) : t :=
  mk i (type e) (polymer_type e) (sequence e).
Definition with_type (e : t) (ty : EntityType) : t :=
  mk (id e) ty (polymer_type e) (sequence e).
End Entity.

Module ResidueId.
Record t := mk {
  snic : pdb_impl.SNIC;
  segment : string;
  name : string
}.
Definition snic_eqb (x y : pdb_impl.SNIC) : bool :=
  (pdb_impl.seq_num x =? pdb_impl.seq_num y)%Z
  && Char.eqb (pdb_impl.ins_code x) (pdb_impl.ins_code y).
(** Modelled from the spec: "consecutive ATOM records with the same
    snic/segment/name extend the current residue". *)
Definition matches (x y : t) : bool :=
  snic_eqb (snic x) (snic y) && String.eqb (segment x) (segment y)
  && String.eqb (name x) (name y).
End ResidueId.

Module Atom.
Record t (D : Type) := mk {
  name : string;
  group : ascii;
  altloc : ascii;
  charge : Z;
  element : ascii * ascii;
  pos : Vec3 D;
  occ : D;
  b_iso : D;
  u11 : D; u22 : D; u33 : D; u12 : D; u13 : D; u23 : D
}.
Arguments mk {D}.
Arguments name {D}. Arguments group {D}. Arguments altloc {D}.
Arguments charge {D}. Arguments element {D}. Arguments pos {D}.
Arguments occ {D}. Arguments b_iso {D}.
Arguments u11 {D}. Arguments u22 {D}. Arguments u33 {D}.
Arguments u12 {D}. Arguments u13 {D}. Arguments u23 {D}.
Definition with_u {D} (x : t D) (v11 v22 v33 v12 v13 v23 : D) : t D :=
  mk (name x) (group x) (altloc x) (charge x) (element x) (pos x) (occ x) (b_iso x)
     v11 v22 v33 v12 v13 v23.
End Atom.

Module Residue.
Record t (D : Type) := mk {
  rid : ResidueId.t;
  atoms : list (Atom.t D)
}.
Arguments mk {D}.
Arguments rid {D}. Arguments atoms {D}.
End Residue.

Module Chain.
Record t (D : Type) := mk {
  name : string;
  auth_name : string;
  entity : option nat;
  residues : list (Residue.t D)
}.
Arguments mk {D}.
Arguments name {D}. Arguments auth_name {D}.
Arguments entity {D}. Arguments residues {D}.

(** The number of atoms the chain holds. *)
Definition count_atoms {D} (ch : t D) : nat :=
  list_sum (map (fun r => length (Residue.atoms r)) (residues ch)).

(** First index of an element that satisfies [f]. *)
Fixpoint find_index {A} (f : A -> bool) (l : list A) : option nat :=
  match l with
  | [] => None
  | x :: l' => if f x then Some O else S <$> find_index f l'
  end.

(** [find_or_add_residue]: the chain after the call and the index of the residue. *)
Definition find_or_add_residue {D} (ch : t D) (r : ResidueId.t) : t D * nat :=
  match find_index (fun x => ResidueId.matches (Residue.rid x) r) (residues ch) with
  | Some i => (ch, i)
  | None => (mk (name ch) (auth_name ch) (entity ch) (residues ch ++ [Residue.mk r []]),
             length (residues ch))
  end.
End Chain.

Module Model.
Record t (D : Type) := mk {
  name : string;
  chains : list (Chain.t D)
}.
Arguments mk {D}.
Arguments name {D}. Arguments chains {D}.

(** [find_or_add_chain]: the model after the call and the index of the chain. *)
Definition find_or_add_chain {D} (m : t D) (chain_name : string) : t D * nat :=
  match Chain.find_index (fun ch => String.eqb (Chain.name ch) chain_name) (chains m) with
  | Some i => (m, i)
  | None => (mk (name m) (chains m ++ [Chain.mk chain_name "" None []]),
             length (chains m))
  end.
End Model.

(** One entry of [Structure::ncs]. *)
Record NcsOp (D : Type) := mkNcsOp {
  ncs_id : string;
  ncs_given : bool;
  ncs_transform : Mat4x4 D
}.
Arguments mkNcsOp {D}.
Arguments ncs_id {D}. Arguments ncs_given {D}. Arguments ncs_transform {D}.

(** [Structure]: its [name] and [info] are strings the properties below do not
    involve, and are left out; [entities] pairs each owned [Entity] with its
    address. *)
Module Structure.
Record t (D : Type) := mk {
  cell : UnitCell D;
  sg_hm : string;
  origx : Mat4x4 D;
  ncs : list (NcsOp D);
  models : list (Model.t D);
  entities : list (nat * Entity.t)
}.
Arguments mk {D}.
Arguments cell {D}. Arguments sg_hm {D}. Arguments origx {D}.
Arguments ncs {D}. Arguments models {D}. Arguments entities {D}.

(** [find_or_add_model]: the models after the call and the index of the model. *)
Definition find_or_add_model {D} (ms : list (Model.t D)) (model_name : string)
  : list (Model.t D) * nat :=
  match Chain.find_index (fun m => String.eqb (Model.name m) model_name) ms with
  | Some i => (ms, i)
  | None => (ms ++ [Model.mk model_name []], length ms)
  end.
End Structure.

(** [std::to_string(int)] *)
Definition to_string (z : Z) : string :=
  DecimalString.NilZero.string_of_int (Z.to_int z).

(** [gemmi::in_vector] *)
Definition in_vector (x : string) (v : list string) : bool :=
  existsb (String.eqb x) v.

(** ** The entity resolver ([EntitySetter]) *)

Module EntitySetter.

(** The private state: [chain_to_ent_], with the next free heap address (what
    [new Entity] returns).  [st_.entities] is passed to each member function
    and returned by it. *)
Record t := mk {
  chain_to_ent_ : gmap string nat;
  next_addr : nat
}.

Definition empty : t := mk ∅ O.

Definition set_for_chain (es : t) (entities : list (nat * Entity.t))
           (chain_name : string) (type : EntityType)
  : nat * t * list (nat * Entity.t) :=
  match chain_to_ent_ es !! chain_name with
  | Some ent => (ent, es, entities)
  | None =>
      let ent := next_addr es in
      (ent,
       mk (<[chain_name := ent]> (chain_to_ent_ es)) (S ent),
       entities ++ [(ent, Entity.mk "" type NA [])])
  end.

(** [for (size_t i = 0; i != a.size(); ++i) if (a[i].mon != b[i].mon) return false;]
    on sequences of one size. *)
Fixpoint same_mons (a b : list string) : bool :=
  match a, b with
  | x :: a', y :: b' => String.eqb x y && same_mons a' b'
  | _, _ => true
  end.

(** PDB format has no equivalent of mmCIF entity. Here we assume that
    identical SEQRES means the same entity. *)
Definition same_entity (a b : list string) : bool :=
  if (match a with [] => true | _ => false end) || negb (length a =? length b)%nat
  then false
  else same_mons a b.

(** [for (auto& ce : chain_to_ent_) if (ce.second == j) ce.second = i;] *)
Definition redirect (j i : nat) (m : gmap string nat) : gmap string nat :=
  (fun p => if (p =? j)%nat then i else p) <$> m.

(** The inner loop of [finalize] for a fixed [i]: [rest] is what follows [i]
    in [st_.entities]; an entity with the sequence of [i] is erased and the
    chains that pointed to it are redirected to [i]. *)
Fixpoint merge_into (i : nat * Entity.t) (rest : list (nat * Entity.t))
         (m : gmap string nat) : list (nat * Entity.t) * gmap string nat :=
  match rest with
  | [] => ([], m)
  | j :: rest' =>
      if same_entity (Entity.sequence (snd j)) (Entity.sequence (snd i))
      then merge_into i rest' (redirect (fst j) (fst i) m)
      else let '(kept, m') := merge_into i rest' m in (j :: kept, m')
  end.

(** The outer loop: [fuel] bounds the number of iterations, and the number of
    entities is enough ([merge_entities]). *)
Fixpoint merge_loop (fuel : nat) (entities : list (nat * Entity.t))
         (m : gmap string nat) : list (nat * Entity.t) * gmap string nat :=
  match fuel, entities with
  | S fuel', i :: rest =>
      let '(rest', m') := merge_into i rest m in
      let '(kept, m'') := merge_loop fuel' rest' m' in
      (i :: kept, m'')
  | _, _ => (entities, m)
  end.

Definition merge_entities (entities : list (nat * Entity.t)) (m : gmap string nat)
  : list (nat * Entity.t) * gmap string nat :=
  merge_loop (length entities) entities m.

Section chains.
Context {D : Type}.

(** [for (Chain& ch : mod.chains) ch.entity = set_for_chain(ch.name, EntityType::Unknown);] *)
Fixpoint set_chain_entities (es : t) (entities : list (nat * Entity.t))
         (chains : list (Chain.t D))
  : t * list (nat * Entity.t) * list (Chain.t D) :=
  match chains with
  | [] => (es, entities, [])
  | ch :: chains' =>
      let '(ent, es, entities) := set_for_chain es entities (Chain.name ch) Unknown in
      let ch := Chain.mk (Chain.name ch) (Chain.auth_name ch) (Some ent) (Chain.residues ch) in
      let '(es, entities, chains') := set_chain_entities es entities chains' in
      (es, entities, ch :: chains')
  end.

(** [for (Model& mod : st_.models) ...] *)
Fixpoint set_model_entities (es : t) (entities : list (nat * Entity.t))
         (models : list (Model.t D))
  : t * list (nat * Entity.t) * list (Model.t D) :=
  match models with
  | [] => (es, entities, [])
  | md :: models' =>
      let '(es, entities, chains) := set_chain_entities es entities (Model.chains md) in
      let '(es, entities, models') := set_model_entities es entities models' in
      (es, entities, Model.mk (Model.name md) chains :: models')
  end.

(** [int serial = 1; for (auto& ent : st_.entities) ent->id = std::to_string(serial++);] *)
Fixpoint set_ids (serial : Z) (entities : list (nat * Entity.t)) : list (nat * Entity.t) :=
  match entities with
  | [] => []
  | (p, e) :: entities' =>
      (p, Entity.with_id e (to_string serial)) :: set_ids (serial + 1) entities'
  end.

Definition finalize (es : t) (entities : list (nat * Entity.t)) (models : list (Model.t D))
  : t * list (nat * Entity.t) * list (Model.t D) :=
  let '(entities, m) := merge_entities entities (chain_to_ent_ es) in
  let es := mk m (next_addr es) in
  let '(es, entities, models) := set_model_entities es entities models in
  (es, set_ids 1 entities, models).

End chains.

End EntitySetter.

(** ** The record dispatcher ([read_pdb_from_line_input]) *)

Inductive RecordType :=
| ATOM | ANISOU | REMARK | CONECT | SEQRES | HEADER | TITLE | KEYWDS | EXPDTA
| CRYST1 | MTRIXn | MODEL | ENDMDL | TER | SCALEn | ORIGX | SSBOND | CISPEP
| END | OTHER.

Module Reader.
Import pdb_impl pdb_num.

Section with_double.
Context {D : Type} {ops : DoubleOps D}.
Local Open Scope d_scope.

(** The local variables of [read_pdb_from_line_input].  [model], [chain] and
    [resi] are the three pointers: a model by its index in [st.models], a
    chain by the model's index and its own, a residue likewise. *)
Record t := mk {
  st : Structure.t D;
  has_ter : list string;
  conn_records : list string;
  model : option nat;
  chain : option (nat * nat);
  resi : option (nat * nat * nat);
  ent_setter : EntitySetter.t;
  line : list ascii;
  matrix : Mat4x4 D;
  line_num : Z
}.

Definition with_st (s : t) (x : Structure.t D) : t :=
  mk x (has_ter s) (conn_records s) (model s) (chain s) (resi s)
     (ent_setter s) (line s) (matrix s) (line_num s).
Definition with_has_ter (s : t) (x : list string) : t :=
  mk (st s) x (conn_records s) (model s) (chain s) (resi s)
     (ent_setter s) (line s) (matrix s) (line_num s).
Definition with_conn_records (s : t) (x : list string) : t :=
  mk (st s) (has_ter s) x (model s) (chain s) (resi s)
     (ent_setter s) (line s) (matrix s) (line_num s).
Definition with_model (s : t) (x : option nat) : t :=
  mk (st s) (has_ter s) (conn_records s) x (chain s) (resi s)
     (ent_setter s) (line s) (matrix s) (line_num s).
Definition with_chain (s : t) (x : option (nat * nat)) : t :=
  mk (st s) (has_ter s) (conn_records s) (model s) x (resi s)
     (ent_setter s) (line s) (matrix s) (line_num s).
Definition with_resi (s : t) (x : option (nat * nat * nat)) : t :=
  mk (st s) (has_ter s) (conn_records s) (model s) (chain s) x
     (ent_setter s) (line s) (matrix s) (line_num s).
Definition with_ent_setter (s : t) (x : EntitySetter.t) : t :=
  mk (st s) (has_ter s) (conn_records s) (model s) (chain s) (resi s)
     x (line s) (matrix s) (line_num s).
Definition with_line (s : t) (x : list ascii) (n : Z) : t :=
  mk (st s) (has_ter s) (conn_records s) (model s) (chain s) (resi s)
     (ent_setter s) x (matrix s) n.
Definition with_matrix (s : t) (x : Mat4x4 D) : t :=
  mk (st s) (has_ter s) (conn_records s) (model s) (chain s) (resi s)
     (ent_setter s) (line s) x (line_num s).

Definition with_models (x : Structure.t D) (ms : list (Model.t D)) : Structure.t D :=
  Structure.mk (Structure.cell x) (Structure.sg_hm x) (Structure.origx x)
               (Structure.ncs x) ms (Structure.entities x).
Definition with_entities (x : Structure.t D) (es : list (nat * Entity.t)) : Structure.t D :=
  Structure.mk (Structure.cell x) (Structure.sg_hm x) (Structure.origx x)
               (Structure.ncs x) (Structure.models x) es.
Definition with_cell (x : Structure.t D) (u : UnitCell D) : Structure.t D :=
  Structure.mk u (Structure.sg_hm x) (Structure.origx x)
               (Structure.ncs x) (Structure.models x) (Structure.entities x).
Definition with_sg_hm (x : Structure.t D) (sg : string) : Structure.t D :=
  Structure.mk (Structure.cell x) sg (Structure.origx x)
               (Structure.ncs x) (Structure.models x) (Structure.entities x).
Definition with_origx (x : Structure.t D) (m : Mat4x4 D) : Structure.t D :=
  Structure.mk (Structure.cell x) (Structure.sg_hm x) m
               (Structure.ncs x) (Structure.models x) (Structure.entities x).
Definition with_ncs (x : Structure.t D) (n : list (NcsOp D)) : Structure.t D :=
  Structure.mk (Structure.cell x) (Structure.sg_hm x) (Structure.origx x)
               n (Structure.models x) (Structure.entities x).

(** *** Dereferencing the three pointers (a dangling one is a [Fault]) *)

Definition deref_model (x : Structure.t D) (mi : nat) : outcome (Model.t D) :=
  scan (Structure.models x !! mi).
Definition deref_chain (x : Structure.t D) (cp : nat * nat) : outcome (Chain.t D) :=
  m ← deref_model x (fst cp); scan (Model.chains m !! snd cp).
Definition deref_resi (x : Structure.t D) (rp : nat * nat * nat) : outcome (Residue.t D) :=
  ch ← deref_chain x (fst rp); scan (Chain.residues ch !! snd rp).

(** Writing through a chain pointer and through a residue pointer. *)
Definition store_chain (x : Structure.t D) (cp : nat * nat) (ch : Chain.t D)
  : outcome (Structure.t D) :=
  m ← deref_model x (fst cp);
  Ok (with_models x (<[fst cp := Model.mk (Model.name m) (<[snd cp := ch]> (Model.chains m))]>
                       (Structure.models x))).
Definition store_resi (x : Structure.t D) (rp : nat * nat * nat) (r : Residue.t D)
  : outcome (Structure.t D) :=
  ch ← deref_chain x (fst rp);
  store_chain x (fst rp)
    (Chain.mk (Chain.name ch) (Chain.auth_name ch) (Chain.entity ch)
              (<[snd rp := r]> (Chain.residues ch))).

(** [wrong(msg)]: [fail("Problem in line " + std::to_string(line_num) + ": " + msg)] *)
Definition wrong {A} (s : t) (msg : string) : outcome A :=
  Raise ("Problem in line " +:+ to_string (line_num s) +:+ ": " +:+ msg).

(** [std::string(line)]: the bytes before the first NUL. *)
Definition string_of_line (l : list ascii) : string := string_of_list_ascii (c_str l).
Definition strlen (l : list ascii) : nat := length (c_str l).

(** *** The state before the first line *)

Definition initial : t :=
  let '(ms, mi) := Structure.find_or_add_model [] "1" in
  mk (Structure.mk UnitCellM.default "" mat4_identity [] ms [])
     [] [] (Some mi) None None EntitySetter.empty
     (repeat Char.NUL 88) mat4_identity 0%Z.

(** *** [copy_line_from_stream(line, 82, infile)]

    [raw] is what [in.gets] found: at most 81 of its bytes are stored, and a
    NUL after them; the bytes of [line] further on stay.  The result is the
    buffer and [strlen(line)]. *)
Definition copy_line_from_stream (line raw : list ascii) : list ascii * nat :=
  let stored := take 81 raw ++ [Char.NUL] in
  let line := stored ++ drop (length stored) line in
  (line, strlen line).

(** *** [read_matrix] *)

(** The conversion of an [int] to [char]. *)
Definition to_char (z : Z) : Z := ((z + 128) mod 256 - 128)%Z.

Definition read_matrix (m : Mat4x4 D) (line : list ascii) (len : nat)
  : outcome (Z * Mat4x4 D) :=
  if (len <? 46)%nat then Ok (0%Z, m)
  else
    c5 ← scan (line !! 5%nat);
    let n := to_char (Char.val c5 - Char.val "0") in
    if ((1 <=? n) && (n <=? 3))%Z then
      x ← scan (read_double (drop 10 line) 10);
      y ← scan (read_double (drop 20 line) 10);
      z ← scan (read_double (drop 30 line) 10);
      w ← scan (read_double (drop 45 line) 10);
      Ok (n, mkMat4x4 (vec4_set (col_x m) (n - 1) x) (vec4_set (col_y m) (n - 1) y)
                      (vec4_set (col_z m) (n - 1) z) (vec4_set (col_w m) (n - 1) w))
    else Ok (n, m).

(** *** The chain of [is_record_type] tests, in the order of the source *)

Definition record_tests : list (string * RecordType) :=
  [("ATOM", ATOM); ("HETATM", ATOM); ("ANISOU", ANISOU); ("REMARK", REMARK);
   ("CONECT", CONECT); ("SEQRES", SEQRES); ("HEADER", HEADER); ("TITLE", TITLE);
   ("KEYWDS", KEYWDS); ("EXPDTA", EXPDTA); ("CRYST1", CRYST1); ("MTRIXn", MTRIXn);
   ("MODEL", MODEL); ("ENDMDL", ENDMDL); ("TER", TER); ("SCALEn", SCALEn);
   ("ORIGX", ORIGX); ("SSBOND", SSBOND); ("CISPEP", CISPEP); ("END", END)].

Fixpoint first_record (line : list ascii) (tests : list (string * RecordType))
  : outcome RecordType :=
  match tests with
  | [] => Ok OTHER
  | (r, k) :: tests' =>
      b ← scan (is_record_type line r);
      if b : bool then Ok k else first_record line tests'
  end.

Definition record_type (line : list ascii) : outcome RecordType :=
  first_record line record_tests.

(** *** ATOM and HETATM *)

(** The chain the atom goes to: [if (!chain || chain_name != chain->auth_name) {...}] *)
Definition select_chain (s : t) (chain_name : string) : outcome t :=
  differs ← match chain s with
            | None => Ok true
            | Some cp => ch ← deref_chain (st s) cp;
                         Ok (negb (String.eqb chain_name (Chain.auth_name ch)))
            end;
  if differs : bool then
    match model s with
    | None => wrong s "ATOM/HETATM between models"
    | Some mi =>
        m ← deref_model (st s) mi;
        (* if this chain was TER'ed we use a separate chain for the rest. *)
        let ter := in_vector (Model.name m +:+ "/" +:+ chain_name) (has_ter s) in
        let '(m, ci) :=
          Model.find_or_add_chain m (chain_name +:+ (if ter then "_H" else "")) in
        ch ← scan (Model.chains m !! ci);
        let ch := Chain.mk (Chain.name ch) chain_name (Chain.entity ch) (Chain.residues ch) in
        let m := Model.mk (Model.name m) (<[ci := ch]> (Model.chains m)) in
        Ok (with_resi
              (with_chain (with_st s (with_models (st s) (<[mi := m]> (Structure.models (st s)))))
                          (Some (mi, ci)))
              None)
    end
  else Ok s.

(** The residue the atom goes to: [if (!resi || !resi->matches(rid))
    resi = chain->find_or_add_residue(rid);] *)
Definition select_residue (s : t) (rid : ResidueId.t) : outcome t :=
  cp ← scan (chain s);
  differs ← match resi s with
            | None => Ok true
            | Some rp => r ← deref_resi (st s) rp;
                         Ok (negb (ResidueId.matches (Residue.rid r) rid))
            end;
  if differs : bool then
    ch ← deref_chain (st s) cp;
    let '(ch, ri) := Chain.find_or_add_residue ch rid in
    x ← store_chain (st s) cp ch;
    Ok (with_resi (with_st s x) (Some (cp, ri)))
  else Ok s.

(** [atom.group = line[0] & ~0x20], as a byte *)
Definition clear_case_bit (c : ascii) : ascii :=
  ascii_of_N (Z.to_N (Z.land (Char.val c) (Z.lnot 0x20) mod 256)).

Definition parse_atom (line : list ascii) (len : nat) : outcome (Atom.t D) :=
  name ← scan (read_string (drop 12 line) 4);
  c0 ← scan (line !! 0%nat);
  c16 ← scan (line !! 16%nat);
  charge ← (if (78 <? len)%nat
            then c78 ← scan (line !! 78%nat); c79 ← scan (line !! 79%nat);
                 read_charge c78 c79
            else Ok 0%Z);
  c76 ← scan (line !! 76%nat);
  c77 ← scan (line !! 77%nat);
  x ← scan (read_double (drop 30 line) 8);
  y ← scan (read_double (drop 38 line) 8);
  z ← scan (read_double (drop 46 line) 8);
  occ ← scan (read_double (drop 54 line) 6);
  b_iso ← scan (read_double (drop 60 line) 6);
  Ok (Atom.mk name (clear_case_bit c0)
              (if Char.eqb c16 " " then Char.NUL else c16)
              charge (c76, c77) (mkVec3 x y z) (d_float occ) (d_float b_iso)
              #0 #0 #0 #0 #0 #0).

Definition on_atom (s : t) (len : nat) : outcome t :=
  if (len <? 77)%nat (* should we allow missing element *)
  then wrong s ("The line is too short to be correct:" +:+ String Char.LF (string_of_line (line s)))
  else
    chain_name ← scan (read_string (drop 20 (line s)) 2);
    s ← select_chain s chain_name;
    snic ← scan (read_snic (drop 22 (line s)));
    res_name ← scan (read_string (drop 17 (line s)) 3);
    segment ← scan (read_string (drop 72 (line s)) 4);
    s ← select_residue s (ResidueId.mk snic segment res_name);
    atom ← parse_atom (line s) len;
    rp ← scan (resi s);
    r ← deref_resi (st s) rp;
    x ← store_resi (st s) rp (Residue.mk (Residue.rid r) (Residue.atoms r ++ [atom]));
    Ok (with_st s x).

(** *** ANISOU *)

(** [read_int(...) * 1e-4f]: a product of two [float]s, exact in [double]
    before it is narrowed. *)
Definition anisou_value (n : Z) : D :=
  d_float (d_float (d_of_Z n) * d_float (d_lit 1 (-4))).

Definition on_anisou (s : t) : outcome t :=
  match model s, chain s, resi s with
  | Some _, Some _, Some rp =>
      r ← deref_resi (st s) rp;
      match last (Residue.atoms r) with
      | None => wrong s "ANISOU record not directly after ATOM/HETATM."
      | Some atom =>
          (* We assume that ANISOU refers to the last atom. *)
          if Atom.u11 atom != #0
          then wrong s "Duplicated ANISOU record or not directly after ATOM/HETATM."
          else
            v11 ← scan (read_int (drop 28 (line s)) 7);
            v22 ← scan (read_int (drop 35 (line s)) 7);
            v33 ← scan (read_int (drop 42 (line s)) 7);
            v12 ← scan (read_int (drop 49 (line s)) 7);
            v13 ← scan (read_int (drop 56 (line s)) 7);
            v23 ← scan (read_int (drop 63 (line s)) 7);
            let atom := Atom.with_u atom (anisou_value v11) (anisou_value v22)
                                    (anisou_value v33) (anisou_value v12)
                                    (anisou_value v13) (anisou_value v23) in
            x ← store_resi (st s) rp
                  (Residue.mk (Residue.rid r) (removelast (Residue.atoms r) ++ [atom]));
            Ok (with_st s x)
      end
  | _, _, _ => wrong s "ANISOU record not directly after ATOM/HETATM."
  end.

(** *** SEQRES *)

(** [ent->sequence.emplace_back(res_name)] through the pointer [ent] *)
Definition emplace_monomer (entities : list (nat * Entity.t)) (ent : nat) (res_name : string)
  : list (nat * Entity.t) :=
  map (fun pe => if (fst pe =? ent)%nat
                 then (fst pe, Entity.with_sequence (snd pe)
                                 (Entity.sequence (snd pe) ++ [res_name]))
                 else pe) entities.

(** [for (int i = 19; i < 68; i += 4)]: the columns the loop visits *)
Definition seqres_columns : list nat := map (fun k => 19 + 4 * k)%nat (seq 0 13).

Fixpoint read_monomers (line : list ascii) (columns : list nat)
         (entities : list (nat * Entity.t)) (ent : nat)
  : outcome (list (nat * Entity.t)) :=
  match columns with
  | [] => Ok entities
  | i :: columns' =>
      res_name ← scan (read_string (drop i line) 3);
      read_monomers line columns'
        (if String.eqb res_name "" then entities
         else emplace_monomer entities ent res_name) ent
  end.

Definition on_seqres (s : t) : outcome t :=
  chain_name ← scan (read_string (drop 10 (line s)) 2);
  let '(ent, es, entities) :=
    EntitySetter.set_for_chain (ent_setter s) (Structure.entities (st s))
                               chain_name Polymer in
  entities ← read_monomers (line s) seqres_columns entities ent;
  Ok (with_ent_setter (with_st s (with_entities (st s) entities)) es).

(** *** CRYST1 *)

Definition on_cryst1 (s : t) (len : nat) : outcome t :=
  s ← (if (54 <? len)%nat then
         a_ ← scan (read_double (drop 6 (line s)) 9);
         b_ ← scan (read_double (drop 15 (line s)) 9);
         c_ ← scan (read_double (drop 24 (line s)) 9);
         alpha_ ← scan (read_double (drop 33 (line s)) 7);
         beta_ ← scan (read_double (drop 40 (line s)) 7);
         gamma_ ← scan (read_double (drop 47 (line s)) 7);
         match UnitCellM.set (Structure.cell (st s)) a_ b_ c_ alpha_ beta_ gamma_ with
         | (u, None) => Ok (with_st s (with_cell (st s) u))
         | (_, Some msg) => Raise msg
         end
       else Ok s);
  if (56 <? len)%nat then
    sg ← scan (read_string (drop 55 (line s)) 11);
    Ok (with_st s (with_sg_hm (st s) sg))
  else Ok s.

(** *** MTRIXn, SCALEn, ORIGXn: the three-row matrices *)

Definition on_mtrix (s : t) (len : nat) : outcome t :=
  '(n, m) ← read_matrix (matrix s) (line s) len;
  let s := with_matrix s m in
  if (n =? 3)%Z && negb (mat4_eqb m mat4_identity) then
    given ← (if (59 <? len)%nat
             then c59 ← scan (line s !! 59%nat); Ok (Char.eqb c59 "1")
             else Ok false);
    serial ← scan (read_string (drop 7 (line s)) 3);
    Ok (with_matrix
          (with_st s (with_ncs (st s) (Structure.ncs (st s) ++ [mkNcsOp serial given m])))
          mat4_identity)
  else Ok s.

Definition on_scale (s : t) (len : nat) : outcome t :=
  '(n, m) ← read_matrix (matrix s) (line s) len;
  let s := with_matrix s m in
  if (n =? 3)%Z then
    Ok (with_matrix
          (with_st s (with_cell (st s)
                        (UnitCellM.set_matrices_from_fract (Structure.cell (st s))
                                                           (transform_of_mat4 m))))
          mat4_identity)
  else Ok s.

Definition on_origx (s : t) (len : nat) : outcome t :=
  '(n, m) ← read_matrix (matrix s) (line s) len;
  let s := with_matrix s m in
  if (n =? 3)%Z then Ok (with_st s (with_origx (st s) m))
  else Ok s.

(** *** MODEL, ENDMDL, TER *)

Definition on_model (s : t) : outcome t :=
  match model s, chain s with
  | Some _, Some _ => wrong s "MODEL without ENDMDL?"
  | _, _ =>
      n ← scan (read_int (drop 10 (line s)) 4);
      let name := to_string n in
      let '(ms, mi) := Structure.find_or_add_model (Structure.models (st s)) name in
      m ← scan (ms !! mi);
      match Model.chains m with
      | _ :: _ => wrong s ("duplicate MODEL number: " +:+ name)
      | [] => Ok (with_chain (with_model (with_st s (with_models (st s) ms)) (Some mi)) None)
      end
  end.

Definition on_endmdl (s : t) : outcome t :=
  Ok (with_chain (with_model s None) None).

(** TER finishes polymer chains. [model->name] dereferences [model]. *)
Definition on_ter (s : t) : outcome t :=
  s ← match chain s with
      | Some cp =>
          mi ← scan (model s);
          m ← deref_model (st s) mi;
          ch ← deref_chain (st s) cp;
          Ok (with_has_ter s (has_ter s ++ [Model.name m +:+ "/" +:+ Chain.name ch]))
      | None => Ok s
      end;
  Ok (with_chain s None).

(** *** SSBOND and CISPEP: kept for [process_conn] *)

Definition on_conn (s : t) (min_length : nat) : outcome t :=
  let record := string_of_line (line s) in
  if (min_length <? String.length record)%nat
  then Ok (with_conn_records s (conn_records s ++ [record]))
  else Ok s.

(** *** One turn of the loop

    [raw] is the line [in.gets] delivers.  The result says whether the loop
    goes on ([true]) or is left: on an empty line ([len == 0]) and on END.
    HEADER, TITLE, KEYWDS and EXPDTA write [st.info] only. *)
Definition process_line (s : t) (raw : list ascii) : outcome (bool * t) :=
  let '(line, len) := copy_line_from_stream (line s) raw in
  if (len =? 0)%nat then Ok (false, with_line s line (line_num s))
  else
    let s := with_line s line (line_num s + 1)%Z in
    k ← record_type line;
    match k with
    | ATOM => s ← on_atom s len; Ok (true, s)
    | ANISOU => s ← on_anisou s; Ok (true, s)
    | SEQRES => s ← on_seqres s; Ok (true, s)
    | CRYST1 => s ← on_cryst1 s len; Ok (true, s)
    | MTRIXn => s ← on_mtrix s len; Ok (true, s)
    | MODEL => s ← on_model s; Ok (true, s)
    | ENDMDL => s ← on_endmdl s; Ok (true, s)
    | TER => s ← on_ter s; Ok (true, s)
    | SCALEn => s ← on_scale s len; Ok (true, s)
    | ORIGX => s ← on_origx s len; Ok (true, s)
    | SSBOND => s ← on_conn s 34; Ok (true, s)
    | CISPEP => s ← on_conn s 21; Ok (true, s)
    | END => Ok (false, s)
    | REMARK | CONECT | HEADER | TITLE | KEYWDS | EXPDTA | OTHER => Ok (true, s)
    end.

(** [while (size_t len = copy_line_from_stream(line, 82, infile)) {...}]:
    [input] lists the lines [in.gets] delivers before it returns NULL. *)
Fixpoint read_loop (s : t) (input : list (list ascii)) : outcome t :=
  match input with
  | [] => Ok s
  | raw :: input' =>
      '(go_on, s) ← process_line s raw;
      if go_on : bool then read_loop s input' else Ok s
  end.

(** *** After the loop *)

(** [ch.entity->type = EntityType::Polymer] *)
Definition set_polymer (entities : list (nat * Entity.t)) (ent : nat)
  : list (nat * Entity.t) :=
  map (fun pe => if (fst pe =? ent)%nat
                 then (fst pe, Entity.with_type (snd pe) Polymer) else pe) entities.

Fixpoint mark_chains (model_name : string) (ht : list string)
         (chains : list (Chain.t D)) (entities : list (nat * Entity.t))
  : outcome (list (nat * Entity.t)) :=
  match chains with
  | [] => Ok entities
  | ch :: chains' =>
      entities ← (if in_vector (model_name +:+ "/" +:+ Chain.name ch) ht
                  then ent ← scan (Chain.entity ch); Ok (set_polymer entities ent)
                  else Ok entities);
      mark_chains model_name ht chains' entities
  end.

Fixpoint mark_polymers (ht : list string) (models : list (Model.t D))
         (entities : list (nat * Entity.t)) : outcome (list (nat * Entity.t)) :=
  match models with
  | [] => Ok entities
  | m :: models' =>
      entities ← mark_chains (Model.name m) ht (Model.chains m) entities;
      mark_polymers ht models' entities
  end.

(** The reader up to [st.finish()]: the loop, [ent_setter.finalize()] and the
    polymer marks.  [Structure::finish] and [process_conn] work on parts of
    model.hpp that are not among the sources. *)
Definition read_pdb_from_line_input (input : list (list ascii)) : outcome (Structure.t D) :=
  s ← read_loop initial input;
  let '(_, entities, models) :=
    EntitySetter.finalize (ent_setter s) (Structure.entities (st s))
                          (Structure.models (st s)) in
  entities ← mark_polymers (has_ter s) models entities;
  Ok (with_entities (with_models (st s) models) entities).

End with_double.

Arguments t D : clear implicits.

End Reader.

(* ===================================================================== *)
(** * Part II: properties                                                  *)
(* ===================================================================== *)

(** ** Blank fields *)

Module ScannerProofs.
Import pdb_impl pdb_num.

Section blank_fields.

Lemma lookup_blank (n i : nat) (rest : list ascii) :
  (i < n)%nat -> (replicate n " "%char ++ rest) !! i = Some " "%char.
Proof.
  intros Hi. rewrite lookup_app_l by (rewrite length_replicate; lia).
  apply lookup_replicate_2; lia.
Qed.

Lemma lookup_after_blank (n : nat) (c : ascii) :
  (replicate n " "%char ++ [c]) !! n = Some c.
Proof.
  rewrite lookup_app_r by (rewrite length_replicate; lia).
  rewrite length_replicate, Nat.sub_diag. reflexivity.
Qed.

Lemma lookup_past_blank (n : nat) :
  (replicate n " "%char) !! n = None (A := ascii).
Proof. apply lookup_ge_None_2. rewrite length_replicate. lia. Qed.

Lemma skip_space_blank (n k i : nat) (rest : list ascii) :
  (i + k = n)%nat -> skip_space (replicate n " "%char ++ rest) i k = Some n.
Proof.
  revert i. induction k as [|k IH]; intros i Hik; simpl.
  - f_equal. lia.
  - rewrite lookup_blank by lia. simpl. apply IH. lia.
Qed.

Lemma ltrim_blank (n k off : nat) :
  (off + k = n)%nat -> ltrim (replicate n " "%char) off k = Some (n, O).
Proof.
  revert off. induction k as [|k IH]; intros off Hk; simpl.
  - do 2 f_equal. lia.
  - rewrite <- (app_nil_r (replicate n _)), lookup_blank by lia. simpl.
    rewrite app_nil_r. apply IH. lia.
Qed.

End blank_fields.

Section C4.
Context {D : Type} {ops : DoubleOps D}.
Local Open Scope d_scope.

Lemma read_sign_after_blank (n : nat) (c : ascii) :
  read_sign (replicate n " "%char ++ [c]) n
  = Some (if Char.eqb c "-" then (S n, -1)%Z
          else if Char.eqb c "+" then (S n, 1)%Z else (n, 1)%Z).
Proof.
  unfold read_sign. rewrite lookup_after_blank. simpl.
  destruct (Char.eqb c "-"); [reflexivity|]. destruct (Char.eqb c "+"); reflexivity.
Qed.

Lemma read_int_blank (n : nat) (c : ascii) :
  read_int (replicate n " "%char ++ [c]) n = Some 0%Z.
Proof.
  unfold read_int. rewrite skip_space_blank by lia. simpl.
  rewrite read_sign_after_blank.
  destruct (Char.eqb c "-"); [|destruct (Char.eqb c "+")]; simpl;
    rewrite ?Nat.sub_diag; replace (n - S n)%nat with O by lia; reflexivity.
Qed.

Lemma read_int_blank_overrun (n : nat) :
  read_int (replicate n " "%char) n = None.
Proof.
  unfold read_int. rewrite <- (app_nil_r (replicate n _)).
  rewrite skip_space_blank by lia. simpl.
  unfold read_sign. rewrite app_nil_r, lookup_past_blank. reflexivity.
Qed.

Lemma read_double_blank (n : nat) (c : ascii) :
  read_double (replicate n " "%char ++ [c]) n
  = Some (d_of_Z (if Char.eqb c "-" then -1 else 1) * #0).
Proof.
  unfold read_double. rewrite skip_space_blank by lia. simpl.
  rewrite read_sign_after_blank.
  destruct (Char.eqb c "-"); [|destruct (Char.eqb c "+")]; simpl;
    rewrite ?Nat.sub_diag; replace (n - S n)%nat with O by lia; simpl.
  - replace (S n <? n)%nat with false by (symmetry; apply Nat.ltb_ge; lia). reflexivity.
  - replace (S n <? n)%nat with false by (symmetry; apply Nat.ltb_ge; lia). reflexivity.
  - rewrite Nat.ltb_irrefl. reflexivity.
Qed.

Lemma read_double_blank_overrun (n : nat) :
  read_double (replicate n " "%char) n = None.
Proof.
  unfold read_double. rewrite <- (app_nil_r (replicate n _)).
  rewrite skip_space_blank by lia. simpl.
  unfold read_sign. rewrite app_nil_r, lookup_past_blank. reflexivity.
Qed.

Lemma read_string_blank (n : nat) :
  read_string (replicate n " "%char) n = Some ""%string.
Proof.
  unfold read_string. rewrite ltrim_blank by lia. reflexivity.
Qed.

End C4.

(** C4 fails for [read_int] and [read_double].  On a field of [n] blanks
    [read_string] returns the empty string and reads no byte at or beyond
    index [n].  [read_int] and [read_double] reach the sign test
    [p[i] == '-'] with [i == field_length]: unlike the loops around it, the
    test has no guard [i < field_length], and on a buffer of exactly [n] bytes
    it reads outside the buffer.  With one byte more they return 0 and a zero
    ([-0.0] when that byte is '-') and read nothing further. *)
Theorem C4_blank_field (libm : Libm) (n : nat) :
  let blank := replicate n " "%char in
  read_string blank n = Some ""%string
  /\ read_int blank n = None
  /\ read_double (ops := Float64 libm) blank n = None
  /\ forall c : ascii,
       read_int (blank ++ [c]) n = Some 0%Z
       /\ read_double (ops := Float64 libm) (blank ++ [c]) n
          = Some (if Char.eqb c "-" then (-0)%float else 0%float).
Proof.
  intros blank. split; [apply read_string_blank|].
  split; [apply read_int_blank_overrun|].
  split; [apply read_double_blank_overrun|].
  intros ch. split; [apply read_int_blank|].
  unfold blank. rewrite read_double_blank.
  destruct (Char.eqb ch "-"); reflexivity.
Qed.

(** Four blanks: [read_int] reads the byte at index 4, outside the field. *)
Lemma four_blanks_sign_test :
  read_int (replicate 4 " "%char) 4 = None
  /\ read_int (replicate 4 " "%char ++ ["-"%char]) 4 = Some 0%Z.
Proof. split; reflexivity. Qed.

(** ** Hybrid-36, the encoder (the counterpart of [read_snic]) *)
Module hy36.

Definition digit (first_letter : ascii) (d : Z) : ascii :=
  ascii_of_nat (Z.to_nat (if d <? 10 then Char.val "0" + d
                          else Char.val first_letter + (d - 10))).

Definition base36 (first_letter : ascii) (n : Z) : list ascii :=
  [digit first_letter (n / 46656 mod 36); digit first_letter (n / 1296 mod 36);
   digit first_letter (n / 36 mod 36); digit first_letter (n mod 36)].

Definition decimal (n : Z) : list ascii :=
  let d := digit "A" in
  if n <? 10 then [" "%char; " "%char; " "%char; d n]
  else if n <? 100 then [" "%char; " "%char; d (n / 10); d (n mod 10)]
  else if n <? 1000 then [" "%char; d (n / 100); d (n / 10 mod 10); d (n mod 10)]
  else [d (n / 1000); d (n / 100 mod 10); d (n / 10 mod 10); d (n mod 10)].

Definition encode4 (n : Z) : option (list ascii) :=
  if n <? 0 then None
  else if n <? 10000 then Some (decimal n)
  else if n <? 10000 + 26 * 46656 then Some (base36 "A" (n - 10000 + 10 * 46656))
  else if n <? 10000 + 2 * 26 * 46656 then Some (base36 "a" (n - 10000 - 26 * 46656 + 10 * 46656))
  else None.

End hy36.

(** What the scanners see of a decimal digit, of a blank and of a base-36 digit. *)
Record decimal_digit (c : ascii) (d : Z) : Prop := {
  dd_space : Char.isspace c = false;
  dd_minus : Char.eqb c "-" = false;
  dd_plus : Char.eqb c "+" = false;
  dd_digit : Char.is_digit c = true;
  dd_value : Char.val c - Char.val "0" = d;
  dd_below_A : (Char.val c <? Char.val "A") = true
}.

Record base36_digit (c : ascii) (d : Z) : Prop := {
  bd_nul : Char.eqb c Char.NUL = false;
  bd_value : digit_value c = Some d
}.

Record base36_letter (c : ascii) : Prop := {
  bl_space : Char.isspace c = false;
  bl_minus : Char.eqb c "-" = false;
  bl_plus : Char.eqb c "+" = false;
  bl_from_A : (Char.val c <? Char.val "A") = false
}.

Lemma Z_range_cases (P : Z -> Prop) (n : nat) :
  (forall k, (k < n)%nat -> P (Z.of_nat k)) -> forall d, 0 <= d < Z.of_nat n -> P d.
Proof. intros H d Hd. rewrite <- (Z2Nat.id d) by lia. apply H. lia. Qed.

Ltac by_cases_below n :=
  apply (Z_range_cases _ n);
  let k := fresh "k" in let Hk := fresh "Hk" in
  intros k Hk;
  repeat (destruct k as [|k]; [split; vm_compute; reflexivity | try lia]).

Lemma decimal_digit_ok d : 0 <= d < 10 -> decimal_digit (hy36.digit "A" d) d.
Proof. revert d. by_cases_below 10%nat. Qed.

Lemma base36_digit_ok d : 0 <= d < 36 -> base36_digit (hy36.digit "A" d) d.
Proof. revert d. by_cases_below 36%nat. Qed.

Lemma base36_letter_ok d : 10 <= d < 36 -> base36_letter (hy36.digit "A" d).
Proof.
  intros Hd. replace d with (10 + (d - 10)) by lia.
  assert (0 <= d - 10 < 26) as H by lia. revert H. generalize (d - 10).
  by_cases_below 26%nat.
Qed.

Lemma blank_facts :
  Char.isspace " " = true /\ (Char.val " " <? Char.val "A") = true.
Proof. split; reflexivity. Qed.

Section decode.
Local Opaque Char.isspace Char.is_digit Char.val Char.eqb digit_value.

Lemma read_int_4digits c0 c1 c2 c3 d0 d1 d2 d3 rest :
  decimal_digit c0 d0 -> decimal_digit c1 d1 -> decimal_digit c2 d2 -> decimal_digit c3 d3 ->
  read_int (c0 :: c1 :: c2 :: c3 :: rest) 4 = Some (((d0 * 10 + d1) * 10 + d2) * 10 + d3).
Proof.
  intros [] [] [] []. unfold read_int, read_sign. simpl.
  repeat match goal with H : _ = _ |- _ => rewrite H; simpl end.
  f_equal. lia.
Qed.

End decode.

Lemma nul_is_nul : Char.eqb Char.NUL Char.NUL = true.
Proof. reflexivity. Qed.

Lemma base36_digits n :
  0 <= n < 1679616 ->
  (((0 * 36 + n / 46656 mod 36) * 36 + n / 1296 mod 36) * 36 + n / 36 mod 36) * 36 + n mod 36 = n.
Proof. intros Hn. Z.div_mod_to_equations. lia. Qed.

Lemma base36_digit_ranges n :
  466560 <= n < 1679616 ->
  10 <= n / 46656 mod 36 < 36 /\ 0 <= n / 1296 mod 36 < 36
  /\ 0 <= n / 36 mod 36 < 36 /\ 0 <= n mod 36 < 36.
Proof. intros Hn. Z.div_mod_to_equations. lia. Qed.

Section decode2.
Local Opaque Char.isspace Char.is_digit Char.val Char.eqb digit_value.

Ltac scan_step :=
  repeat match goal with
         | H : _ = _ |- _ => rewrite H; simpl
         | |- _ => rewrite (proj1 blank_facts); simpl
         | |- _ => rewrite (proj2 blank_facts); simpl
         | |- _ => rewrite nul_is_nul; simpl
         end.

Lemma read_int_3digits c1 c2 c3 d1 d2 d3 rest :
  decimal_digit c1 d1 -> decimal_digit c2 d2 -> decimal_digit c3 d3 ->
  read_int (" "%char :: c1 :: c2 :: c3 :: rest) 4 = Some ((d1 * 10 + d2) * 10 + d3).
Proof.
  intros [] [] []. unfold read_int, read_sign. simpl. scan_step. f_equal. lia.
Qed.

Lemma read_int_2digits c2 c3 d2 d3 rest :
  decimal_digit c2 d2 -> decimal_digit c3 d3 ->
  read_int (" "%char :: " "%char :: c2 :: c3 :: rest) 4 = Some (d2 * 10 + d3).
Proof.
  intros [] []. unfold read_int, read_sign. simpl. scan_step. f_equal. lia.
Qed.

Lemma read_int_1digit c3 d3 rest :
  decimal_digit c3 d3 ->
  read_int (" "%char :: " "%char :: " "%char :: c3 :: rest) 4 = Some d3.
Proof.
  intros []. unfold read_int, read_sign. simpl. scan_step. f_equal. lia.
Qed.

Lemma read_base36_4digits c0 c1 c2 c3 d0 d1 d2 d3 rest :
  base36_letter c0 ->
  base36_digit c0 d0 -> base36_digit c1 d1 -> base36_digit c2 d2 -> base36_digit c3 d3 ->
  0 <= d0 < 36 -> 0 <= d1 < 36 -> 0 <= d2 < 36 -> 0 <= d3 < 36 ->
  read_base36 4 (c0 :: c1 :: c2 :: c3 :: rest)
  = Some ((((0 * 36 + d0) * 36 + d1) * 36 + d2) * 36 + d3).
Proof.
  intros [] [] [] [] [] H0 H1 H2 H3. unfold read_base36, memcpy, strtol. simpl. scan_step.
  replace (d0 <? 36) with true by (symmetry; apply Z.ltb_lt; lia).
  replace (d1 <? 36) with true by (symmetry; apply Z.ltb_lt; lia).
  replace (d2 <? 36) with true by (symmetry; apply Z.ltb_lt; lia).
  replace (d3 <? 36) with true by (symmetry; apply Z.ltb_lt; lia).
  reflexivity.
Qed.

End decode2.

Definition icode_of (c : ascii) : ascii := if Char.eqb c " " then Char.NUL else c.

Lemma read_snic_unfold (s : list ascii) (s0 s4 : ascii) :
  s !! 0%nat = Some s0 -> s !! 4%nat = Some s4 ->
  read_snic s
  = (n ← (if Char.val s0 <? Char.val "A" then read_int s 4
          else (fun v => v - 466560 + 10000) <$> read_base36 4 s);
     Some {| seq_num := n; ins_code := icode_of s4 |}).
Proof.
  intros H0 H4. unfold read_snic. rewrite H0, H4. simpl.
  destruct (Char.val s0 <? Char.val "A"); [reflexivity|].
  destruct (read_base36 4 s); reflexivity.
Qed.

Lemma decimal_digits n :
  0 <= n < 10000 ->
  0 <= n / 1000 < 10 /\ 0 <= n / 100 mod 10 < 10 /\ 0 <= n / 10 mod 10 < 10
  /\ 0 <= n mod 10 < 10
  /\ ((n / 1000 * 10 + n / 100 mod 10) * 10 + n / 10 mod 10) * 10 + n mod 10 = n.
Proof. intros Hn. Z.div_mod_to_equations. lia. Qed.

Lemma read_snic_decimal (n : Z) (icode : ascii) :
  0 <= n < 10000 ->
  read_snic (hy36.decimal n ++ [icode])
  = Some {| seq_num := n; ins_code := icode_of icode |}.
Proof.
  intros Hn. destruct (decimal_digits n Hn) as (H3 & H2 & H1 & H0 & Hsum).
  unfold hy36.decimal.
  destruct (n <? 10) eqn:E1; [apply Z.ltb_lt in E1|apply Z.ltb_ge in E1].
  { rewrite (read_snic_unfold _ " " icode) by reflexivity.
    rewrite (proj2 blank_facts). simpl app.
    rewrite (read_int_1digit _ n) by (apply decimal_digit_ok; lia). reflexivity. }
  destruct (n <? 100) eqn:E2; [apply Z.ltb_lt in E2|apply Z.ltb_ge in E2].
  { rewrite (read_snic_unfold _ " " icode) by reflexivity.
    rewrite (proj2 blank_facts). simpl app.
    rewrite (read_int_2digits _ _ (n / 10) (n mod 10))
      by (apply decimal_digit_ok; Z.div_mod_to_equations; lia).
    simpl. do 2 f_equal. Z.div_mod_to_equations; lia. }
  destruct (n <? 1000) eqn:E3; [apply Z.ltb_lt in E3|apply Z.ltb_ge in E3].
  { rewrite (read_snic_unfold _ " " icode) by reflexivity.
    rewrite (proj2 blank_facts). simpl app.
    rewrite (read_int_3digits _ _ _ (n / 100) (n / 10 mod 10) (n mod 10))
      by (apply decimal_digit_ok; Z.div_mod_to_equations; lia).
    simpl. do 2 f_equal. Z.div_mod_to_equations; lia. }
  pose proof (decimal_digit_ok _ H3) as D3.
  rewrite (read_snic_unfold _ (hy36.digit "A" (n / 1000)) icode) by reflexivity.
  rewrite (dd_below_A _ _ D3). simpl app.
  rewrite (read_int_4digits _ _ _ _ (n / 1000) (n / 100 mod 10) (n / 10 mod 10) (n mod 10))
    by (apply decimal_digit_ok; assumption).
  simpl. do 2 f_equal. exact Hsum.
Qed.

Lemma read_snic_upper (n : Z) (icode : ascii) :
  466560 <= n < 1679616 ->
  read_snic (hy36.base36 "A" n ++ [icode])
  = Some {| seq_num := n - 466560 + 10000; ins_code := icode_of icode |}.
Proof.
  intros Hn. destruct (base36_digit_ranges n Hn) as (H3 & H2 & H1 & H0).
  pose proof (base36_letter_ok _ H3) as L3.
  unfold hy36.base36.
  rewrite (read_snic_unfold _ (hy36.digit "A" (n / 46656 mod 36)) icode) by reflexivity.
  rewrite (bl_from_A _ L3). simpl app.
  rewrite (read_base36_4digits _ _ _ _ (n / 46656 mod 36) (n / 1296 mod 36)
                               (n / 36 mod 36) (n mod 36));
    try (apply base36_digit_ok; lia); try lia; try assumption.
  rewrite base36_digits by lia. reflexivity.
Qed.

Definition bytes (s : string) : list ascii := list_ascii_of_string s.

(** C3, as the code has it: [read_snic] reads a field that starts below 'A'
    with [read_int] and any other field as base 36 minus 466560 plus 10000;
    the field 9999 decodes to 9999, A000 to 10000 and ZZZZ to 1223055; for
    every n from 0 to 1223055 decoding the 4-character hybrid-36 form of n
    gives n back. *)
Theorem C3_read_snic :
  (forall (s : list ascii) (s0 s4 : ascii),
      s !! 0%nat = Some s0 -> s !! 4%nat = Some s4 ->
      read_snic s
      = (n ← (if Char.val s0 <? Char.val "A" then read_int s 4
              else (fun v => v - 466560 + 10000) <$> read_base36 4 s);
         Some {| seq_num := n; ins_code := icode_of s4 |}))
  /\ seq_num <$> read_snic (bytes "9999 ") = Some 9999
  /\ seq_num <$> read_snic (bytes "A000 ") = Some 10000
  /\ seq_num <$> read_snic (bytes "ZZZZ ") = Some 1223055
  /\ (forall (n : Z) (icode : ascii),
         0 <= n <= 1223055 ->
         exists s, hy36.encode4 n = Some s
                   /\ length s = 4%nat
                   /\ read_snic (s ++ [icode])
                      = Some {| seq_num := n; ins_code := icode_of icode |}).
Proof.
  split; [exact read_snic_unfold|].
  do 3 (split; [reflexivity|]).
  intros n icode Hn. unfold hy36.encode4.
  replace (n <? 0) with false by (symmetry; apply Z.ltb_ge; lia).
  destruct (n <? 10000) eqn:E; [apply Z.ltb_lt in E|apply Z.ltb_ge in E].
  - eexists. split; [reflexivity|]. split.
    + unfold hy36.decimal. repeat match goal with |- context [if ?b then _ else _] => destruct b end; reflexivity.
    + apply read_snic_decimal. lia.
  - replace (n <? 10000 + 26 * 46656) with true by (symmetry; apply Z.ltb_lt; lia).
    eexists. split; [reflexivity|]. split; [reflexivity|].
    rewrite read_snic_upper by lia. do 2 f_equal. lia.
Qed.

(** C3 at n = 12345 with insertion code B. *)
Lemma C3_read_snic_witness :
  exists s, hy36.encode4 12345 = Some s
            /\ length s = 4%nat
            /\ read_snic (s ++ ["B"%char])
               = Some {| seq_num := 12345; ins_code := icode_of "B" |}.
Proof. apply (proj2 (proj2 (proj2 (proj2 C3_read_snic))) 12345 "B"%char). lia. Defined.

(** C3 as stated fails: ZZZZ decodes to 1223055 and not to 2436111; the
    lower-case half of hybrid-36 decodes like the upper-case half (zzzz, the
    form of 2436111, gives 1223055, and a000, the form of 1223056, gives
    10000); beyond 2436111 there is no 4-character form. *)
Lemma C3_counterexample :
  seq_num <$> read_snic (bytes "ZZZZ ") <> Some 2436111
  /\ hy36.encode4 2436111 = Some (bytes "zzzz")
  /\ seq_num <$> read_snic (bytes "zzzz ") = Some 1223055
  /\ hy36.encode4 1223056 = Some (bytes "a000")
  /\ seq_num <$> read_snic (bytes "a000 ") = Some 10000
  /\ hy36.encode4 2436112 = None.
Proof. repeat split; try reflexivity. discriminate. Qed.








End ScannerProofs.

(** ** The unit cell *)

Module CellProofs.
Import UnitCellM.
Local Open Scope nat_scope.

(** ** The nearest image in the cubic cell of edge 10 *)
Section nearest_image.
Variable libm : Libm.

Definition cell10 : UnitCell float :=
  fst (set (ops := Float64 libm) (default (ops := Float64 libm)) 10 10 10 90 90 90)%float.

Definition nearest10 : NearbyImage float :=
  find_nearest_image (ops := Float64 libm) cell10
    (mkVec3 0.1 0.1 0.1)%float (mkVec3 9.8 9.8 9.8)%float Unspecified.

Definition within (x y tolerance : float) : bool :=
  PrimFloat.leb (PrimFloat.abs (x - y)) tolerance.

End nearest_image.

(** C6, as the code has it: in the cell a = b = c = 10, all angles 90, no
    symmetry image, [find_nearest_image] from (0.1, 0.1, 0.1) to
    (9.8, 9.8, 9.8) returns box (1, 1, 1), symmetry 0, squared distance 0.27
    and distance 0.5196..., the square root of 0.27, whatever the C library. *)
Theorem C6_nearest_image (libm : Libm) :
  is_crystal (ops := Float64 libm) (cell10 libm) = true
  /\ images (cell10 libm) = []
  /\ nb_box (nearest10 libm) = (1, 1, 1)%Z
  /\ nb_sym_id (nearest10 libm) = 0%Z
  /\ within (nb_dist_sq (nearest10 libm)) 0.27 1e-12 = true
  /\ within (dist (ops := Float64 libm) (nearest10 libm)) 0.5196152422706632 1e-12 = true.
Proof. repeat split; vm_compute; reflexivity. Qed.

(** No angle but the right angle occurs: the C library is not consulted. *)
Lemma nearest10_any_libm (libm : Libm) : nearest10 libm = nearest10 no_libm.
Proof. reflexivity. Qed.

(** C6 as stated fails: the box is (1, 1, 1), and the distance is farther
    than 0.38 from 0.9. *)
Lemma C6_counterexample :
  nb_box (nearest10 no_libm) = (1, 1, 1)%Z
  /\ within (dist (ops := Float64 no_libm) (nearest10 no_libm)) 0.9 0.38 = false.
Proof. split; vm_compute; reflexivity. Qed.

(** ** Calls of [set] and [calculate_properties], any arithmetic *)

Section calls.
Context {D : Type} {ops : DoubleOps D}.
Local Open Scope d_scope.

(** A call on a cell. *)
Inductive call :=
| CallSet (a_ b_ c_ alpha_ beta_ gamma_ : D)
| CallCalculateProperties.

(** The cell after a call; a caller that catches the exception keeps the cell
    as the throw left it. *)
Definition after_call (u : UnitCell D) (k : call) : UnitCell D :=
  match k with
  | CallSet a_ b_ c_ alpha_ beta_ gamma_ => fst (set u a_ b_ c_ alpha_ beta_ gamma_)
  | CallCalculateProperties => fst (calculate_properties u)
  end.

Definition after_calls (u : UnitCell D) (ks : list call) : UnitCell D :=
  fold_left after_call ks u.

(** The cell [set] hands to [calculate_properties]. *)
Definition stored (u : UnitCell D) (a_ b_ c_ alpha_ beta_ gamma_ : D) : UnitCell D :=
  mkUnitCell a_ b_ c_ alpha_ beta_ gamma_
             (orth u) (frac u) (volume u) (ar u) (br u) (cr u)
             (cos_alphar u) (cos_betar u) (cos_gammar u)
             (explicit_matrices u) (images u).

Definition some_sine_is_zero (alpha_ beta_ gamma_ : D) : bool :=
  (snapped_sin alpha_ == #0) || (snapped_sin beta_ == #0) || (snapped_sin gamma_ == #0).

Lemma calculate_properties_raises (u : UnitCell D) :
  snd (calculate_properties u)
  = if some_sine_is_zero (alpha u) (beta u) (gamma u) then Some impossible_angle else None.
Proof.
  unfold calculate_properties, some_sine_is_zero.
  destruct (_ || _); [reflexivity|]. destruct (explicit_matrices u); reflexivity.
Qed.

Lemma set_raises (u : UnitCell D) (a_ b_ c_ alpha_ beta_ gamma_ : D) :
  snd (set u a_ b_ c_ alpha_ beta_ gamma_)
  = if gamma_ == #0 then None
    else if some_sine_is_zero alpha_ beta_ gamma_ then Some impossible_angle else None.
Proof.
  unfold set. destruct (gamma_ == #0); [reflexivity|].
  apply calculate_properties_raises.
Qed.

(** The parameters and what is derived from them, as six parameters give them. *)
Definition same_parameters (u v : UnitCell D) : Prop :=
  a u = a v /\ b u = b v /\ c u = c v
  /\ alpha u = alpha v /\ beta u = beta v /\ gamma u = gamma v
  /\ volume u = volume v
  /\ ar u = ar v /\ br u = br v /\ cr u = cr v
  /\ cos_alphar u = cos_alphar v /\ cos_betar u = cos_betar v
  /\ cos_gammar u = cos_gammar v.

Lemma calculate_properties_frame (u : UnitCell D) :
  explicit_matrices u = true ->
  let u' := fst (calculate_properties u) in
  frac u' = frac u /\ orth u' = orth u /\ explicit_matrices u' = true
  /\ images u' = images u.
Proof.
  intros He. unfold calculate_properties. rewrite He.
  destruct (_ || _); simpl; auto.
Qed.

Lemma set_frame (u : UnitCell D) (a_ b_ c_ alpha_ beta_ gamma_ : D) :
  explicit_matrices u = true ->
  let u' := fst (set u a_ b_ c_ alpha_ beta_ gamma_) in
  frac u' = frac u /\ orth u' = orth u /\ explicit_matrices u' = true
  /\ images u' = images u.
Proof.
  intros He. unfold set. destruct (gamma_ == #0); [simpl; auto|].
  apply (calculate_properties_frame (stored u a_ b_ c_ alpha_ beta_ gamma_)). exact He.
Qed.

Lemma after_call_frame (u : UnitCell D) (k : call) :
  explicit_matrices u = true ->
  frac (after_call u k) = frac u /\ orth (after_call u k) = orth u
  /\ explicit_matrices (after_call u k) = true.
Proof.
  intros He. destruct k; simpl.
  - destruct (set_frame u a_ b_ c_ alpha_ beta_ gamma_ He) as (? & ? & ? & ?). auto.
  - destruct (calculate_properties_frame u He) as (? & ? & ? & ?). auto.
Qed.

Lemma after_calls_frame (ks : list call) (u : UnitCell D) :
  explicit_matrices u = true ->
  frac (after_calls u ks) = frac u /\ orth (after_calls u ks) = orth u
  /\ explicit_matrices (after_calls u ks) = true.
Proof.
  revert u. induction ks as [|k ks IH]; intros u He; simpl; [auto|].
  destruct (after_call_frame u k He) as (Hf & Ho & He').
  destruct (IH _ He') as (Hf' & Ho' & He'').
  unfold after_calls in *. rewrite Hf', Ho', Hf, Ho. auto.
Qed.

(** What a call that goes through writes does not depend on the matrices. *)
Lemma set_parameters (u v : UnitCell D) (a_ b_ c_ alpha_ beta_ gamma_ : D) :
  (gamma_ == #0) = false ->
  snd (set u a_ b_ c_ alpha_ beta_ gamma_) = None ->
  let u' := fst (set u a_ b_ c_ alpha_ beta_ gamma_) in
  a u' = a_ /\ b u' = b_ /\ c u' = c_
  /\ alpha u' = alpha_ /\ beta u' = beta_ /\ gamma u' = gamma_
  /\ same_parameters u' (fst (set v a_ b_ c_ alpha_ beta_ gamma_)).
Proof.
  intros Hg. rewrite set_raises, Hg. unfold set. rewrite Hg.
  unfold calculate_properties, some_sine_is_zero. simpl.
  destruct (_ || _); [discriminate|]. intros _.
  destruct (explicit_matrices u), (explicit_matrices v); simpl;
    unfold same_parameters; simpl; repeat split.
Qed.

(** Nor does what a successful [calculate_properties] writes. *)
Lemma calculate_properties_parameters (u : UnitCell D) :
  snd (calculate_properties u) = None ->
  let u' := fst (calculate_properties u) in
  a u' = a u /\ b u' = b u /\ c u' = c u
  /\ alpha u' = alpha u /\ beta u' = beta u /\ gamma u' = gamma u
  /\ same_parameters u' (fst (calculate_properties
                               (stored default (a u) (b u) (c u) (alpha u) (beta u) (gamma u)))).
Proof.
  unfold calculate_properties, stored. simpl.
  destruct (_ || _); [discriminate|]. intros _.
  destruct (explicit_matrices u); simpl; unfold same_parameters; simpl; repeat split.
Qed.

Lemma set_matrices_from_fract_adopts (u : UnitCell D) (f : Transform D) :
  explicit_matrices u = false ->
  explicit_matrices (set_matrices_from_fract u f) = true ->
  frac (set_matrices_from_fract u f) = f
  /\ orth (set_matrices_from_fract u f) = transform_inverse f.
Proof.
  unfold set_matrices_from_fract. intros Hu.
  destruct (_ && _); [congruence|]. destruct (_ && _); [congruence|]. simpl. auto.
Qed.

End calls.

(** C10, as the code has it: once [set_matrices_from_fract] has made the
    matrices explicit, no sequence of calls of [set] and
    [calculate_properties] changes [frac] or [orth], whether a call returns,
    returns early or throws.  A call of [set] with a non-zero gamma that
    throws nothing stores the six parameters, and a call of
    [calculate_properties] that throws nothing keeps them; both give the
    volume and the reciprocal parameters the values a fresh cell gets from
    the parameters. *)
Theorem C10_explicit_matrices_kept {D : Type} {ops : DoubleOps D}
        (u : UnitCell D) (f : Transform D) (ks : list call) :
  explicit_matrices (set_matrices_from_fract u f) = true ->
  let u1 := set_matrices_from_fract u f in
  let u2 := after_calls u1 ks in
  (explicit_matrices u = false -> frac u1 = f /\ orth u1 = transform_inverse f)
  /\ frac u2 = frac u1 /\ orth u2 = orth u1 /\ explicit_matrices u2 = true
  /\ (forall a_ b_ c_ alpha_ beta_ gamma_ : D,
        d_eqb gamma_ (d_of_Z 0) = false ->
        snd (set u2 a_ b_ c_ alpha_ beta_ gamma_) = None ->
        let u3 := fst (set u2 a_ b_ c_ alpha_ beta_ gamma_) in
        a u3 = a_ /\ b u3 = b_ /\ c u3 = c_
        /\ alpha u3 = alpha_ /\ beta u3 = beta_ /\ gamma u3 = gamma_
        /\ same_parameters u3 (fst (set default a_ b_ c_ alpha_ beta_ gamma_))
        /\ frac u3 = frac u1 /\ orth u3 = orth u1)
  /\ (snd (calculate_properties u2) = None ->
      let u3 := fst (calculate_properties u2) in
      a u3 = a u2 /\ b u3 = b u2 /\ c u3 = c u2
      /\ alpha u3 = alpha u2 /\ beta u3 = beta u2 /\ gamma u3 = gamma u2
      /\ same_parameters u3 (fst (calculate_properties
                                   (stored default (a u2) (b u2) (c u2)
                                           (alpha u2) (beta u2) (gamma u2))))
      /\ frac u3 = frac u1 /\ orth u3 = orth u1).
Proof.
  intros He u1 u2.
  destruct (after_calls_frame ks u1 He) as (Hf & Ho & He2).
  split; [intros Hu; apply set_matrices_from_fract_adopts; assumption|].
  repeat (split; [assumption|]). split.
  - intros a_ b_ c_ alpha_ beta_ gamma_ Hg Hok u3.
    destruct (set_parameters u2 default a_ b_ c_ alpha_ beta_ gamma_ Hg Hok)
      as (? & ? & ? & ? & ? & ? & ?).
    destruct (set_frame u2 a_ b_ c_ alpha_ beta_ gamma_ He2) as (Hf3 & Ho3 & _).
    fold u3 in Hf3, Ho3. rewrite Hf3, Ho3.
    repeat (split; [assumption|]). auto.
  - intros Hok u3.
    destruct (calculate_properties_parameters u2 Hok) as (? & ? & ? & ? & ? & ? & ?).
    destruct (calculate_properties_frame u2 He2) as (Hf3 & Ho3 & _).
    fold u3 in Hf3, Ho3. rewrite Hf3, Ho3.
    repeat (split; [assumption|]). auto.
Qed.

(** The transform that C10's example adopts: the x axis scaled by 0.2. *)
Definition fifth_of_x : Transform float :=
  (mkTransform (mkMat33 0.2 0 0 0 0.1 0 0 0 0.1) (mkVec3 0 0 0))%float.

(** The cubic cell of edge 10 after it adopted [fifth_of_x]. *)
Definition adopted : UnitCell float :=
  set_matrices_from_fract (ops := Float64 no_libm) (cell10 no_libm) fifth_of_x.

(** C10 on [adopted]: a call of [set] and one of [calculate_properties] leave
    [frac] alone. *)
Lemma C10_explicit_matrices_kept_witness :
  frac (after_calls (ops := Float64 no_libm) adopted
          [CallSet 20 30 40 90 90 90; CallCalculateProperties]%float)
  = frac adopted.
Proof.
  refine (proj1 (proj2 (C10_explicit_matrices_kept (ops := Float64 no_libm)
                          (cell10 no_libm) fifth_of_x
                          [CallSet 20 30 40 90 90 90; CallCalculateProperties]%float _))).
  vm_compute. reflexivity.
Defined.

(** C10 as stated fails: on [adopted], whose matrices are explicit,
    [set(20, 30, 40, 90, 90, 0)] returns early (an empty or partial CRYST1 is
    ignored) and updates nothing; the edges are still 10. *)
Lemma C10_counterexample :
  explicit_matrices adopted = true
  /\ a (after_calls (ops := Float64 no_libm) adopted [CallSet 20 30 40 90 90 0]%float)
     = 10%float
  /\ b (after_calls (ops := Float64 no_libm) adopted [CallSet 20 30 40 90 90 0]%float)
     = 10%float
  /\ c (after_calls (ops := Float64 no_libm) adopted [CallSet 20 30 40 90 90 0]%float)
     = 10%float.
Proof. repeat split; vm_compute; reflexivity. Qed.

(** ** The unit cell in exact real arithmetic *)
Module RealCell.
Local Open Scope R_scope.

Lemma eqb_true (x y : R) : d_eqb x y = true <-> x = y.
Proof. simpl. unfold RealArith.eqb. destruct (Req_dec_T x y); split; congruence. Qed.

Lemma eqb_false (x y : R) : d_eqb x y = false <-> x <> y.
Proof. simpl. unfold RealArith.eqb. destruct (Req_dec_T x y); split; congruence. Qed.

Definition multiple_of_180 (angle : R) : Prop := exists k : Z, angle = 180 * IZR k.

Lemma right_angle_not_multiple : ~ multiple_of_180 90.
Proof.
  intros [k Hk]. assert (IZR (2 * k) = IZR 1) as H by (rewrite mult_IZR; lra).
  apply eq_IZR in H. lia.
Qed.

Lemma snapped_sin_zero (angle : R) :
  snapped_sin angle = 0 <-> multiple_of_180 angle.
Proof.
  unfold snapped_sin. destruct (d_eqb angle (d_of_Z 90)) eqn:E.
  - apply eqb_true in E. simpl in E. subst angle. split; [simpl; lra|].
    intros H. destruct (right_angle_not_multiple H).
  - simpl. unfold deg2rad. simpl. split.
    + intros H. apply sin_eq_0_0 in H. destruct H as [k Hk]. exists k.
      pose proof PI_neq0. apply (Rmult_eq_reg_l (PI / 180)); [|lra].
      rewrite Hk. field.
    + intros [k Hk]. apply sin_eq_0_1. exists k. subst angle. field.
Qed.


Lemma some_sine_is_zero_iff (alpha_ beta_ gamma_ : R) :
  some_sine_is_zero alpha_ beta_ gamma_ = true
  <-> multiple_of_180 alpha_ \/ multiple_of_180 beta_ \/ multiple_of_180 gamma_.
Proof.
  unfold some_sine_is_zero. rewrite !orb_true_iff, !eqb_true.
  change (d_of_Z 0) with 0. rewrite !snapped_sin_zero. tauto.
Qed.

End RealCell.

(** In exact real arithmetic [set] with a non-zero gamma throws "Impossible
    angle" exactly when one of the three angles is a multiple of 180 degrees;
    otherwise it stores the parameters and computes the derived properties
    without an error. *)
Theorem impossible_angle_exact (u : UnitCell R) (a_ b_ c_ alpha_ beta_ gamma_ : R) :
  gamma_ <> 0%R ->
  let r := set u a_ b_ c_ alpha_ beta_ gamma_ in
  let impossible := RealCell.multiple_of_180 alpha_ \/ RealCell.multiple_of_180 beta_
                    \/ RealCell.multiple_of_180 gamma_ in
  (snd r = Some "Impossible angle - N*180deg."%string <-> impossible)
  /\ (~ impossible ->
      snd r = None
      /\ a (fst r) = a_ /\ b (fst r) = b_ /\ c (fst r) = c_
      /\ alpha (fst r) = alpha_ /\ beta (fst r) = beta_ /\ gamma (fst r) = gamma_
      /\ fst r = fst (calculate_properties (stored u a_ b_ c_ alpha_ beta_ gamma_))).
Proof.
  intros Hg r impossible. apply RealCell.eqb_false in Hg.
  assert (snd r = if some_sine_is_zero alpha_ beta_ gamma_ then Some impossible_angle else None)
    as Hr by (unfold r; rewrite set_raises; change (d_of_Z 0) with 0%R; rewrite Hg; reflexivity).
  pose proof (RealCell.some_sine_is_zero_iff alpha_ beta_ gamma_) as Hz. fold impossible in Hz.
  split.
  - rewrite Hr. destruct (some_sine_is_zero alpha_ beta_ gamma_).
    + split; [intros _; apply Hz; reflexivity|reflexivity].
    + split; [discriminate|]. intros H. apply Hz in H. discriminate.
  - intros Hn. assert (snd r = None) as Hnone.
    { rewrite Hr. destruct (some_sine_is_zero alpha_ beta_ gamma_); [|reflexivity].
      destruct Hn. apply Hz. reflexivity. }
    split; [exact Hnone|].
    destruct (set_parameters u u a_ b_ c_ alpha_ beta_ gamma_ Hg Hnone)
      as (? & ? & ? & ? & ? & ? & _).
    repeat (split; [assumption|]).
    unfold r, set. change (d_of_Z 0) with 0%R in Hg. change (d_of_Z 0) with 0%R. rewrite Hg. reflexivity.
Qed.

Module RealInverse.
Import RealCell.
Local Open Scope R_scope.





End RealInverse.

(** The straight angle, in exact real arithmetic. *)
Lemma straight_angle_exact :
  snd (set (ops := RealOps) default 10%R 10%R 10%R 90%R 90%R 180%R)
  = Some "Impossible angle - N*180deg."%string.
Proof.
  assert (180%R <> 0%R) as H by lra.
  apply (proj2 (proj1 (impossible_angle_exact default 10%R 10%R 10%R 90%R 90%R 180%R H))).
  right. right. exists 1%Z. lra.
Qed.

(** ** The straight angle in binary64 *)

(** [UnitCell(10, 10, 10, 90, 90, 180)]: what CRYST1 gives with gamma 180.00. *)
Definition straight_cell (libm : Libm) : UnitCell float * option string :=
  (set (ops := Float64 libm) (default (ops := Float64 libm)) 10 10 10 90 90 180)%float.

(** [deg2rad * 180.0] is [pi()] itself, the double nearest to pi. *)
Lemma straight_angle_radians (libm : Libm) :
  PrimFloat.mul (deg2rad (ops := Float64 libm)) 180%float = B64.pi.
Proof. reflexivity. Qed.

(** The double [pi()] as a fraction. *)
Lemma pi_double_value : B64.to_R B64.pi = (7074237752028440 / 2251799813685248)%R.
Proof.
  unfold B64.to_R.
  replace (Prim2SF B64.pi) with (S754_finite false 7074237752028440 (-51))
    by (vm_compute; reflexivity).
  cbv iota. unfold powerRZ.
  replace (2 ^ Pos.to_nat 51)%R with 2251799813685248%R; [reflexivity|].
  replace (Pos.to_nat 51) with 51%nat by reflexivity. simpl. lra.
Qed.

(** It lies below the number pi, by eighteen terms of the series of
    2 atan(1/3) + atan(1/7). *)
Lemma pi_double_below_pi : (B64.to_R B64.pi < PI)%R.
Proof.
  rewrite pi_double_value.
  pose proof (PI_2_3_7_ineq 8) as [H _].
  unfold PI_2_3_7_tg, tg_alt, Ratan_seq in H.
  cbn [sum_f_R0 Nat.mul Nat.add] in H. simpl in H. lra.
Qed.

(** And by less than 1.3e-16, by seventeen terms. *)
Lemma pi_double_near_pi : (PI - B64.to_R B64.pi < 13 / 10 ^ 17)%R.
Proof.
  rewrite pi_double_value.
  pose proof (PI_2_3_7_ineq 8) as [_ H].
  unfold PI_2_3_7_tg, tg_alt, Ratan_seq in H.
  cbn [sum_f_R0 Nat.mul Nat.add] in H. simpl in H. lra.
Qed.

(** So the exact sine of [deg2rad * 180.0] is positive and tiny: not 0. *)
Lemma exact_sine_of_pi_double :
  (0 < Rtrigo_def.sin (B64.to_R B64.pi) < 13 / 10 ^ 17)%R.
Proof.
  pose proof pi_double_below_pi as Hlt. pose proof pi_double_near_pi as Hnear.
  split.
  - apply sin_gt_0; [rewrite pi_double_value; lra | exact Hlt].
  - rewrite <- sin_PI_x.
    apply Rlt_trans with (PI - B64.to_R B64.pi)%R; [apply sin_lt_x; lra | exact Hnear].
Qed.

(** C9 fails in binary64 at gamma = 180.  The sine is taken of the double
    [pi()], which lies below the number pi: the exact sine there is positive
    (about 1.22e-16), and with a C library that returns anything but 0 the
    test [sin_gamma == 0] is false.  [set(10, 10, 10, 90, 90, 180)] then
    throws nothing and stores the straight angle. *)
Theorem C9_straight_angle_accepted (libm : Libm) :
  PrimFloat.eqb (libm_sin libm B64.pi) 0%float = false ->
  some_sine_is_zero (ops := Float64 libm) 90%float 90%float 180%float = false
  /\ snd (straight_cell libm) = None
  /\ gamma (fst (straight_cell libm)) = 180%float.
Proof.
  intros Hsin.
  assert (some_sine_is_zero (ops := Float64 libm) 90%float 90%float 180%float = false) as Hz.
  { unfold some_sine_is_zero.
    change (snapped_sin (ops := Float64 libm) 90%float) with 1%float.
    change (snapped_sin (ops := Float64 libm) 180%float) with (libm_sin libm B64.pi).
    change (d_eqb (libm_sin libm B64.pi) (d_of_Z 0))
      with (PrimFloat.eqb (libm_sin libm B64.pi) 0%float).
    rewrite Hsin. reflexivity. }
  split; [exact Hz|].
  assert (snd (straight_cell libm) = None) as Hok
      by (unfold straight_cell; rewrite set_raises, Hz; reflexivity).
  split; [exact Hok|].
  destruct (set_parameters (ops := Float64 libm)
              (default (ops := Float64 libm)) (default (ops := Float64 libm))
              10%float 10%float 10%float 90%float 90%float 180%float eq_refl Hok)
    as (_ & _ & _ & _ & _ & Hgamma & _).
  exact Hgamma.
Qed.

(** The sine of the double [pi()] as a C library returns it: 1.2246467991473532e-16. *)
Definition sine_of_pi : float := 0x1.1a62633145c07p-53%float.

(** A C library as far as the straight angle needs it: its values at [pi()]. *)
Definition libm_at_pi : Libm :=
  {| libm_cos := fun _ => (-1)%float; libm_sin := fun _ => sine_of_pi |}.

(** C9's straight angle with that sine. *)
Lemma C9_straight_angle_accepted_witness :
  snd (straight_cell libm_at_pi) = None.
Proof.
  apply (proj1 (proj2 (C9_straight_angle_accepted libm_at_pi eq_refl))).
Defined.



(** The cell of C5's counterexample: an edge of length 0. *)
Definition flat_cell (libm : Libm) : UnitCell float * option string :=
  set (ops := Float64 libm) (default (ops := Float64 libm)) 0%float 10%float 10%float 90%float 90%float 90%float.


(** No angle but the right angle occurs: the C library is not consulted. *)
Lemma flat_cell_any_libm (libm : Libm) : flat_cell libm = flat_cell no_libm.
Proof. reflexivity. Qed.




End CellProofs.

(** ** The record dispatcher *)

(** *** Outcomes *)

Lemma bind_Ok {A B} (m : outcome A) (f : A -> outcome B) (b : B) :
  m ≫= f = Ok b -> exists a, m = Ok a /\ f a = Ok b.
Proof. destruct m; simpl; intros H; try discriminate. eauto. Qed.

Lemma scan_Ok {A} (o : option A) (x : A) : scan o = Ok x -> o = Some x.
Proof. destruct o; simpl; congruence. Qed.

Ltac inv_ok :=
  repeat match goal with
         | H : Ok _ = Ok _ |- _ => injection H as H; try subst
         | H : Raise _ = Ok _ |- _ => discriminate H
         | H : Fault = Ok _ |- _ => discriminate H
         | H : Reader.wrong _ _ = Ok _ |- _ => discriminate H
         | H : scan _ = Ok _ |- _ => apply scan_Ok in H
         | H : _ ≫= _ = Ok _ |- _ =>
             let x := fresh "x" in let Hx := fresh "Hx" in
             apply bind_Ok in H; destruct H as (x & Hx & H)
         end.

Module MatrixProofs.
Import pdb_impl pdb_num Reader.
Local Open Scope nat_scope.

Section with_double.
Context {D : Type} {ops : DoubleOps D}.

(** MTRIXn: after a third row the accumulator is the identity, set anew when
    the matrix was stored and equal to it, component by component, when not. *)
Lemma on_mtrix_resets (s s' : Reader.t D) (len : nat) (m : Mat4x4 D) :
  read_matrix (matrix s) (line s) len = Ok (3%Z, m) ->
  on_mtrix s len = Ok s' ->
  (mat4_eqb m mat4_identity = false
   /\ matrix s' = mat4_identity
   /\ exists serial given, Structure.ncs (st s') = Structure.ncs (st s) ++ [mkNcsOp serial given m])
  \/ (mat4_eqb m mat4_identity = true /\ matrix s' = m
      /\ Structure.ncs (st s') = Structure.ncs (st s)).
Proof.
  intros Hm H. unfold on_mtrix in H. rewrite Hm in H. simpl in H.
  destruct (mat4_eqb m mat4_identity) eqn:E; simpl in H.
  - right. inv_ok. auto.
  - left. inv_ok. simpl. eauto.
Qed.

(** SCALEn: after a third row the matrix went to the cell and the accumulator
    is the identity. *)
Lemma on_scale_resets (s s' : Reader.t D) (len : nat) (m : Mat4x4 D) :
  read_matrix (matrix s) (line s) len = Ok (3%Z, m) ->
  on_scale s len = Ok s' ->
  matrix s' = mat4_identity
  /\ Structure.cell (st s')
     = UnitCellM.set_matrices_from_fract (Structure.cell (st s)) (transform_of_mat4 m).
Proof.
  intros Hm H. unfold on_scale in H. rewrite Hm in H. simpl in H. inv_ok. auto.
Qed.

(** ORIGXn: after a third row the matrix went to [st.origx] and stays in the
    accumulator. *)
Lemma on_origx_keeps (s s' : Reader.t D) (len : nat) (m : Mat4x4 D) :
  read_matrix (matrix s) (line s) len = Ok (3%Z, m) ->
  on_origx s len = Ok s' ->
  matrix s' = m /\ Structure.origx (st s') = m.
Proof.
  intros Hm H. unfold on_origx in H. rewrite Hm in H. simpl in H. inv_ok. auto.
Qed.

End with_double.

Definition pdb_line (s : string) : list ascii := list_ascii_of_string s ++ [Char.LF].

(** An ORIGX triplet that scales z by 2 and shifts it by 5. *)
Definition origx_triplet : list (list ascii) :=
  [pdb_line "ORIGX1      1.000000  0.000000  0.000000        0.00000";
   pdb_line "ORIGX2      0.000000  1.000000  0.000000        0.00000";
   pdb_line "ORIGX3      0.000000  0.000000  2.000000        5.00000"].

Definition scaled_z : Mat4x4 float :=
  (mkMat4x4 (mkVec4 1 0 0 0) (mkVec4 0 1 0 0) (mkVec4 0 0 2 0) (mkVec4 0 0 5 1))%float.

(** C8 fails for ORIGX: after the third row of the triplet the matrix is in
    [st.origx] and the accumulator still holds it. *)
Theorem C8_origx_leaves_accumulator (libm : Libm) :
  exists s : Reader.t float,
    read_loop (ops := Float64 libm) (initial (ops := Float64 libm)) origx_triplet = Ok s
    /\ Structure.origx (st s) = scaled_z
    /\ matrix s = scaled_z
    /\ mat4_eqb (ops := Float64 libm) (matrix s) (mat4_identity (ops := Float64 libm)) = false.
Proof.
  eexists. split; [vm_compute; reflexivity|]. repeat split.
Qed.

End MatrixProofs.

Module ChainProofs.
Import pdb_impl pdb_num Reader.
Local Open Scope nat_scope.

Section with_double.
Context {D : Type} {ops : DoubleOps D}.

(** The lines the loop goes through one after the other: each is processed
    without an error and the loop goes on after it. *)
Fixpoint run_lines (s : Reader.t D) (input : list (list ascii)) : option (Reader.t D) :=
  match input with
  | [] => Some s
  | raw :: input' =>
      match process_line s raw with
      | Ok (true, s') => run_lines s' input'
      | _ => None
      end
  end.

(** The buffer while the record [raw] is processed. *)
Definition next_line (s : Reader.t D) (raw : list ascii) : list ascii :=
  fst (copy_line_from_stream (line s) raw).

(** *** The names in the tree *)

Definition chain_names (ch : Chain.t D) : string * string :=
  (Chain.name ch, Chain.auth_name ch).
Definition model_names (m : Model.t D) : string * list (string * string) :=
  (Model.name m, chain_names <$> Model.chains m).
Definition skeleton (x : Structure.t D) : list (string * list (string * string)) :=
  model_names <$> Structure.models x.

Definition ter_suffix (ht : list string) (model_name chain_name : string) : string :=
  if in_vector (model_name +:+ "/" +:+ chain_name) ht then "_H" else "".

(** The chain at [cp] has the names [name] and [auth_name] in a model called [model_name]. *)
Definition named (x : Structure.t D) (cp : nat * nat) (model_name name auth_name : string) : Prop :=
  exists chs, skeleton x !! fst cp = Some (model_name, chs)
              /\ chs !! snd cp = Some (name, auth_name).

(** The invariant of the loop: the current chain lies in the current model,
    the current residue in the current chain, and the chain's name is its
    [auth_name], with "_H" when that name was closed by a TER. *)
Definition chain_inv (s : Reader.t D) : Prop :=
  forall cp, chain s = Some cp ->
    model s = Some (fst cp)
    /\ (forall rp, resi s = Some rp -> fst rp = cp)
    /\ exists model_name auth_name,
         named (st s) cp model_name (auth_name +:+ ter_suffix (has_ter s) model_name auth_name)
               auth_name.

Lemma named_deref (x : Structure.t D) (cp : nat * nat) (ch : Chain.t D) mn n an :
  named x cp mn n an -> deref_chain x cp = Ok ch ->
  Chain.name ch = n /\ Chain.auth_name ch = an
  /\ exists m, deref_model x (fst cp) = Ok m /\ Model.name m = mn.
Proof.
  intros (chs & Hm & Hc) H. unfold deref_chain, deref_model in *. inv_ok.
  unfold skeleton in Hm. rewrite list_lookup_fmap, Hx in Hm. simpl in Hm.
  injection Hm as <- <-. rewrite list_lookup_fmap, H in Hc. simpl in Hc.
  injection Hc as <- <-. rewrite Hx. eauto.
Qed.

Lemma deref_named (x : Structure.t D) (cp : nat * nat) (m : Model.t D) (ch : Chain.t D) :
  deref_model x (fst cp) = Ok m -> Model.chains m !! snd cp = Some ch ->
  named x cp (Model.name m) (Chain.name ch) (Chain.auth_name ch).
Proof.
  intros Hm Hc. unfold deref_model in Hm. inv_ok.
  exists (chain_names <$> Model.chains m). unfold skeleton.
  rewrite !list_lookup_fmap, Hm, Hc. auto.
Qed.

(** Writing a chain that keeps its names, or a residue, leaves the names alone. *)
Lemma store_chain_skeleton (x x' : Structure.t D) (cp : nat * nat) (ch ch' : Chain.t D) :
  deref_chain x cp = Ok ch -> chain_names ch' = chain_names ch ->
  store_chain x cp ch' = Ok x' -> skeleton x' = skeleton x.
Proof.
  intros Hd Hn H. unfold store_chain, deref_chain, deref_model in *. inv_ok.
  rewrite Hx0 in Hx. injection Hx as ->.
  unfold skeleton. simpl. rewrite list_fmap_insert. apply list_insert_id.
  rewrite list_lookup_fmap, Hx0. simpl. unfold model_names. simpl. do 2 f_equal.
  rewrite list_fmap_insert. symmetry. apply list_insert_id.
  rewrite list_lookup_fmap, Hd. simpl. congruence.
Qed.

Lemma store_resi_skeleton (x x' : Structure.t D) (rp : nat * nat * nat) (r : Residue.t D) :
  store_resi x rp r = Ok x' -> skeleton x' = skeleton x.
Proof.
  intros H. unfold store_resi in H. inv_ok.
  eapply store_chain_skeleton; [exact Hx| |exact H]. reflexivity.
Qed.

Lemma store_resi_deref (x x' : Structure.t D) (rp : nat * nat * nat) (r0 r : Residue.t D) :
  deref_resi x rp = Ok r0 -> store_resi x rp r = Ok x' -> deref_resi x' rp = Ok r.
Proof.
  intros Hd H. unfold store_resi, store_chain, deref_resi, deref_chain, deref_model in *.
  inv_ok. simpl.
  repeat match goal with
         | H1 : ?a = Some _, H2 : ?a = Some _ |- _ => rewrite H1 in H2; injection H2 as ->
         end.
  rewrite list_lookup_insert_eq by (eapply lookup_lt_Some; eassumption). simpl.
  rewrite list_lookup_insert_eq by (eapply lookup_lt_Some; eassumption). simpl.
  rewrite list_lookup_insert_eq by (eapply lookup_lt_Some; eassumption). reflexivity.
Qed.

(** *** What the handlers leave alone *)

(** [s'] has the names, the closed chains and the three pointers of [s]. *)
Definition same_chains (s s' : Reader.t D) : Prop :=
  skeleton (st s') = skeleton (st s) /\ has_ter s' = has_ter s
  /\ model s' = model s /\ chain s' = chain s /\ resi s' = resi s.

Lemma same_chains_refl (s : Reader.t D) : same_chains s s.
Proof. repeat split. Qed.

Lemma same_chains_trans (s1 s2 s3 : Reader.t D) :
  same_chains s1 s2 -> same_chains s2 s3 -> same_chains s1 s3.
Proof. unfold same_chains. intros (-> & -> & -> & -> & ->) (-> & -> & -> & -> & ->). auto. Qed.

Lemma same_chains_inv (s s' : Reader.t D) :
  same_chains s s' -> chain_inv s -> chain_inv s'.
Proof.
  intros (Hk & Ht & Hm & Hc & Hr) Hinv cp Hcp. rewrite Hc in Hcp.
  destruct (Hinv cp Hcp) as (H1 & H2 & mn & an & H3).
  rewrite Hm, Hr, Ht. split; [assumption|]. split; [assumption|].
  exists mn, an. unfold named in *. rewrite Hk. exact H3.
Qed.

Lemma no_chain_inv (s : Reader.t D) : chain s = None -> chain_inv s.
Proof. intros H cp Hcp. congruence. Qed.

Lemma on_seqres_same (s s' : Reader.t D) : on_seqres s = Ok s' -> same_chains s s'.
Proof.
  unfold on_seqres. intros H. inv_ok.
  destruct (EntitySetter.set_for_chain _ _ _ _) as [[ent es] entities].
  inv_ok. repeat split.
Qed.

Lemma on_cryst1_same (s s' : Reader.t D) (len : nat) : on_cryst1 s len = Ok s' -> same_chains s s'.
Proof.
  unfold on_cryst1. intros H. inv_ok.
  assert (same_chains s x) as H1.
  { destruct (54 <? len)%nat; inv_ok; [|apply same_chains_refl].
    destruct (UnitCellM.set _ _ _ _ _ _ _) as [u [msg|]]; inv_ok. repeat split. }
  eapply same_chains_trans; [exact H1|].
  destruct (56 <? len)%nat; inv_ok; repeat split.
Qed.

Lemma on_mtrix_same (s s' : Reader.t D) (len : nat) : on_mtrix s len = Ok s' -> same_chains s s'.
Proof.
  unfold on_mtrix. intros H. inv_ok. destruct x as [n m]. simpl in H.
  destruct (_ && _); inv_ok; repeat split.
Qed.

Lemma on_scale_same (s s' : Reader.t D) (len : nat) : on_scale s len = Ok s' -> same_chains s s'.
Proof.
  unfold on_scale. intros H. inv_ok. destruct x as [n m]. simpl in H.
  destruct (_ =? _)%Z; inv_ok; repeat split.
Qed.

Lemma on_origx_same (s s' : Reader.t D) (len : nat) : on_origx s len = Ok s' -> same_chains s s'.
Proof.
  unfold on_origx. intros H. inv_ok. destruct x as [n m]. simpl in H.
  destruct (_ =? _)%Z; inv_ok; repeat split.
Qed.

Lemma on_conn_same (s s' : Reader.t D) (n : nat) : on_conn s n = Ok s' -> same_chains s s'.
Proof. unfold on_conn. intros H. destruct (_ <? _)%nat; inv_ok; repeat split. Qed.

Lemma on_anisou_same (s s' : Reader.t D) : on_anisou s = Ok s' -> same_chains s s'.
Proof.
  unfold on_anisou. intros H.
  destruct (model s); [|discriminate]. destruct (chain s); [|discriminate].
  destruct (resi s) as [rp|]; [|discriminate]. inv_ok.
  destruct (last _); [|discriminate]. destruct (negb _); [discriminate|]. inv_ok.
  match goal with H : store_resi _ _ _ = Ok _ |- _ => apply store_resi_skeleton in H; rename H into Hk end.
  repeat split. exact Hk.
Qed.

(** *** MODEL, ENDMDL and TER leave no current chain *)

Lemma on_model_chain (s s' : Reader.t D) :
  on_model s = Ok s' -> chain s' = None /\ has_ter s' = has_ter s.
Proof.
  unfold on_model. intros H.
  destruct (model s), (chain s); try discriminate;
    (inv_ok; simpl in H;
     destruct (Structure.find_or_add_model _ _) as [ms mi]; inv_ok;
     destruct (Model.chains _); inv_ok; auto).
Qed.

Lemma on_endmdl_chain (s s' : Reader.t D) :
  on_endmdl s = Ok s' -> chain s' = None /\ has_ter s' = has_ter s.
Proof. unfold on_endmdl. intros H. inv_ok. auto. Qed.

(** TER closes the name of the current chain in the current model. *)
Lemma on_ter_chain (s s' : Reader.t D) :
  on_ter s = Ok s' ->
  chain s' = None
  /\ match chain s with
     | Some cp => exists mi m ch,
                    model s = Some mi /\ deref_model (st s) mi = Ok m
                    /\ deref_chain (st s) cp = Ok ch
                    /\ has_ter s' = has_ter s ++ [Model.name m +:+ "/" +:+ Chain.name ch]
     | None => has_ter s' = has_ter s
     end.
Proof.
  unfold on_ter. intros H. inv_ok. split; [reflexivity|].
  destruct (chain s) as [cp|]; inv_ok; [|reflexivity].
  eexists _, _, _. repeat (split; [eassumption|]). reflexivity.
Qed.

Lemma in_vector_app (x : string) (v w : list string) :
  in_vector x (v ++ w) = in_vector x v || in_vector x w.
Proof. unfold in_vector. apply existsb_app. Qed.

Lemma in_vector_self (x : string) : in_vector x [x] = true.
Proof. unfold in_vector. simpl. rewrite String.eqb_refl. reflexivity. Qed.

(** *** ATOM and HETATM *)

Lemma find_index_Some {A} (f : A -> bool) (l : list A) (i : nat) :
  Chain.find_index f l = Some i -> exists x, l !! i = Some x /\ f x = true.
Proof.
  revert i. induction l as [|x l IH]; intros i; simpl; [discriminate|].
  destruct (f x) eqn:E.
  - intros [= <-]. eauto.
  - destruct (Chain.find_index f l) as [j|]; simpl; [|discriminate].
    intros [= <-]. destruct (IH j eq_refl) as (y & Hy & Hf). eauto.
Qed.

Lemma find_or_add_chain_spec (m m' : Model.t D) (n : string) (ci : nat) :
  Model.find_or_add_chain m n = (m', ci) ->
  Model.name m' = Model.name m
  /\ exists ch, Model.chains m' !! ci = Some ch /\ Chain.name ch = n.
Proof.
  unfold Model.find_or_add_chain.
  destruct (Chain.find_index _ _) as [i|] eqn:E.
  - intros [= <- <-]. split; [reflexivity|].
    apply find_index_Some in E. destruct E as (ch & Hc & Hn).
    apply String.eqb_eq in Hn. eauto.
  - intros [= <- <-]. split; [reflexivity|]. simpl.
    eexists. split; [apply list_lookup_middle; reflexivity|]. reflexivity.
Qed.

(** The state after [select_chain]: the current chain has the name read from
    the line as its [auth_name], and "_H" after it in its name when the name
    was closed in the current model. *)
Definition at_chain (s s1 : Reader.t D) (chain_name : string) : Prop :=
  has_ter s1 = has_ter s /\ model s1 = model s /\ line s1 = line s
  /\ exists cp model_name,
       chain s1 = Some cp /\ model s1 = Some (fst cp)
       /\ (forall rp, resi s1 = Some rp -> fst rp = cp)
       /\ named (st s1) cp model_name
                (chain_name +:+ ter_suffix (has_ter s) model_name chain_name) chain_name.

Ltac same_lookup :=
  repeat match goal with
         | H1 : ?a = Some _, H2 : ?a = Some _ |- _ => rewrite H1 in H2; injection H2 as <-
         | H1 : ?a = Ok _, H2 : ?a = Ok _ |- _ => rewrite H1 in H2; injection H2 as <-
         end.

Lemma select_chain_spec (s s1 : Reader.t D) (chain_name : string) :
  chain_inv s -> select_chain s chain_name = Ok s1 -> at_chain s s1 chain_name.
Proof.
  intros Hinv H. unfold select_chain in H.
  apply bind_Ok in H. destruct H as (differs & Hd & H). destruct differs.
  - (* another chain *)
    destruct (model s) as [mi|] eqn:Em; [|discriminate].
    apply bind_Ok in H. destruct H as (m & Hm & H).
    destruct (Model.find_or_add_chain _ _) as [m' ci] eqn:Ef.
    apply bind_Ok in H. destruct H as (ch0 & Hch0 & H). apply scan_Ok in Hch0.
    injection H as <-.
    apply find_or_add_chain_spec in Ef. destruct Ef as (Hmn & ch & Hch & Hn).
    same_lookup.
    repeat split; simpl; try assumption.
    exists (mi, ci), (Model.name m). repeat split; simpl.
    + exact Em.
    + intros rp [=].
    + unfold deref_model in Hm. apply scan_Ok in Hm.
      eexists. unfold skeleton. simpl. split.
      * rewrite list_lookup_fmap, list_lookup_insert_eq by (eapply lookup_lt_Some; eassumption).
        simpl. unfold model_names. simpl. rewrite Hmn. reflexivity.
      * rewrite list_lookup_fmap, list_lookup_insert_eq by (eapply lookup_lt_Some; eassumption).
        simpl. unfold chain_names. simpl. rewrite Hn. reflexivity.
  - (* the current chain *)
    injection H as <-. destruct (chain s) as [cp|] eqn:Ec; [|discriminate].
    apply bind_Ok in Hd. destruct Hd as (ch & Hch & Hd). injection Hd as Hd.
    apply negb_false_iff, String.eqb_eq in Hd. subst chain_name.
    destruct (Hinv cp Ec) as (Hm & Hr & mn & an & Hnamed).
    destruct (named_deref _ _ _ _ _ _ Hnamed Hch) as (_ & <- & _).
    repeat split. exists cp, mn. auto.
Qed.

Lemma find_or_add_residue_names (ch ch' : Chain.t D) (rid : ResidueId.t) (ri : nat) :
  Chain.find_or_add_residue ch rid = (ch', ri) -> chain_names ch' = chain_names ch.
Proof.
  unfold Chain.find_or_add_residue. destruct (Chain.find_index _ _); intros [= <- <-]; reflexivity.
Qed.

Lemma select_residue_spec (s1 s2 : Reader.t D) (rid : ResidueId.t) :
  select_residue s1 rid = Ok s2 ->
  skeleton (st s2) = skeleton (st s1) /\ has_ter s2 = has_ter s1 /\ model s2 = model s1
  /\ chain s2 = chain s1 /\ line s2 = line s1
  /\ exists cp, chain s1 = Some cp
                /\ ((forall rp, resi s1 = Some rp -> fst rp = cp) ->
                    exists rp, resi s2 = Some rp /\ fst rp = cp).
Proof.
  intros H. unfold select_residue in H.
  apply bind_Ok in H. destruct H as (cp & Hcp & H). apply scan_Ok in Hcp.
  apply bind_Ok in H. destruct H as (differs & Hd & H). destruct differs.
  - apply bind_Ok in H. destruct H as (ch & Hch & H).
    destruct (Chain.find_or_add_residue ch rid) as [ch' ri] eqn:Ef.
    apply bind_Ok in H. destruct H as (x & Hx & H). injection H as <-.
    apply find_or_add_residue_names in Ef.
    pose proof (store_chain_skeleton _ _ _ _ _ Hch Ef Hx) as Hk.
    simpl. repeat split; try assumption.
    exists cp. split; [assumption|]. intros _. exists (cp, ri). auto.
  - injection H as <-. repeat split.
    exists cp. split; [assumption|]. intros Hr.
    destruct (resi s1) as [rp|]; [|discriminate]. exists rp. auto.
Qed.

(** What an ATOM or HETATM record does: the atom becomes the last atom of the
    current residue, which lies in the current chain. *)
Definition atom_added (s s3 : Reader.t D) (len : nat) (chain_name : string) : Prop :=
  has_ter s3 = has_ter s /\ model s3 = model s
  /\ exists cp rp model_name r atom,
       chain s3 = Some cp /\ model s3 = Some (fst cp)
       /\ resi s3 = Some rp /\ fst rp = cp
       /\ named (st s3) cp model_name
                (chain_name +:+ ter_suffix (has_ter s) model_name chain_name) chain_name
       /\ deref_resi (st s3) rp = Ok r
       /\ last (Residue.atoms r) = Some atom
       /\ parse_atom (line s) len = Ok atom.

Lemma on_atom_spec (s s3 : Reader.t D) (len : nat) :
  chain_inv s -> on_atom s len = Ok s3 ->
  exists chain_name, read_string (drop 20 (line s)) 2 = Some chain_name
                     /\ atom_added s s3 len chain_name.
Proof.
  intros Hinv H. unfold on_atom in H. destruct (len <? 77)%nat; [discriminate|].
  apply bind_Ok in H. destruct H as (chain_name & Hn & H). apply scan_Ok in Hn.
  apply bind_Ok in H. destruct H as (s1 & Hs1 & H).
  apply bind_Ok in H. destruct H as (snic & _ & H).
  apply bind_Ok in H. destruct H as (res_name & _ & H).
  apply bind_Ok in H. destruct H as (segment & _ & H).
  apply bind_Ok in H. destruct H as (s2 & Hs2 & H).
  apply bind_Ok in H. destruct H as (atom & Hatom & H).
  apply bind_Ok in H. destruct H as (rp & Hrp & H). apply scan_Ok in Hrp.
  apply bind_Ok in H. destruct H as (r & Hr & H).
  apply bind_Ok in H. destruct H as (x & Hx & H). injection H as <-.
  exists chain_name. split; [assumption|].
  apply (select_chain_spec _ _ _ Hinv) in Hs1.
  destruct Hs1 as (Ht1 & Hm1 & Hl1 & cp & mn & Hc1 & Hmc1 & Hr1 & Hnamed).
  apply select_residue_spec in Hs2.
  destruct Hs2 as (Hk2 & Ht2 & Hm2 & Hc2 & Hl2 & cp' & Hcp' & Hr2).
  rewrite Hc1 in Hcp'. injection Hcp' as <-.
  destruct (Hr2 Hr1) as (rp' & Hrp' & Hfst). rewrite Hrp in Hrp'. injection Hrp' as <-.
  pose proof (store_resi_skeleton _ _ _ _ Hx) as Hk3.
  pose proof (store_resi_deref _ _ _ _ _ Hr Hx) as Hd3.
  unfold atom_added. simpl.
  split; [congruence|]. split; [congruence|].
  exists cp, rp, mn, (Residue.mk (Residue.rid r) (Residue.atoms r ++ [atom])), atom.
  split; [congruence|]. split; [congruence|]. split; [assumption|]. split; [assumption|].
  split. { unfold named in *. rewrite Hk3, Hk2. exact Hnamed. }
  split; [assumption|]. split; [simpl; apply last_snoc|]. congruence.
Qed.

Lemma atom_added_inv (s s3 : Reader.t D) (len : nat) (chain_name : string) :
  atom_added s s3 len chain_name -> chain_inv s3.
Proof.
  intros (Ht & Hm & cp & rp & mn & r & atom & Hc & Hmc & Hr & Hfst & Hnamed & _) cp' Hcp'.
  rewrite Hc in Hcp'. injection Hcp' as <-.
  split; [assumption|]. split.
  - intros rp' Hrp'. rewrite Hr in Hrp'. injection Hrp' as <-. assumption.
  - exists mn, chain_name. rewrite Ht. exact Hnamed.
Qed.

(** *** One turn of the loop *)

Definition keeps_closed (s s' : Reader.t D) : Prop :=
  forall x, in_vector x (has_ter s) = true -> in_vector x (has_ter s') = true.

Lemma same_chains_keeps_closed (s s' : Reader.t D) : same_chains s s' -> keeps_closed s s'.
Proof. intros (_ & Ht & _) x. rewrite Ht. auto. Qed.

(** The state in which the handlers run. *)
Definition at_line (s : Reader.t D) (raw : list ascii) : Reader.t D :=
  with_line s (next_line s raw) (line_num s + 1)%Z.

Lemma process_line_handler (s s' : Reader.t D) (raw : list ascii) :
  process_line s raw = Ok (true, s') ->
  exists k, record_type (next_line s raw) = Ok k
            /\ match k with
               | ATOM => on_atom (at_line s raw) (snd (copy_line_from_stream (line s) raw))
               | ANISOU => on_anisou (at_line s raw)
               | SEQRES => on_seqres (at_line s raw)
               | CRYST1 => on_cryst1 (at_line s raw) (snd (copy_line_from_stream (line s) raw))
               | MTRIXn => on_mtrix (at_line s raw) (snd (copy_line_from_stream (line s) raw))
               | MODEL => on_model (at_line s raw)
               | ENDMDL => on_endmdl (at_line s raw)
               | TER => on_ter (at_line s raw)
               | SCALEn => on_scale (at_line s raw) (snd (copy_line_from_stream (line s) raw))
               | ORIGX => on_origx (at_line s raw) (snd (copy_line_from_stream (line s) raw))
               | SSBOND => on_conn (at_line s raw) 34
               | CISPEP => on_conn (at_line s raw) 21
               | END => Raise ""
               | _ => Ok (at_line s raw)
               end = Ok s'.
Proof.
  unfold process_line, at_line, next_line.
  destruct (copy_line_from_stream (line s) raw) as [l len]. simpl.
  destruct (len =? 0)%nat; [discriminate|]. intros H.
  apply bind_Ok in H. destruct H as (k & Hk & H). exists k. split; [assumption|].
  destruct k; try (apply bind_Ok in H; destruct H as (s0 & Hs0 & H));
    try (injection H as <-); try assumption; try reflexivity; discriminate.
Qed.

Lemma process_line_inv (s s' : Reader.t D) (raw : list ascii) :
  chain_inv s -> process_line s raw = Ok (true, s') ->
  chain_inv s' /\ keeps_closed s s'.
Proof.
  intros Hinv H. apply process_line_handler in H. destruct H as (k & _ & H).
  assert (same_chains s (at_line s raw)) as H0 by (repeat split).
  pose proof (same_chains_inv _ _ H0 Hinv) as Hinv0.
  assert (forall s1, same_chains (at_line s raw) s1 -> chain_inv s1 /\ keeps_closed s s1) as Hsame.
  { intros s1 H1. split; [eapply same_chains_inv; eassumption|].
    apply same_chains_keeps_closed. exact (same_chains_trans _ _ _ H0 H1). }
  destruct k; try (injection H as <-; apply Hsame, same_chains_refl).
  - destruct (on_atom_spec _ _ _ Hinv0 H) as (n & _ & Ha). split.
    + eapply atom_added_inv; eassumption.
    + destruct Ha as (Ht & _). intros x. rewrite Ht. auto.
  - apply Hsame. eapply on_anisou_same; eassumption.
  - apply Hsame. eapply on_seqres_same; eassumption.
  - apply Hsame. eapply on_cryst1_same; eassumption.
  - apply Hsame. eapply on_mtrix_same; eassumption.
  - apply on_model_chain in H. destruct H as (Hc & Ht). split; [apply no_chain_inv; assumption|].
    intros x. rewrite Ht. auto.
  - apply on_endmdl_chain in H. destruct H as (Hc & Ht). split; [apply no_chain_inv; assumption|].
    intros x. rewrite Ht. auto.
  - apply on_ter_chain in H. destruct H as (Hc & Ht). split; [apply no_chain_inv; assumption|].
    intros x Hx. destruct (chain (at_line s raw)).
    + destruct Ht as (mi & m & ch & _ & _ & _ & ->). rewrite in_vector_app.
      change (has_ter (at_line s raw)) with (has_ter s). rewrite Hx. reflexivity.
    + rewrite Ht. exact Hx.
  - apply Hsame. eapply on_scale_same; eassumption.
  - apply Hsame. eapply on_origx_same; eassumption.
  - apply Hsame. eapply on_conn_same; eassumption.
  - apply Hsame. eapply on_conn_same; eassumption.
  - discriminate.
Qed.

Lemma initial_inv : chain_inv (initial (D := D)).
Proof. apply no_chain_inv. reflexivity. Qed.

Lemma run_lines_inv (input : list (list ascii)) (s s' : Reader.t D) :
  chain_inv s -> run_lines s input = Some s' -> chain_inv s' /\ keeps_closed s s'.
Proof.
  revert s. induction input as [|raw input IH]; intros s Hinv; simpl.
  - intros [= <-]. split; [assumption|]. intros x. auto.
  - destruct (process_line s raw) as [[[] s1]| |] eqn:E; try discriminate.
    intros H. destruct (process_line_inv _ _ _ Hinv E) as (Hinv1 & Hk1).
    destruct (IH _ Hinv1 H) as (Hinv' & Hk'). split; [assumption|].
    intros x Hx. auto.
Qed.

(** The lines that [run_lines] goes through are the lines [read_loop] goes through. *)
Lemma run_lines_read_loop (input rest : list (list ascii)) (s s' : Reader.t D) :
  run_lines s input = Some s' -> read_loop s (input ++ rest) = read_loop s' rest.
Proof.
  revert s. induction input as [|raw input IH]; intros s; simpl.
  - intros [= <-]. reflexivity.
  - destruct (process_line s raw) as [[[] s1]| |] eqn:E; try discriminate.
    simpl. apply IH.
Qed.

End with_double.

(** C1: once a TER record has been processed while the chain named X was
    current in the model named M, every later ATOM or HETATM record that is
    processed in model M and whose chain-name columns read X puts its atom
    into a chain whose name is X followed by "_H" and whose auth_name is X:
    the atom is the last atom of the current residue, and that residue lies
    in the current chain. *)
Theorem C1_ter_isolation {D : Type} {ops : DoubleOps D}
        (before between : list (list ascii)) (ter_raw atom_raw : list ascii)
        (s0 s1 s2 s3 : Reader.t D) (X M : string)
        (cp0 : nat * nat) (ch0 : Chain.t D) (mi0 mi3 : nat) (m0 m3 : Model.t D) :
  run_lines initial before = Some s0 ->
  record_type (next_line s0 ter_raw) = Ok TER ->
  process_line s0 ter_raw = Ok (true, s1) ->
  chain s0 = Some cp0 -> deref_chain (st s0) cp0 = Ok ch0 -> Chain.name ch0 = X ->
  model s0 = Some mi0 -> deref_model (st s0) mi0 = Ok m0 -> Model.name m0 = M ->
  run_lines s1 between = Some s2 ->
  record_type (next_line s2 atom_raw) = Ok ATOM ->
  read_string (drop 20 (next_line s2 atom_raw)) 2 = Some X ->
  process_line s2 atom_raw = Ok (true, s3) ->
  model s3 = Some mi3 -> deref_model (st s3) mi3 = Ok m3 -> Model.name m3 = M ->
  exists (cp : nat * nat) (ri : nat) (ch : Chain.t D) (r : Residue.t D) (atom : Atom.t D),
    chain s3 = Some cp /\ resi s3 = Some (cp, ri)
    /\ deref_chain (st s3) cp = Ok ch
    /\ deref_resi (st s3) (cp, ri) = Ok r
    /\ last (Residue.atoms r) = Some atom
    /\ parse_atom (next_line s2 atom_raw) (snd (copy_line_from_stream (line s2) atom_raw))
       = Ok atom
    /\ Chain.name ch = X +:+ "_H"
    /\ Chain.auth_name ch = X.
Proof.
  intros Hrun0 Hter Hs1 Hc0 Hch0 HX Hm0 Hdm0 HM Hrun2 Hatom Hname Hs3 Hm3 Hdm3 HM3.
  destruct (run_lines_inv _ _ _ initial_inv Hrun0) as (Hinv0 & _).
  (* the TER record closes M/X *)
  assert (in_vector (M +:+ "/" +:+ X) (has_ter s1) = true) as Hclosed1.
  { destruct (process_line_handler _ _ _ Hs1) as (k & Hk & H).
    rewrite Hter in Hk. injection Hk as <-.
    apply on_ter_chain in H. destruct H as (_ & H).
    change (chain (at_line s0 ter_raw)) with (chain s0) in H. rewrite Hc0 in H.
    destruct H as (mi & m & ch & Hmi & Hdm & Hdc & ->).
    change (model (at_line s0 ter_raw)) with (model s0) in Hmi.
    change (st (at_line s0 ter_raw)) with (st s0) in Hdm, Hdc.
    rewrite Hm0 in Hmi. injection Hmi as <-.
    rewrite Hdm0 in Hdm. injection Hdm as <-. rewrite Hch0 in Hdc. injection Hdc as <-.
    rewrite in_vector_app, HM, HX, in_vector_self. apply orb_true_r. }
  destruct (process_line_inv _ _ _ Hinv0 Hs1) as (Hinv1 & _).
  destruct (run_lines_inv _ _ _ Hinv1 Hrun2) as (Hinv2 & Hkeep2).
  pose proof (Hkeep2 _ Hclosed1) as Hclosed2.
  (* the ATOM record *)
  destruct (process_line_handler _ _ _ Hs3) as (k & Hk & H).
  rewrite Hatom in Hk. injection Hk as <-.
  assert (chain_inv (at_line s2 atom_raw)) as Hinv2'
      by (apply (same_chains_inv s2); [repeat split|assumption]).
  destruct (on_atom_spec _ _ _ Hinv2' H) as (n & Hn & Ha).
  change (line (at_line s2 atom_raw)) with (next_line s2 atom_raw) in Hn.
  rewrite Hname in Hn. injection Hn as <-.
  destruct Ha as (_ & _ & cp & rp & mn & r & atom & Hc & Hmc & Hr & Hfst & Hnamed & Hdr & Hlast & Hparse).
  destruct rp as [cp' ri]. simpl in Hfst. subst cp'.
  assert (exists ch, deref_chain (st s3) cp = Ok ch) as (ch & Hdc).
  { unfold deref_resi in Hdr. apply bind_Ok in Hdr. destruct Hdr as (ch & Hdc & _). eauto. }
  destruct (named_deref _ _ _ _ _ _ Hnamed Hdc) as (Hcn & Hca & m & Hdm & Hmn).
  rewrite Hm3 in Hmc. injection Hmc as ->.
  rewrite Hdm3 in Hdm. injection Hdm as <-.
  exists cp, ri, ch, r, atom. repeat (split; [assumption|]).
  split; [|assumption].
  rewrite Hcn. f_equal. unfold ter_suffix.
  change (has_ter (at_line s2 atom_raw)) with (has_ter s2).
  rewrite <- Hmn, HM3, Hclosed2. reflexivity.
Qed.

Definition state_after (input : list (list ascii)) : Reader.t float :=
  match run_lines (ops := Float64 no_libm) (initial (ops := Float64 no_libm)) input with
  | Some s => s
  | None => initial (ops := Float64 no_libm)
  end.

Definition atom_of_A : list ascii :=
  MatrixProofs.pdb_line "ATOM      1  N   ALA A   1      11.104   6.134  -6.504  1.00  0.00           N  ".
Definition ter_record : list ascii := MatrixProofs.pdb_line "TER   ".
Definition hetatm_of_A : list ascii :=
  MatrixProofs.pdb_line "HETATM    3 ZN    ZN A 101       1.000   2.000   3.000  1.00  0.00          ZN+2".

(** C1 on an ATOM of chain A, a TER and a HETATM of chain A: the HETATM goes
    to the chain A_H. *)
Lemma C1_ter_isolation_witness :
  exists (cp : nat * nat) (ri : nat) (ch : Chain.t float) (r : Residue.t float) (atom : Atom.t float),
    chain (state_after [atom_of_A; ter_record; hetatm_of_A]) = Some cp
    /\ resi (state_after [atom_of_A; ter_record; hetatm_of_A]) = Some (cp, ri)
    /\ deref_chain (st (state_after [atom_of_A; ter_record; hetatm_of_A])) cp = Ok ch
    /\ deref_resi (st (state_after [atom_of_A; ter_record; hetatm_of_A])) (cp, ri) = Ok r
    /\ last (Residue.atoms r) = Some atom
    /\ parse_atom (ops := Float64 no_libm)
                  (next_line (state_after [atom_of_A; ter_record]) hetatm_of_A)
                  (snd (copy_line_from_stream (line (state_after [atom_of_A; ter_record]))
                                              hetatm_of_A))
       = Ok atom
    /\ Chain.name ch = "A" +:+ "_H"
    /\ Chain.auth_name ch = "A".
Proof.
  apply (C1_ter_isolation (ops := Float64 no_libm)
           [atom_of_A] [] ter_record hetatm_of_A
           (state_after [atom_of_A]) (state_after [atom_of_A; ter_record])
           (state_after [atom_of_A; ter_record])
           (state_after [atom_of_A; ter_record; hetatm_of_A])
           "A" "1" (0, 0)%nat
           (match deref_chain (st (state_after [atom_of_A])) (0, 0)%nat with
            | Ok ch => ch | _ => Chain.mk "" "" None [] end)
           0%nat 0%nat
           (match deref_model (st (state_after [atom_of_A])) 0%nat with
            | Ok m => m | _ => Model.mk "" [] end)
           (match deref_model (st (state_after [atom_of_A; ter_record; hetatm_of_A])) 0%nat with
            | Ok m => m | _ => Model.mk "" [] end));
    vm_compute; reflexivity.
Defined.

End ChainProofs.

Module EntityProofs.
Import pdb_impl pdb_num EntitySetter.
Local Open Scope nat_scope.

(** *** [same_entity] is equality of non-empty sequences *)

Lemma same_mons_eq (a b : list string) :
  length a = length b -> same_mons a b = true <-> a = b.
Proof.
  revert b. induction a as [|x a IH]; intros [|y b] Hl; simpl in *; try discriminate.
  - tauto.
  - rewrite andb_true_iff, String.eqb_eq, IH by lia. split; [intros [-> ->]; reflexivity|].
    intros [= -> ->]. auto.
Qed.

Lemma same_entity_spec (a b : list string) :
  same_entity a b = true <-> a <> [] /\ a = b.
Proof.
  unfold same_entity. destruct a as [|x a].
  { simpl. split; [discriminate|]. intros [H _]. destruct H. reflexivity. }
  destruct (Nat.eqb_spec (length (x :: a)) (length b)) as [Hl|Hl].
  - cbn [orb negb]. rewrite (same_mons_eq _ _ Hl). split; [|tauto].
    intros H. split; [discriminate|assumption].
  - cbn [orb negb]. split; [discriminate|]. intros [_ <-]. destruct Hl. reflexivity.
Qed.

Lemma same_entity_sym (a b : list string) : same_entity a b = same_entity b a.
Proof.
  apply eq_true_iff_eq. rewrite !same_entity_spec. split; intros [H ->]; auto.
Qed.

(** *** The inner loop of [finalize] *)

Abbreviation entity := (nat * Entity.t)%type.

Definition addrs (ents : list entity) : list nat := map fst ents.

Definition same_seq (j i : entity) : bool :=
  same_entity (Entity.sequence (snd j)) (Entity.sequence (snd i)).

(** Where a chain that pointed to [p] points after the inner loop for [i]. *)
Definition redirected (i : entity) (rest : list entity) (p : nat) : nat :=
  if existsb (fun j => (fst j =? p)%nat && same_seq j i) rest then fst i else p.

Lemma merge_into_entities (i : entity) (rest : list entity) (m : gmap string nat) :
  fst (merge_into i rest m) = List.filter (fun j => negb (same_seq j i)) rest.
Proof.
  revert m. induction rest as [|j rest IH]; intros m; simpl; [reflexivity|].
  unfold same_seq at 1.
  destruct (same_entity (Entity.sequence (snd j)) (Entity.sequence (snd i))); simpl.
  - apply IH.
  - rewrite <- (IH m). destruct (merge_into i rest m). reflexivity.
Qed.

Lemma merge_into_map (i : entity) (rest : list entity) (m : gmap string nat) (n : string) :
  snd (merge_into i rest m) !! n = redirected i rest <$> (m !! n).
Proof.
  revert m. induction rest as [|j rest IH]; intros m; simpl.
  - unfold redirected. simpl. destruct (m !! n); reflexivity.
  - destruct (same_entity _ _) eqn:E.
    + rewrite IH. unfold redirect. rewrite lookup_fmap.
      destruct (m !! n) as [p|]; simpl; [|reflexivity]. f_equal.
      unfold redirected. simpl. unfold same_seq at 2. rewrite E.
      rewrite (Nat.eqb_sym (fst j) p).
      destruct (Nat.eqb_spec p (fst j)) as [->|Hne]; simpl; [|reflexivity].
      destruct (existsb _ _); reflexivity.
    + specialize (IH m). destruct (merge_into i rest m) as [kept m']. simpl in *.
      rewrite IH. destruct (m !! n) as [p|]; simpl; [|reflexivity]. f_equal.
      unfold redirected. simpl. unfold same_seq at 2. rewrite E, andb_false_r. reflexivity.
Qed.

(** *** The representative of an entity *)

(** The sequence of the entity at address [p]. *)
Definition seq_at (ents : list entity) (p : nat) : option (list string) :=
  (fun pe => Entity.sequence (snd pe)) <$> List.find (fun pe => (fst pe =? p)%nat) ents.

(** The address of the first entity whose sequence is [q], a non-empty one. *)
Definition first_with (q : list string) (ents : list entity) : option nat :=
  fst <$> List.find (fun pe => same_entity (Entity.sequence (snd pe)) q) ents.

(** The entity that stands for the one at [p] after [finalize]: the first of
    the entities with its sequence when that is not empty, and itself when it
    is. *)
Definition rep (ents : list entity) (p : nat) : nat :=
  match seq_at ents p with
  | Some q => default p (first_with q ents)
  | None => p
  end.

Lemma find_None_elem {A} (f : A -> bool) (l : list A) :
  List.find f l = None <-> forall x, x ∈ l -> f x = false.
Proof.
  induction l as [|y l IH]; simpl.
  - split; [intros _ x Hx; inversion Hx|reflexivity].
  - destruct (f y) eqn:E.
    + split; [discriminate|]. intros H. rewrite (H y) in E by left. discriminate.
    + rewrite IH. split.
      * intros H x Hx. apply elem_of_cons in Hx. destruct Hx as [->|Hx]; auto.
      * intros H x Hx. apply H. right. exact Hx.
Qed.

Lemma find_Some_elem {A} (f : A -> bool) (l : list A) (x : A) :
  List.find f l = Some x -> x ∈ l /\ f x = true.
Proof.
  induction l as [|y l IH]; simpl; [discriminate|].
  destruct (f y) eqn:E.
  - intros [= <-]. split; [left|assumption].
  - intros H. destruct (IH H). split; [right|]; assumption.
Qed.

Lemma find_filter {A} (f P : A -> bool) (l : list A) :
  (forall x, x ∈ l -> f x = true -> P x = true) ->
  List.find f (List.filter P l) = List.find f l.
Proof.
  induction l as [|y l IH]; intros H; simpl; [reflexivity|].
  destruct (P y) eqn:EP; simpl.
  - destruct (f y); [reflexivity|]. apply IH. intros x Hx. apply H. right. exact Hx.
  - destruct (f y) eqn:Ef.
    + rewrite (H y) in EP by (left || assumption). discriminate.
    + apply IH. intros x Hx. apply H. right. exact Hx.
Qed.

Lemma elem_of_filter_bool {A} (P : A -> bool) (l : list A) (x : A) :
  x ∈ List.filter P l <-> x ∈ l /\ P x = true.
Proof. rewrite !list_elem_of_In. apply filter_In. Qed.

Lemma addrs_filter (P : entity -> bool) (l : list entity) (p : nat) :
  p ∈ addrs (List.filter P l) -> p ∈ addrs l.
Proof.
  unfold addrs. rewrite !list_elem_of_In, !in_map_iff.
  intros (x & Hx & Hin). apply filter_In in Hin. destruct Hin. eauto.
Qed.

Lemma NoDup_addrs_filter (P : entity -> bool) (l : list entity) :
  NoDup (addrs l) -> NoDup (addrs (List.filter P l)).
Proof.
  induction l as [|y l IH]; simpl; [auto|]. intros H. apply NoDup_cons in H.
  destruct H as [Hy Hl]. destruct (P y); simpl; [|auto].
  apply NoDup_cons. split; [|auto]. intros Hin. apply Hy. eapply addrs_filter. exact Hin.
Qed.

Lemma elem_addrs (l : list entity) (j : entity) : j ∈ l -> fst j ∈ addrs l.
Proof. intros H. unfold addrs. apply list_elem_of_fmap_2 with (f := fst) in H. exact H. Qed.

(** With distinct addresses an address names one entity. *)
Lemma NoDup_addrs_eq (l : list entity) (j j' : entity) :
  NoDup (addrs l) -> j ∈ l -> j' ∈ l -> fst j = fst j' -> j = j'.
Proof.
  induction l as [|y l IH]; intros Hnd Hj Hj' He; [inversion Hj|].
  simpl in Hnd. apply NoDup_cons in Hnd. destruct Hnd as [Hy Hl].
  apply elem_of_cons in Hj, Hj'. destruct Hj as [->|Hj], Hj' as [->|Hj'].
  - reflexivity.
  - destruct Hy. rewrite He. apply elem_addrs. exact Hj'.
  - destruct Hy. rewrite <- He. apply elem_addrs. exact Hj.
  - auto.
Qed.

Lemma seq_at_elem (l : list entity) (j : entity) :
  NoDup (addrs l) -> j ∈ l -> seq_at l (fst j) = Some (Entity.sequence (snd j)).
Proof.
  intros Hnd Hj. unfold seq_at.
  destruct (List.find _ l) as [j'|] eqn:E.
  - apply find_Some_elem in E. destruct E as [Hj' He]. apply Nat.eqb_eq in He.
    rewrite (NoDup_addrs_eq l j' j Hnd Hj' Hj He). reflexivity.
  - rewrite find_None_elem in E. specialize (E j Hj). rewrite Nat.eqb_refl in E. discriminate.
Qed.

Lemma seq_at_pair (l : list entity) (p : nat) (e : Entity.t) :
  NoDup (addrs l) -> (p, e) ∈ l -> seq_at l p = Some (Entity.sequence e).
Proof. intros Hnd H. exact (seq_at_elem l (p, e) Hnd H). Qed.

Lemma seq_at_outside (l : list entity) (p : nat) : p ∉ addrs l -> seq_at l p = None.
Proof.
  intros Hp. unfold seq_at. destruct (List.find _ l) as [j|] eqn:E; [|reflexivity].
  apply find_Some_elem in E. destruct E as [Hj He]. apply Nat.eqb_eq in He. subst p.
  destruct Hp. apply elem_addrs. exact Hj.
Qed.

Lemma seq_at_Some (l : list entity) (p : nat) (q : list string) :
  seq_at l p = Some q -> exists j, j ∈ l /\ fst j = p /\ Entity.sequence (snd j) = q.
Proof.
  unfold seq_at. destruct (List.find _ l) as [j|] eqn:E; [|discriminate].
  intros [= <-]. apply find_Some_elem in E. destruct E as [Hj He]. apply Nat.eqb_eq in He. eauto.
Qed.

Lemma rep_outside (l : list entity) (p : nat) : p ∉ addrs l -> rep l p = p.
Proof. intros Hp. unfold rep. rewrite seq_at_outside by assumption. reflexivity. Qed.

Lemma redirected_same (i j : entity) (rest : list entity) :
  j ∈ rest -> same_seq j i = true -> redirected i rest (fst j) = fst i.
Proof.
  intros Hj Hs. unfold redirected.
  replace (existsb _ rest) with true; [reflexivity|]. symmetry.
  apply existsb_exists. exists j. rewrite <- list_elem_of_In, Nat.eqb_refl, Hs. auto.
Qed.

Lemma redirected_other (i : entity) (rest : list entity) (p : nat) :
  (forall j, j ∈ rest -> fst j = p -> same_seq j i = false) -> redirected i rest p = p.
Proof.
  intros H. unfold redirected. destruct (existsb _ rest) eqn:E; [|reflexivity].
  apply existsb_exists in E. destruct E as (j & Hj & Hc). apply list_elem_of_In in Hj.
  apply andb_true_iff in Hc. destruct Hc as [He Hs]. apply Nat.eqb_eq in He.
  rewrite (H j Hj He) in Hs. discriminate.
Qed.

Lemma same_entity_refl_false (q q' : list string) :
  same_entity q q = false -> same_entity q' q = false.
Proof.
  intros H. apply not_true_iff_false. rewrite same_entity_spec. intros [Hne ->].
  apply not_true_iff_false in H. apply H. apply same_entity_spec. auto.
Qed.

Lemma rep_head (i : entity) (rest : list entity) : rep (i :: rest) (fst i) = fst i.
Proof.
  unfold rep, seq_at, first_with. simpl. rewrite Nat.eqb_refl. simpl.
  destruct (same_entity _ _) eqn:E; [reflexivity|].
  destruct (List.find _ rest) as [j|] eqn:Ef; [|reflexivity].
  apply find_Some_elem in Ef. destruct Ef as [_ Hj].
  rewrite (same_entity_refl_false _ _ E) in Hj. discriminate.
Qed.

(** The representative, one turn of the outer loop later. *)
Lemma rep_step (i : entity) (rest : list entity) (p : nat) :
  NoDup (addrs (i :: rest)) ->
  rep (i :: rest) p
  = rep (List.filter (fun j => negb (same_seq j i)) rest) (redirected i rest p).
Proof.
  intros Hnd. simpl in Hnd. apply NoDup_cons in Hnd. destruct Hnd as [Hi Hnd].
  set (rest' := List.filter (fun j => negb (same_seq j i)) rest).
  assert (fst i ∉ addrs rest') as Hi' by (intros H; apply Hi; eapply addrs_filter; exact H).
  destruct (Nat.eqb_spec (fst i) p) as [<-|Hp].
  { rewrite rep_head. assert (redirected i rest (fst i) = fst i) as ->.
    { unfold redirected. destruct (existsb _ _); reflexivity. }
    symmetry. apply rep_outside. exact Hi'. }
  assert (seq_at (i :: rest) p = seq_at rest p) as Hsa.
  { unfold seq_at. simpl. apply Nat.eqb_neq in Hp. rewrite Hp. reflexivity. }
  destruct (seq_at rest p) as [q|] eqn:Eq.
  - apply seq_at_Some in Eq. destruct Eq as (j & Hj & Hjp & Hjq).
    destruct (same_seq j i) eqn:Es.
    + (* the entity at p is erased *)
      subst p. rewrite (redirected_same i j rest Hj Es), (rep_outside rest' _ Hi').
      unfold rep. rewrite Hsa. unfold first_with. simpl.
      unfold same_seq in Es. rewrite same_entity_sym, Hjq in Es. rewrite Es. reflexivity.
    + (* the entity at p stays *)
      assert (redirected i rest p = p) as ->.
      { apply redirected_other. intros j' Hj' Hp'.
        rewrite (NoDup_addrs_eq rest j' j Hnd Hj' Hj) by congruence. exact Es. }
      assert (j ∈ rest') as Hj'
          by (apply elem_of_filter_bool; rewrite Es; auto).
      unfold rep. rewrite Hsa. subst p.
      rewrite (seq_at_elem rest' j (NoDup_addrs_filter _ _ Hnd) Hj'), Hjq.
      unfold first_with. simpl.
      unfold same_seq in Es. rewrite same_entity_sym, Hjq in Es. rewrite Es.
      unfold rest'. rewrite find_filter; [reflexivity|].
      intros x Hx Hxq. apply negb_true_iff. unfold same_seq.
      apply same_entity_spec in Hxq. destruct Hxq as [_ ->].
      rewrite same_entity_sym. exact Es.
  - assert (forall j, j ∈ rest -> fst j = p -> False) as Hnone.
    { intros j Hj Hjp. unfold seq_at in Eq.
      destruct (List.find _ rest) eqn:Ef; [discriminate|].
      rewrite find_None_elem in Ef. specialize (Ef j Hj). simpl in Ef.
      rewrite Hjp, Nat.eqb_refl in Ef. discriminate. }
    rewrite redirected_other by (intros j Hj Hjp; destruct (Hnone j Hj Hjp)).
    unfold rep at 1. rewrite Hsa. symmetry. apply rep_outside.
    intros Hin. unfold addrs in Hin. apply list_elem_of_fmap in Hin.
    destruct Hin as (j & -> & Hj). apply elem_of_filter_bool in Hj. destruct Hj as [Hj _].
    exact (Hnone j Hj eq_refl).
Qed.

Lemma filter_filter_ext {A} (P P1 P2 : A -> bool) (l : list A) :
  (forall x, x ∈ l -> P2 x && P1 x = P x) ->
  List.filter P2 (List.filter P1 l) = List.filter P l.
Proof.
  induction l as [|y l IH]; intros H; simpl; [reflexivity|].
  rewrite <- (H y) by left. destruct (P1 y); simpl.
  - rewrite andb_true_r. destruct (P2 y); rewrite IH; try reflexivity;
      intros x Hx; apply H; right; exact Hx.
  - rewrite andb_false_r. apply IH. intros x Hx. apply H. right. exact Hx.
Qed.

(** *** The two loops of [finalize]: each entity gives way to its
    representative, whatever fuel beyond the number of entities is given. *)
Lemma merge_loop_spec (fuel : nat) (ents : list entity) (m : gmap string nat) :
  length ents <= fuel -> NoDup (addrs ents) ->
  fst (merge_loop fuel ents m)
  = List.filter (fun pe => (rep ents (fst pe) =? fst pe)%nat) ents
  /\ forall n, snd (merge_loop fuel ents m) !! n = rep ents <$> (m !! n).
Proof.
  revert ents m. induction fuel as [|fuel IH]; intros ents m Hlen Hnd.
  { destruct ents; [|simpl in Hlen; lia]. simpl. split; [reflexivity|].
    intros n. destruct (m !! n); reflexivity. }
  destruct ents as [|i rest].
  { simpl. split; [reflexivity|]. intros n. destruct (m !! n); reflexivity. }
  simpl. pose proof (merge_into_entities i rest m) as He.
  pose proof (merge_into_map i rest m) as Hm.
  destruct (merge_into i rest m) as [rest' m1]. simpl in He, Hm. subst rest'.
  set (rest' := List.filter (fun j => negb (same_seq j i)) rest).
  assert (length rest' <= fuel) as Hlen'.
  { pose proof (filter_length_le (fun j => negb (same_seq j i)) rest).
    unfold rest'. simpl in Hlen. lia. }
  pose proof Hnd as Hnd0. simpl in Hnd. apply NoDup_cons in Hnd. destruct Hnd as [Hi Hnd].
  assert (NoDup (addrs rest')) as Hnd' by (apply NoDup_addrs_filter; assumption).
  destruct (IH rest' m1 Hlen' Hnd') as [IHe IHm].
  destruct (merge_loop fuel rest' m1) as [kept m2]. simpl in IHe, IHm. simpl.
  split.
  - rewrite rep_head, Nat.eqb_refl. f_equal. rewrite IHe. unfold rest'.
    apply filter_filter_ext. intros j Hj.
    rewrite (rep_step i rest (fst j) Hnd0). fold rest'.
    destruct (same_seq j i) eqn:Es.
    + rewrite (redirected_same i j rest Hj Es), (rep_outside rest' (fst i)), andb_false_r
        by (intros H; apply Hi; eapply addrs_filter; exact H).
      symmetry. apply Nat.eqb_neq. intros He. apply Hi. rewrite He. apply elem_addrs. exact Hj.
    + rewrite redirected_other, andb_true_r; [reflexivity|].
      intros j' Hj' Hp'. rewrite (NoDup_addrs_eq rest j' j Hnd Hj' Hj) by congruence. exact Es.
  - intros n. rewrite IHm, Hm. destruct (m !! n) as [p|]; simpl; [|reflexivity].
    f_equal. symmetry. apply rep_step. exact Hnd0.
Qed.

(** *** The entities of the chains *)

Section chains.
Context {D : Type}.





End chains.

(** [set_ids] numbers the entities and changes nothing else. *)
Lemma set_ids_elem (ents : list entity) (serial : Z) (p : nat) (e : Entity.t) :
  (p, e) ∈ ents -> exists i, (p, Entity.with_id e i) ∈ set_ids serial ents.
Proof.
  revert serial. induction ents as [|[q e'] ents IH]; intros serial H; [inversion H|].
  apply elem_of_cons in H. simpl. destruct H as [[= -> ->]|H].
  - eexists. left.
  - destruct (IH (serial + 1)%Z H) as (i & Hi). exists i. right. exact Hi.
Qed.


(** *** What [finalize] does to the chains and to the entities *)

Lemma find_first {A} (f : A -> bool) (l : list A) (x : A) :
  List.find f l = Some x ->
  exists k, l !! k = Some x /\ f x = true
            /\ forall k' y, k' < k -> l !! k' = Some y -> f y = false.
Proof.
  induction l as [|y l IH]; simpl; [discriminate|].
  destruct (f y) eqn:E.
  - intros [= <-]. exists O. repeat split; [assumption|]. intros k' z Hk. lia.
  - intros H. destruct (IH H) as (k & Hk & Hf & Hfirst). exists (S k).
    repeat split; try assumption. intros [|k'] z Hk' Hz; simpl in Hz.
    + injection Hz as <-. exact E.
    + apply (Hfirst k'); [lia|assumption].
Qed.

(** The representative of a non-empty sequence: the entity created first. *)
Lemma rep_first (ents : list entity) (p1 : nat) (e1 : Entity.t) :
  NoDup (addrs ents) -> (p1, e1) ∈ ents -> Entity.sequence e1 <> [] ->
  exists k p e,
    ents !! k = Some (p, e) /\ Entity.sequence e = Entity.sequence e1
    /\ (forall k' pe', k' < k -> ents !! k' = Some pe' ->
                       Entity.sequence (snd pe') <> Entity.sequence e1)
    /\ rep ents p1 = p /\ rep ents p = p.
Proof.
  intros Hnd H1 Hne.
  assert (same_entity (Entity.sequence e1) (Entity.sequence e1) = true) as Hrefl
      by (apply same_entity_spec; auto).
  destruct (List.find (fun pe => same_entity (Entity.sequence (snd pe)) (Entity.sequence e1)) ents)
    as [[p e]|] eqn:Ef.
  2: { rewrite find_None_elem in Ef. specialize (Ef _ H1). simpl in Ef. congruence. }
  destruct (find_first _ _ _ Ef) as (k & Hk & Hs & Hfirst). simpl in Hs.
  apply same_entity_spec in Hs. destruct Hs as [_ Hs].
  exists k, p, e. split; [assumption|]. split; [assumption|]. split.
  { intros k' pe' Hlt Hpe' Heq. specialize (Hfirst k' pe' Hlt Hpe').
    rewrite Heq, Hrefl in Hfirst. discriminate. }
  assert ((p, e) ∈ ents) as Hin by (eapply list_elem_of_lookup_2; eassumption).
  split.
  - unfold rep. rewrite (seq_at_pair ents p1 e1 Hnd H1).
    unfold first_with. rewrite Ef. reflexivity.
  - unfold rep. rewrite (seq_at_pair ents p e Hnd Hin).
    unfold first_with. rewrite Hs, Ef. reflexivity.
Qed.

(** An entity without a sequence stands for itself, and for nothing else. *)
Lemma rep_empty (ents : list entity) (p : nat) (e : Entity.t) :
  NoDup (addrs ents) -> (p, e) ∈ ents -> Entity.sequence e = [] ->
  rep ents p = p /\ forall p0, rep ents p0 = p -> p0 = p.
Proof.
  intros Hnd Hin He. split.
  - unfold rep. rewrite (seq_at_pair ents p e Hnd Hin), He.
    unfold first_with. destruct (List.find _ ents) as [j|] eqn:Ef; [|reflexivity].
    apply find_Some_elem in Ef. destruct Ef as [_ Hs]. apply same_entity_spec in Hs.
    destruct Hs as [Hne Hs]. congruence.
  - intros p0. unfold rep. destruct (seq_at ents p0) as [q|]; [|auto].
    unfold first_with. destruct (List.find _ ents) as [j|] eqn:Ef; [|auto]. simpl.
    intros Hj. apply find_Some_elem in Ef. destruct Ef as [Hjin Hs].
    apply same_entity_spec in Hs. destruct Hs as [Hne _].
    rewrite (NoDup_addrs_eq ents j (p, e) Hnd Hjin Hin Hj) in Hne. simpl in Hne. congruence.
Qed.

Section finalize.
Context {D : Type}.


End finalize.

(** *** The entities while the reader runs *)

Section reader.
Import Reader.
Context {D : Type} {ops : DoubleOps D}.


Definition same_entities (s s' : Reader.t D) : Prop :=
  Structure.entities (st s') = Structure.entities (st s) /\ ent_setter s' = ent_setter s.


Ltac frame :=
  repeat first
    [ progress inv_ok
    | match goal with
      | H : (if ?b then _ else _) = Ok _ |- _ => destruct b eqn:?
      | H : (let '(_, _) := ?x in _) = Ok _ |- _ => destruct x eqn:?
      | H : match ?x with _ => _ end = Ok _ |- _ => destruct x eqn:?
      | H : match ?x with _ => _ end ≫= _ = Ok _ |- _ => destruct x eqn:?
      end ];
  simpl in *; try (split; congruence).

Lemma store_chain_entities (x x' : Structure.t D) cp ch :
  store_chain x cp ch = Ok x' -> Structure.entities x' = Structure.entities x.
Proof. unfold store_chain. intros H. frame. Qed.

Lemma store_resi_entities (x x' : Structure.t D) rp r :
  store_resi x rp r = Ok x' -> Structure.entities x' = Structure.entities x.
Proof.
  unfold store_resi. intros H. apply bind_Ok in H. destruct H as (ch & _ & H).
  eapply store_chain_entities. exact H.
Qed.

Lemma select_chain_entities (s s' : Reader.t D) n :
  select_chain s n = Ok s' -> same_entities s s'.
Proof. unfold select_chain, same_entities. intros H. frame. Qed.

Lemma select_residue_entities (s s' : Reader.t D) rid :
  select_residue s rid = Ok s' -> same_entities s s'.
Proof.
  unfold select_residue, same_entities. intros H. frame.
  all: match goal with H : store_chain _ _ _ = Ok _ |- _ => apply store_chain_entities in H end.
  all: auto.
Qed.

Lemma on_atom_entities (s s' : Reader.t D) len : on_atom s len = Ok s' -> same_entities s s'.
Proof.
  unfold on_atom. intros H. destruct (len <? 77)%nat; [discriminate|].
  apply bind_Ok in H. destruct H as (chain_name & _ & H).
  apply bind_Ok in H. destruct H as (s1 & Hs1 & H).
  apply bind_Ok in H. destruct H as (snic & _ & H).
  apply bind_Ok in H. destruct H as (res_name & _ & H).
  apply bind_Ok in H. destruct H as (segment & _ & H).
  apply bind_Ok in H. destruct H as (s2 & Hs2 & H).
  apply bind_Ok in H. destruct H as (atom & _ & H).
  apply bind_Ok in H. destruct H as (rp & _ & H).
  apply bind_Ok in H. destruct H as (r & _ & H).
  apply bind_Ok in H. destruct H as (x & Hx & H). injection H as <-.
  apply select_chain_entities in Hs1. apply select_residue_entities in Hs2.
  apply store_resi_entities in Hx. destruct Hs1 as [? ?], Hs2 as [? ?].
  split; simpl; congruence.
Qed.

Lemma on_anisou_entities (s s' : Reader.t D) : on_anisou s = Ok s' -> same_entities s s'.
Proof.
  unfold on_anisou, same_entities. intros H.
  destruct (model s); [|discriminate]. destruct (chain s); [|discriminate].
  destruct (resi s) as [rp|]; [|discriminate].
  apply bind_Ok in H. destruct H as (r & _ & H).
  destruct (last _); [|discriminate]. destruct (negb _); [discriminate|].
  do 6 (apply bind_Ok in H; let v := fresh "v" in destruct H as (v & _ & H)).
  apply bind_Ok in H. destruct H as (x & Hx & H). injection H as <-.
  apply store_resi_entities in Hx. auto.
Qed.

Lemma on_cryst1_entities (s s' : Reader.t D) len : on_cryst1 s len = Ok s' -> same_entities s s'.
Proof. unfold on_cryst1, same_entities. intros H. frame. Qed.

Lemma on_mtrix_entities (s s' : Reader.t D) len : on_mtrix s len = Ok s' -> same_entities s s'.
Proof. unfold on_mtrix, same_entities. intros H. frame. Qed.

Lemma on_scale_entities (s s' : Reader.t D) len : on_scale s len = Ok s' -> same_entities s s'.
Proof. unfold on_scale, same_entities. intros H. frame. Qed.

Lemma on_origx_entities (s s' : Reader.t D) len : on_origx s len = Ok s' -> same_entities s s'.
Proof. unfold on_origx, same_entities. intros H. frame. Qed.

Lemma on_model_entities (s s' : Reader.t D) : on_model s = Ok s' -> same_entities s s'.
Proof.
  unfold on_model, same_entities. intros H.
  destruct (model s), (chain s); try discriminate; frame.
Qed.

Lemma on_ter_entities (s s' : Reader.t D) : on_ter s = Ok s' -> same_entities s s'.
Proof. unfold on_ter, same_entities. intros H. frame. Qed.

Lemma on_conn_entities (s s' : Reader.t D) n : on_conn s n = Ok s' -> same_entities s s'.
Proof. unfold on_conn, same_entities. intros H. frame. Qed.

Lemma emplace_monomer_addrs (ents : list entity) (ent : nat) (res_name : string) :
  addrs (emplace_monomer ents ent res_name) = addrs ents.
Proof.
  unfold emplace_monomer, addrs. rewrite map_map. apply map_ext.
  intros pe. destruct (_ =? _)%nat; reflexivity.
Qed.

Lemma read_monomers_addrs (l : list ascii) (columns : list nat) (ents ents' : list entity)
      (ent : nat) :
  read_monomers l columns ents ent = Ok ents' -> addrs ents' = addrs ents.
Proof.
  revert ents. induction columns as [|i columns IH]; intros ents; simpl.
  - intros [= <-]. reflexivity.
  - intros H. apply bind_Ok in H. destruct H as (res_name & _ & H).
    apply IH in H. rewrite H. destruct (String.eqb res_name ""); [reflexivity|].
    apply emplace_monomer_addrs.
Qed.





End reader.


(** Two chains with one sequence: SEQRES records of A and of B, and an atom of each. *)
Definition two_chains : list (list ascii) :=
  [MatrixProofs.pdb_line "SEQRES   1 A    3  ALA GLY SER                                                  ";
   MatrixProofs.pdb_line "SEQRES   1 B    3  ALA GLY SER                                                  ";
   MatrixProofs.pdb_line "ATOM      1  N   ALA A   1      11.104   6.134  -6.504  1.00  0.00           N  ";
   MatrixProofs.pdb_line "ATOM      4  N   ALA B   1       1.000   2.000   3.000  1.00  0.00           N  "].

Definition two_chains_state : Reader.t float :=
  match Reader.read_loop (ops := Float64 no_libm) (Reader.initial (ops := Float64 no_libm))
                         two_chains with
  | Ok s => s
  | _ => Reader.initial (ops := Float64 no_libm)
  end.

Definition two_chains_final
  : EntitySetter.t * list (nat * Entity.t) * list (Model.t float) :=
  finalize (Reader.ent_setter two_chains_state)
           (Structure.entities (Reader.st two_chains_state))
           (Structure.models (Reader.st two_chains_state)).



End EntityProofs.

(* ===================================================================== *)
(** * Part III: further properties of the code                             *)
(* ===================================================================== *)

(** ** The scanners read inside the field *)

Module ScannerBounds.
Import pdb_impl pdb_num.
Local Open Scope nat_scope.

(** Two buffers with the same first [m] bytes. *)
Definition agree (m : nat) (p q : list ascii) : Prop :=
  forall j, j < m -> p !! j = q !! j.

Lemma agree_take (m : nat) (p : list ascii) : agree m p (take m p).
Proof. intros j Hj. symmetry. apply lookup_take_lt. exact Hj. Qed.

Lemma agree_le (m m' : nat) (p q : list ascii) : m' <= m -> agree m p q -> agree m' p q.
Proof. intros Hm H j Hj. apply H. lia. Qed.

Lemma agree_drop (m k : nat) (p q : list ascii) :
  agree (k + m) p q -> agree m (drop k p) (drop k q).
Proof. intros H j Hj. rewrite !lookup_drop. apply H. lia. Qed.

Lemma skip_space_agree (p q : list ascii) (m k i : nat) :
  agree m p q -> i + k <= m -> skip_space p i k = skip_space q i k.
Proof.
  intros H. revert i. induction k as [|k IH]; intros i Hik; simpl; [reflexivity|].
  rewrite <- (H i) by lia. destruct (p !! i) as [c|]; simpl; [|reflexivity].
  destruct (Char.isspace c); [apply IH; lia|reflexivity].
Qed.

Lemma skip_space_Some (p : list ascii) (k i : nat) :
  i + k <= length p -> exists j, skip_space p i k = Some j /\ i <= j <= i + k.
Proof.
  revert i. induction k as [|k IH]; intros i Hik; simpl.
  - exists i. split; [reflexivity|lia].
  - destruct (lookup_lt_is_Some_2 p i) as [c Hc]; [lia|]. rewrite Hc. simpl.
    destruct (Char.isspace c).
    + destruct (IH (S i)) as (j & Hj & ?); [lia|]. exists j. split; [exact Hj|lia].
    + exists i. split; [reflexivity|lia].
Qed.

Lemma read_sign_agree (p q : list ascii) (m i : nat) :
  agree m p q -> i < m -> read_sign p i = read_sign q i.
Proof. intros H Hi. unfold read_sign. rewrite (H i Hi). reflexivity. Qed.

Lemma read_sign_Some (p : list ascii) (i : nat) :
  i < length p ->
  exists j sign, read_sign p i = Some (j, sign) /\ i <= j <= S i /\ (sign = 1 \/ sign = -1)%Z.
Proof.
  intros Hi. unfold read_sign.
  destruct (lookup_lt_is_Some_2 p i Hi) as [c Hc]. rewrite Hc. simpl.
  destruct (Char.eqb c "-"); [exists (S i), (-1)%Z; repeat split; lia|].
  destruct (Char.eqb c "+"); [exists (S i), 1%Z|exists i, 1%Z]; repeat split; lia.
Qed.

Lemma read_digits_agree (p q : list ascii) (m k i : nat) (n : Z) :
  agree m p q -> i + k <= m -> read_digits p i k n = read_digits q i k n.
Proof.
  intros H. revert i n. induction k as [|k IH]; intros i n Hik; simpl; [reflexivity|].
  rewrite <- (H i) by lia. destruct (p !! i) as [c|]; simpl; [|reflexivity].
  destruct (Char.is_digit c); [apply IH; lia|reflexivity].
Qed.

Lemma read_digits_Some (p : list ascii) (k i : nat) (n : Z) :
  i + k <= length p -> exists j v, read_digits p i k n = Some (j, v) /\ i <= j <= i + k.
Proof.
  revert i n. induction k as [|k IH]; intros i n Hik; simpl.
  - exists i, n. split; [reflexivity|lia].
  - destruct (lookup_lt_is_Some_2 p i) as [c Hc]; [lia|]. rewrite Hc. simpl.
    destruct (Char.is_digit c).
    + destruct (IH (S i) (n * 10 + (Char.val c - Char.val "0"))%Z) as (j & v & Hj & ?); [lia|].
      exists j, v. split; [exact Hj|lia].
    + exists i, n. split; [reflexivity|lia].
Qed.

Lemma read_int_agree (p q : list ascii) (n : nat) :
  agree (S n) p q -> read_int p n = read_int q n.
Proof.
  intros H. unfold read_int.
  rewrite (skip_space_agree p q (S n) n 0 H) by lia.
  destruct (skip_space q 0 n) as [i|] eqn:Ei; simpl; [|reflexivity].
  destruct (Nat.le_gt_cases i n) as [Hi|Hi].
  - rewrite (read_sign_agree p q (S n) i H) by lia.
    destruct (read_sign q i) as [[i' sign]|] eqn:Es; simpl; [|reflexivity].
    rewrite (read_digits_agree p q (S n) (n - i') i' 0 H); [reflexivity|].
    unfold read_sign in Es. destruct (q !! i); simpl in Es; [|discriminate].
    destruct (Char.eqb _ _); [injection Es as <- _; lia|].
    destruct (Char.eqb _ _); injection Es as <- _; lia.
  - exfalso. clear H.
    assert (forall k i0 j, skip_space q i0 k = Some j -> j <= i0 + k) as Hb.
    { induction k as [|k IH]; intros i0 j; simpl.
      - intros [= <-]. lia.
      - destruct (q !! i0); simpl; [|discriminate].
        destruct (Char.isspace _); [intros Hs; apply IH in Hs; lia|intros [= <-]; lia]. }
    apply Hb in Ei. lia.
Qed.

Lemma read_int_Some (p : list ascii) (n : nat) :
  n < length p -> is_Some (read_int p n).
Proof.
  intros Hn. unfold read_int.
  destruct (skip_space_Some p n 0) as (i & -> & Hi); [lia|]. simpl.
  destruct (read_sign_Some p i) as (i' & sign & -> & Hi' & _); [lia|]. simpl.
  destruct (read_digits_Some p (n - i') i' 0) as (j & v & -> & _); [lia|]. simpl. eauto.
Qed.


Section with_double.
Context {D : Type} {ops : DoubleOps D}.

Lemma read_whole_agree (p q : list ascii) (m k i : nat) (d : D) :
  agree m p q -> i + k <= m -> read_whole p i k d = read_whole q i k d.
Proof.
  intros H. revert i d. induction k as [|k IH]; intros i d Hik; simpl; [reflexivity|].
  rewrite <- (H i) by lia. destruct (p !! i) as [c|]; simpl; [|reflexivity].
  destruct (Char.is_digit c); [apply IH; lia|reflexivity].
Qed.

Lemma read_whole_Some (p : list ascii) (k i : nat) (d : D) :
  i + k <= length p -> exists j v, read_whole p i k d = Some (j, v) /\ i <= j <= i + k.
Proof.
  revert i d. induction k as [|k IH]; intros i d Hik; simpl.
  - exists i, d. split; [reflexivity|lia].
  - destruct (lookup_lt_is_Some_2 p i) as [c Hc]; [lia|]. rewrite Hc. simpl.
    destruct (Char.is_digit c).
    + destruct (IH (S i) (d_add (d_mul d (d_of_Z 10)) (d_of_Z (Char.val c - Char.val "0"))))
        as (j & v & Hj & ?); [lia|].
      exists j, v. split; [exact Hj|lia].
    + exists i, d. split; [reflexivity|lia].
Qed.

Lemma read_fraction_agree (p q : list ascii) (m k i : nat) (mult d : D) :
  agree m p q -> i + k <= m -> read_fraction p i k mult d = read_fraction q i k mult d.
Proof.
  intros H. revert i mult d. induction k as [|k IH]; intros i mult d Hik; simpl; [reflexivity|].
  rewrite <- (H i) by lia. destruct (p !! i) as [c|]; simpl; [|reflexivity].
  destruct (Char.is_digit c); [apply IH; lia|reflexivity].
Qed.

Lemma read_fraction_Some (p : list ascii) (k i : nat) (mult d : D) :
  i + k <= length p -> is_Some (read_fraction p i k mult d).
Proof.
  revert i mult d. induction k as [|k IH]; intros i mult d Hik; simpl; [eauto|].
  destruct (lookup_lt_is_Some_2 p i) as [c Hc]; [lia|]. rewrite Hc. simpl.
  destruct (Char.is_digit c); [apply IH; lia|eauto].
Qed.

Lemma skip_space_le (q : list ascii) (k i0 j : nat) : skip_space q i0 k = Some j -> j <= i0 + k.
Proof.
  revert i0 j. induction k as [|k IH]; intros i0 j; simpl.
  - intros [= <-]. lia.
  - destruct (q !! i0); simpl; [|discriminate].
    destruct (Char.isspace _); [intros Hs; apply IH in Hs; lia|intros [= <-]; lia].
Qed.

Lemma read_sign_le (q : list ascii) (i i' : nat) (sign : Z) :
  read_sign q i = Some (i', sign) -> i <= i' <= S i.
Proof.
  unfold read_sign. destruct (q !! i); simpl; [|discriminate].
  destruct (Char.eqb _ _); [intros [= <- _]; lia|].
  destruct (Char.eqb _ _); intros [= <- _]; lia.
Qed.

Lemma read_whole_le (q : list ascii) (k i j : nat) (d v : D) :
  read_whole q i k d = Some (j, v) -> i <= j <= i + k.
Proof.
  revert i d. induction k as [|k IH]; intros i d; simpl.
  - intros [= <- _]. lia.
  - destruct (q !! i); simpl; [|discriminate].
    destruct (Char.is_digit _); [intros Hs; apply IH in Hs; lia|intros [= <- _]; lia].
Qed.

Lemma read_double_agree (p q : list ascii) (n : nat) :
  agree (S n) p q -> read_double p n = read_double q n.
Proof.
  intros H. unfold read_double.
  rewrite (skip_space_agree p q (S n) n 0 H) by lia.
  destruct (skip_space q 0 n) as [i|] eqn:Ei; simpl; [|reflexivity].
  apply skip_space_le in Ei.
  rewrite (read_sign_agree p q (S n) i H) by lia.
  destruct (read_sign q i) as [[i' sign]|] eqn:Es; simpl; [|reflexivity].
  apply read_sign_le in Es.
  rewrite (read_whole_agree p q (S n) (n - i') i' _ H) by lia.
  destruct (read_whole q i' (n - i') _) as [[j d]|] eqn:Ew; simpl; [|reflexivity].
  apply read_whole_le in Ew.
  destruct (j <? n) eqn:Ej; [|reflexivity].
  apply Nat.ltb_lt in Ej. rewrite <- (H j) by lia.
  destruct (p !! j) as [c|]; simpl; [|reflexivity].
  destruct (Char.eqb c "."); [|reflexivity].
  rewrite (read_fraction_agree p q (S n) (n - S j) (S j) _ _ H) by lia. reflexivity.
Qed.

Lemma read_double_Some (p : list ascii) (n : nat) :
  n < length p -> is_Some (read_double p n).
Proof.
  intros Hn. unfold read_double.
  destruct (skip_space_Some p n 0) as (i & -> & Hi); [lia|]. simpl.
  destruct (read_sign_Some p i) as (i' & sign & -> & Hi' & _); [lia|]. simpl.
  destruct (read_whole_Some p (n - i') i' (d_of_Z 0)) as (j & v & -> & Hj); [lia|]. simpl.
  destruct (j <? n) eqn:Ej; [|simpl; eauto].
  apply Nat.ltb_lt in Ej.
  destruct (lookup_lt_is_Some_2 p j) as [c Hc]; [lia|]. rewrite Hc. simpl.
  destruct (Char.eqb c "."); [|simpl; eauto].
  destruct (read_fraction_Some p (n - S j) (S j) (d_lit 1 (-1)) v) as [x ->]; [lia|].
  simpl. eauto.
Qed.

End with_double.

(** *** [read_string], as a function of the field *)

Fixpoint take_while (f : ascii -> bool) (l : list ascii) : list ascii :=
  match l with
  | c :: l' => if f c then c :: take_while f l' else []
  | [] => []
  end.

Fixpoint drop_while (f : ascii -> bool) (l : list ascii) : list ascii :=
  match l with
  | c :: l' => if f c then drop_while f l' else l
  | [] => []
  end.

(** The list without its trailing white space. *)
Fixpoint rstrip (l : list ascii) : list ascii :=
  match l with
  | [] => []
  | c :: l' => match rstrip l' with
               | [] => if Char.isspace c then [] else [c]
               | r => c :: r
               end
  end.

Definition not_eol (c : ascii) : bool := negb (is_eol c).

(** What [read_string] returns for the field [f]: the white space in front
    goes first, then the text is cut at the first end of line, and the white
    space at its end goes last. *)
Definition trimmed_field (f : list ascii) : list ascii :=
  rstrip (take_while not_eol (drop_while Char.isspace f)).

Lemma take_while_length (f : ascii -> bool) (l : list ascii) :
  length (take_while f l) <= length l.
Proof. induction l as [|c l IH]; simpl; [lia|]. destruct (f c); simpl; lia. Qed.

Lemma take_take_while (f : ascii -> bool) (l : list ascii) :
  take (length (take_while f l)) l = take_while f l.
Proof. induction l as [|c l IH]; simpl; [reflexivity|]. destruct (f c); simpl; congruence. Qed.

Lemma drop_take_while (f : ascii -> bool) (l : list ascii) :
  drop (length (take_while f l)) l = drop_while f l.
Proof. induction l as [|c l IH]; simpl; [reflexivity|]. destruct (f c); simpl; congruence. Qed.

Lemma rstrip_length (l : list ascii) : length (rstrip l) <= length l.
Proof.
  induction l as [|c l IH]; simpl; [lia|].
  destruct (rstrip l); [destruct (Char.isspace c); simpl; lia|simpl in *; lia].
Qed.

Lemma take_rstrip (l : list ascii) : take (length (rstrip l)) l = rstrip l.
Proof.
  induction l as [|c l IH]; simpl; [reflexivity|].
  destruct (rstrip l) as [|r rs] eqn:E.
  - destruct (Char.isspace c); simpl; [reflexivity|]. rewrite take_0. reflexivity.
  - simpl in *. rewrite IH. reflexivity.
Qed.

Lemma rstrip_snoc (l : list ascii) (c : ascii) :
  rstrip (l ++ [c]) = if Char.isspace c then rstrip l else l ++ [c].
Proof.
  induction l as [|x l IH]; simpl.
  - destruct (Char.isspace c); reflexivity.
  - rewrite IH. destruct (Char.isspace c) eqn:E; [reflexivity|].
    destruct (l ++ [c]) eqn:El; [destruct l; discriminate|reflexivity].
Qed.

Lemma ltrim_spec (p : list ascii) (fl off : nat) :
  off + fl <= length p ->
  let d := length (take_while Char.isspace (take fl (drop off p))) in
  ltrim p off fl = Some (off + d, fl - d).
Proof.
  revert off. induction fl as [|fl IH]; intros off Hlen; simpl.
  - rewrite Nat.add_0_r. reflexivity.
  - destruct (lookup_lt_is_Some_2 p off) as [c Hc]; [lia|]. rewrite Hc. simpl.
    rewrite (drop_S _ _ _ Hc). simpl.
    destruct (Char.isspace c); simpl.
    + rewrite IH by lia. simpl. do 2 f_equal. lia.
    + rewrite Nat.add_0_r. reflexivity.
Qed.

Lemma cut_at_eol_spec (p : list ascii) (k i : nat) :
  i + k <= length p ->
  cut_at_eol p i k = Some (i + length (take_while not_eol (take k (drop i p)))).
Proof.
  revert i. induction k as [|k IH]; intros i Hlen; simpl.
  - rewrite Nat.add_0_r. reflexivity.
  - destruct (lookup_lt_is_Some_2 p i) as [c Hc]; [lia|]. rewrite Hc. simpl.
    rewrite (drop_S _ _ _ Hc). simpl. unfold not_eol at 1.
    destruct (is_eol c); simpl.
    + rewrite Nat.add_0_r. reflexivity.
    + rewrite IH by lia. f_equal. lia.
Qed.

Lemma rtrim_spec (p : list ascii) (fl : nat) :
  fl <= length p -> rtrim p fl = Some (length (rstrip (take fl p))).
Proof.
  induction fl as [|fl IH]; intros Hlen.
  - rewrite take_0. reflexivity.
  - simpl rtrim.
    destruct (lookup_lt_is_Some_2 p fl) as [c Hc]; [lia|]. rewrite Hc. simpl.
    rewrite (take_S_r _ _ _ Hc), rstrip_snoc.
    destruct (Char.isspace c); [apply IH; lia|].
    rewrite length_app, length_take. simpl. f_equal. lia.
Qed.

Lemma memcpy_spec (p : list ascii) (N : nat) :
  N <= length p -> memcpy p N = Some (take N p).
Proof.
  intros HN. unfold memcpy. apply mapM_Some. 
  apply Forall2_same_length_lookup. split.
  - rewrite length_seq, length_take. lia.
  - intros i j c Hj Hc. apply lookup_seq in Hj. destruct Hj as [-> Hi]. simpl.
    rewrite lookup_take_lt in Hc by lia. exact Hc.
Qed.

Lemma read_string_spec (p : list ascii) (n : nat) :
  n <= length p ->
  read_string p n = Some (string_of_list_ascii (trimmed_field (take n p))).
Proof.
  intros Hn. unfold read_string, trimmed_field.
  pose proof (ltrim_spec p n 0) as Hl. simpl in Hl. rewrite Hl by lia. clear Hl.
  rewrite drop_0. set (f := take n p).
  set (d := length (take_while Char.isspace f)).
  assert (d <= n) as Hd.
  { pose proof (take_while_length Char.isspace f). unfold f in H. rewrite length_take in H.
    unfold d, f. lia. }
  simpl.
  assert (take (n - d) (drop d p) = drop_while Char.isspace f) as Hg.
  { rewrite take_drop_commute. replace (d + (n - d)) with n by lia.
    apply drop_take_while. }
  set (g := drop_while Char.isspace f) in *.
  rewrite cut_at_eol_spec by (rewrite length_drop; lia). simpl.
  rewrite drop_0, Hg.
  set (e := length (take_while not_eol g)).
  assert (e <= n - d) as He.
  { pose proof (take_while_length not_eol g). rewrite <- Hg in H at 2.
    rewrite length_take, length_drop in H. unfold e. lia. }
  assert (take e (drop d p) = take_while not_eol g) as Hh.
  { rewrite <- take_take_while. fold e. rewrite <- Hg. rewrite take_take. f_equal. lia. }
  rewrite rtrim_spec by (rewrite length_drop; lia). simpl.
  rewrite Hh. set (h := take_while not_eol g) in *.
  pose proof (rstrip_length h) as Hr.
  assert (length h = e) as Hlh by (unfold h, e; reflexivity).
  rewrite memcpy_spec by (rewrite length_drop; lia). simpl.
  do 2 f_equal.
  transitivity (take (length (rstrip h)) h); [|apply take_rstrip].
  rewrite <- Hh at 3. rewrite take_take. f_equal. lia.
Qed.

Lemma read_string_Some (p : list ascii) (n : nat) :
  n <= length p -> is_Some (read_string p n).
Proof. intros Hn. rewrite read_string_spec by exact Hn. eauto. Qed.

End ScannerBounds.

(** ** What the numeric scanners return *)

Module ScannerValues.
Import pdb_impl pdb_num.
Local Open Scope nat_scope.






Definition all (f : ascii -> bool) (l : list ascii) : Prop := Forall (fun c => f c = true) l.











Section with_double.
Context {D : Type} {ops : DoubleOps D}.



End with_double.






End ScannerValues.

Module ScannerFacts.
Import pdb_impl pdb_num ScannerBounds.
Local Open Scope nat_scope.

Lemma drop_while_head (f : ascii -> bool) (l l' : list ascii) (c : ascii) :
  drop_while f l = c :: l' -> f c = false.
Proof.
  induction l as [|x l IH]; simpl; [discriminate|].
  destruct (f x) eqn:E; [exact IH|]. intros [= <- _]. exact E.
Qed.

Lemma drop_while_length (f : ascii -> bool) (l : list ascii) :
  length (drop_while f l) <= length l.
Proof. induction l as [|x l IH]; simpl; [lia|]. destruct (f x); simpl; lia. Qed.

Lemma take_while_head (f : ascii -> bool) (l : list ascii) (c : ascii) :
  head (take_while f l) = Some c -> head l = Some c.
Proof. destruct l as [|x l]; simpl; [discriminate|]. destruct (f x); simpl; [auto|discriminate]. Qed.

Lemma take_while_Forall (f : ascii -> bool) (l : list ascii) :
  Forall (fun c => f c = true) (take_while f l).
Proof.
  induction l as [|x l IH]; simpl; [constructor|].
  destruct (f x) eqn:E; constructor; assumption.
Qed.

Lemma rstrip_head (l : list ascii) (c : ascii) : head (rstrip l) = Some c -> head l = Some c.
Proof.
  destruct l as [|x l]; simpl; [discriminate|].
  destruct (rstrip l); [destruct (Char.isspace x)|]; simpl; auto; discriminate.
Qed.

Lemma rstrip_last (l : list ascii) (c : ascii) :
  last (rstrip l) = Some c -> Char.isspace c = false.
Proof.
  induction l as [|x l IH]; simpl; [discriminate|].
  destruct (rstrip l) as [|r rs] eqn:E.
  - destruct (Char.isspace x) eqn:Ex; simpl; [discriminate|]. intros [= <-]. exact Ex.
  - intros H. apply IH. rewrite <- H. reflexivity.
Qed.

(** X3: [read_string] reads the field and nothing else, and what it returns is
    the field without the white space in front, cut at the first end of line
    (LF, CR or NUL) that follows, without the white space at its end. *)
Theorem read_string_field (p : list ascii) (n : nat) :
  n <= length p ->
  read_string p n = Some (string_of_list_ascii (trimmed_field (take n p))).
Proof. apply read_string_spec. Qed.

Definition padded_ala : list ascii := list_ascii_of_string "  ALA   ".

Lemma read_string_field_witness :
  read_string padded_ala 6 = Some "ALA"%string.
Proof. apply (read_string_field padded_ala 6). simpl. lia. Defined.

(** X4: the string [read_string] returns is at most [field_length] bytes long,
    holds no end of line, and neither starts nor ends with white space. *)
Theorem read_string_trimmed (p : list ascii) (n : nat) (s : string) :
  n <= length p -> read_string p n = Some s ->
  String.length s <= n
  /\ Forall (fun c => is_eol c = false) (list_ascii_of_string s)
  /\ (forall c, head (list_ascii_of_string s) = Some c -> Char.isspace c = false)
  /\ (forall c, last (list_ascii_of_string s) = Some c -> Char.isspace c = false).
Proof.
  intros Hn H. rewrite read_string_spec in H by exact Hn. injection H as <-.
  rewrite list_ascii_of_string_of_list_ascii. unfold trimmed_field.
  set (f := take n p). split; [|split; [|split]].
  - rewrite <- (list_ascii_of_string_of_list_ascii (rstrip _)) at 1.
    rewrite list_ascii_of_string_of_list_ascii.
    assert (forall l, String.length (string_of_list_ascii l) = length l) as Hlen
      by (induction l as [|x l IH]; simpl; congruence).
    rewrite Hlen.
    pose proof (rstrip_length (take_while not_eol (drop_while Char.isspace f))).
    pose proof (take_while_length not_eol (drop_while Char.isspace f)).
    pose proof (drop_while_length Char.isspace f).
    assert (length f <= n) by (unfold f; rewrite length_take; lia). lia.
  - rewrite <- take_rstrip. apply Forall_take.
    eapply Forall_impl; [apply take_while_Forall|].
    intros c Hc. unfold not_eol in Hc. simpl in Hc. destruct (is_eol c); [discriminate|reflexivity].
  - intros c Hc. apply rstrip_head, take_while_head in Hc.
    destruct (drop_while Char.isspace f) as [|x l] eqn:E; [discriminate|].
    injection Hc as ->. eapply drop_while_head. exact E.
  - intros c. apply rstrip_last.
Qed.

Lemma read_string_trimmed_witness :
  String.length "ALA" <= 6.
Proof.
  apply (proj1 (read_string_trimmed padded_ala 6 "ALA"%string
                  ltac:(simpl; lia) eq_refl)).
Defined.

(** X5: [read_int] and [read_double] read the bytes 0 to [field_length], the
    byte that follows the field included, and no other: on a buffer longer
    than the field they return a number, the same for any two buffers that
    agree on these bytes. *)
Theorem numeric_scanners_within {D : Type} {ops : DoubleOps D}
        (p q : list ascii) (n : nat) :
  n < length p -> (forall j, j <= n -> p !! j = q !! j) ->
  is_Some (read_int p n) /\ read_int q n = read_int p n
  /\ is_Some (read_double p n) /\ read_double q n = read_double p n.
Proof.
  intros Hn H.
  assert (agree (S n) p q) as Ha by (intros j Hj; apply H; lia).
  split; [apply read_int_Some; exact Hn|].
  split; [symmetry; apply read_int_agree; exact Ha|].
  split; [apply read_double_Some; exact Hn|].
  symmetry. apply read_double_agree. exact Ha.
Qed.

Lemma numeric_scanners_within_witness :
  read_int (list_ascii_of_string " 12 345") 3 = read_int (list_ascii_of_string " 12 ") 3.
Proof.
  refine (proj1 (proj2 (numeric_scanners_within (ops := RealOps)
                          (list_ascii_of_string " 12 ") (list_ascii_of_string " 12 345") 3
                          _ _))).
  - simpl. lia.
  - intros [|[|[|[|j]]]] Hj; try reflexivity. lia.
Defined.

End ScannerFacts.

(** ** Record names: four bytes, the case bit masked *)

Module RecordNames.
Import pdb_impl pdb_num.

(** A byte with the case bit cleared: [c & ~0x20]. *)
Definition upper (c : ascii) : Z := Z.land (Char.val c) (Z.lnot 0x20).

Lemma land_shiftl (a m k : Z) :
  0 <= k -> Z.land (Z.shiftl a k) m = Z.shiftl (Z.land a (Z.shiftr m k)) k.
Proof.
  intros Hk. apply Z.bits_inj'. intros n Hn.
  rewrite Z.land_spec, !Z.shiftl_spec by lia. rewrite Z.land_spec.
  destruct (Z.ltb_spec n k) as [Hlt|Hge].
  - rewrite !(Z.testbit_neg_r _ (n - k)) by lia. reflexivity.
  - rewrite Z.shiftr_spec by lia. replace (n - k + k) with n by lia. reflexivity.
Qed.

Lemma land_shiftl_low (x y k : Z) :
  0 <= k -> 0 <= y < 2 ^ k -> Z.land (Z.shiftl x k) y = 0.
Proof.
  intros Hk Hy. apply Z.bits_inj'. intros n Hn.
  rewrite Z.land_spec, Z.shiftl_spec, Z.bits_0 by lia.
  destruct (Z.ltb_spec n k) as [Hlt|Hge].
  - rewrite Z.testbit_neg_r by lia. reflexivity.
  - destruct (Z.eq_dec y 0) as [->|Hy0]; [rewrite Z.bits_0; apply andb_false_r|].
    rewrite (Z.bits_above_log2 y n); [apply andb_false_r|lia|].
    apply Z.lt_le_trans with k; [|exact Hge]. apply Z.log2_lt_pow2; lia.
Qed.

Lemma lor_shiftl_low (x y k : Z) :
  0 <= k -> 0 <= y < 2 ^ k -> Z.lor (Z.shiftl x k) y = x * 2 ^ k + y.
Proof.
  intros Hk Hy. rewrite <- Z.lxor_lor by (apply land_shiftl_low; assumption).
  rewrite <- Z.add_nocarry_lxor by (apply land_shiftl_low; assumption).
  rewrite Z.shiftl_mul_pow2 by exact Hk. reflexivity.
Qed.

(** The packed word as a number in base 256. *)
Lemma pack_value (x0 x1 x2 x3 : Z) :
  0 <= x1 < 256 -> 0 <= x2 < 256 -> 0 <= x3 < 256 ->
  Z.lor (Z.lor (Z.lor (Z.shiftl x0 24) (Z.shiftl x1 16)) (Z.shiftl x2 8)) x3
  = ((x0 * 256 + x1) * 256 + x2) * 256 + x3.
Proof.
  intros H1 H2 H3.
  replace (Z.shiftl x0 24) with (Z.shiftl (Z.shiftl x0 8) 16)
    by (rewrite Z.shiftl_shiftl by lia; reflexivity).
  rewrite <- Z.shiftl_lor, (lor_shiftl_low x0 x1 8) by (simpl; lia).
  replace (Z.shiftl (x0 * 2 ^ 8 + x1) 16) with (Z.shiftl (Z.shiftl (x0 * 2 ^ 8 + x1) 8) 8)
    by (rewrite Z.shiftl_shiftl by lia; reflexivity).
  rewrite <- Z.shiftl_lor, (lor_shiftl_low _ x2 8) by (simpl; lia).
  rewrite (lor_shiftl_low _ x3 8) by (simpl; lia).
  change (2 ^ 8) with 256. reflexivity.
Qed.

(** On an ASCII byte the wider masks of the upper positions act like [~0x20]. *)
Lemma ascii_masks (c : ascii) :
  0 <= Char.val c ->
  0 <= upper c < 128
  /\ Z.land (Char.val c) (Z.shiftr (Z.lnot 0x20202020) 24) = upper c
  /\ Z.land (Char.val c) (Z.shiftr (Z.lnot 0x20202020) 16) = upper c
  /\ Z.land (Char.val c) (Z.shiftr (Z.lnot 0x20202020) 8) = upper c
  /\ Z.land (Char.val c) (Z.lnot 0x20202020) = upper c.
Proof.
  destruct c as [[] [] [] [] [] [] [] []]; vm_compute; intros H;
    try (exfalso; apply H; reflexivity); repeat split; discriminate.
Qed.

Lemma masked_pack (s0 s1 s2 s3 : ascii) :
  0 <= Char.val s0 -> 0 <= Char.val s1 -> 0 <= Char.val s2 -> 0 <= Char.val s3 ->
  Z.land (pack4 s0 s1 s2 s3) (Z.lnot 0x20202020)
  = ((upper s0 * 256 + upper s1) * 256 + upper s2) * 256 + upper s3.
Proof.
  intros H0 H1 H2 H3. unfold pack4.
  rewrite !Z.land_lor_distr_l, !land_shiftl by lia.
  destruct (ascii_masks s0 H0) as (_ & -> & _).
  destruct (ascii_masks s1 H1) as (? & _ & -> & _).
  destruct (ascii_masks s2 H2) as (? & _ & _ & -> & _).
  destruct (ascii_masks s3 H3) as (? & _ & _ & _ & ->).
  apply pack_value; lia.
Qed.

Lemma ascii_val_bound (c : ascii) : -128 <= Char.val c < 128.
Proof. destruct c as [[] [] [] [] [] [] [] []]; vm_compute; split; congruence. Qed.

(** On ASCII bytes [is_record_type] compares the first four bytes of the
    line, each with the case bit (0x20) cleared, with the first four bytes of
    the record name. *)
Lemma is_record_type_ascii (s : list ascii) (record : string)
        (s0 s1 s2 s3 r0 r1 r2 r3 : ascii) :
  s !! 0%nat = Some s0 -> s !! 1%nat = Some s1 -> s !! 2%nat = Some s2 -> s !! 3%nat = Some s3 ->
  literal record !! 0%nat = Some r0 -> literal record !! 1%nat = Some r1 ->
  literal record !! 2%nat = Some r2 -> literal record !! 3%nat = Some r3 ->
  Forall (fun c => 0 <= Char.val c) [s0; s1; s2; s3; r0; r1; r2; r3] ->
  is_record_type s record
  = Some ((upper s0 =? Char.val r0) && (upper s1 =? Char.val r1)
          && (upper s2 =? Char.val r2) && (upper s3 =? Char.val r3)).
Proof.
  intros Hs0 Hs1 Hs2 Hs3 Hr0 Hr1 Hr2 Hr3 Hascii.
  unfold is_record_type. rewrite Hs0, Hs1, Hs2, Hs3, Hr0, Hr1, Hr2, Hr3. simpl.
  rewrite !Forall_cons in Hascii.
  destruct Hascii as (H0 & H1 & H2 & H3 & G0 & G1 & G2 & G3 & _).
  rewrite masked_pack by assumption.
  unfold pack4. rewrite pack_value by (pose proof (ascii_val_bound r1);
    pose proof (ascii_val_bound r2); pose proof (ascii_val_bound r3); lia).
  destruct (ascii_masks s0 H0) as (? & _). destruct (ascii_masks s1 H1) as (? & _).
  destruct (ascii_masks s2 H2) as (? & _). destruct (ascii_masks s3 H3) as (? & _).
  pose proof (ascii_val_bound r0). pose proof (ascii_val_bound r1).
  pose proof (ascii_val_bound r2). pose proof (ascii_val_bound r3).
  f_equal. apply eq_true_iff_eq.
  rewrite !andb_true_iff, !Z.eqb_eq. lia.
Qed.

End RecordNames.

Module ChargeFacts.
Import pdb_impl pdb_num.

Lemma digit_range (c : ascii) :
  Char.is_digit c = true -> 0 <= Char.val c - Char.val "0" <= 9.
Proof.
  unfold Char.is_digit. rewrite andb_true_iff, !Z.leb_le.
  change (Char.val "0") with 48. change (Char.val "9") with 57. lia.
Qed.

Lemma digit_not_blank (c : ascii) : Char.is_digit c = true -> Char.eqb c " " = false.
Proof. destruct c as [[] [] [] [] [] [] [] []]; vm_compute; congruence. Qed.

(** X6: [read_charge] takes the digit in either place: for a digit and a byte
    that is no digit the two orders give one result; and a charge it returns
    lies between -9 and 9. *)
Theorem read_charge_layouts (d x : ascii) :
  Char.is_digit d = true -> Char.is_digit x = false ->
  read_charge d x = read_charge x d
  /\ forall v, read_charge d x = Ok v ->
       (v = Char.val d - Char.val "0" \/ v = - (Char.val d - Char.val "0"))
       /\ -9 <= v <= 9.
Proof.
  intros Hd Hx. pose proof (digit_not_blank d Hd) as Hb. pose proof (digit_range d Hd) as Hr.
  unfold read_charge. rewrite Hb, Hd, Hx, andb_false_r. simpl. rewrite Hd.
  split; [reflexivity|].
  intros v. destruct (_ && _); [discriminate|]. intros [= <-].
  destruct (Char.eqb x "-"); lia.
Qed.

Lemma read_charge_layouts_witness : read_charge "2" "-" = read_charge "-" "2".
Proof. apply (proj1 (read_charge_layouts "2" "-" eq_refl eq_refl)). Defined.

End ChargeFacts.

(** ** The entity resolver: what [finalize] leaves *)

Module EntityFacts.
Import pdb_impl pdb_num EntitySetter EntityProofs.
Local Open Scope nat_scope.

(** The resolver's map and list fit: the addresses in the list are distinct
    and below the next free one, and every chain name leads to one of them. *)
Definition fits (es : EntitySetter.t) (ents : list (nat * Entity.t)) : Prop :=
  NoDup (addrs ents)
  /\ (forall p, p ∈ addrs ents -> p < next_addr es)
  /\ forall n p, chain_to_ent_ es !! n = Some p -> p ∈ addrs ents.

Definition no_sequence (pe : nat * Entity.t) : Prop := Entity.sequence (snd pe) = [].

Lemma set_for_chain_fits (es es' : EntitySetter.t) (ents ents' : list (nat * Entity.t))
      (n : string) (ty : EntityType) (p : nat) :
  fits es ents -> set_for_chain es ents n ty = (p, es', ents') ->
  fits es' ents' /\ p ∈ addrs ents'
  /\ exists new, ents' = ents ++ new /\ Forall no_sequence new.
Proof.
  intros (Hnd & Hlt & Hmap) H. unfold set_for_chain in H.
  destruct (chain_to_ent_ es !! n) as [q|] eqn:E.
  - injection H as <- <- <-. split; [repeat split; assumption|].
    split; [eapply Hmap; exact E|]. exists []. rewrite app_nil_r. split; [reflexivity|constructor].
  - injection H as <- <- <-. unfold fits, addrs. simpl. rewrite !map_app. simpl.
    split; [split; [|split]|split].
    + apply NoDup_app. split; [assumption|]. split; [|apply NoDup_singleton].
      intros q Hq Hq'. apply list_elem_of_singleton in Hq'. subst q. apply Hlt in Hq. lia.
    + intros q Hq. apply elem_of_app in Hq. destruct Hq as [Hq|Hq].
      * apply Hlt in Hq. lia.
      * apply list_elem_of_singleton in Hq. lia.
    + intros n' q Hq. apply elem_of_app.
      destruct (decide (n' = n)) as [->|Hne].
      * rewrite lookup_insert_eq in Hq. injection Hq as <-. right. apply list_elem_of_singleton. reflexivity.
      * rewrite lookup_insert_ne in Hq by congruence. left. eapply Hmap. exact Hq.
    + apply elem_of_app. right. apply list_elem_of_singleton. reflexivity.
    + eexists. split; [reflexivity|]. repeat constructor.
Qed.

Section chains.
Context {D : Type}.

Lemma set_chain_entities_fits (chains chains' : list (Chain.t D))
      (es es' : EntitySetter.t) (ents ents' : list (nat * Entity.t)) :
  fits es ents -> set_chain_entities es ents chains = (es', ents', chains') ->
  fits es' ents'
  /\ (exists new, ents' = ents ++ new /\ Forall no_sequence new)
  /\ forall ch, ch ∈ chains' -> exists p, Chain.entity ch = Some p /\ p ∈ addrs ents'.
Proof.
  revert chains' es ents. induction chains as [|ch chains IH]; intros chains' es ents Hfit; simpl.
  - intros [= <- <- <-]. split; [assumption|]. split.
    + exists []. rewrite app_nil_r. split; [reflexivity|constructor].
    + intros ch Hch. inversion Hch.
  - destruct (set_for_chain es ents (Chain.name ch) Unknown) as [[p es1] ents1] eqn:E1.
    destruct (set_chain_entities es1 ents1 chains) as [[es2 ents2] chains2] eqn:E2.
    intros [= <- <- <-].
    destruct (set_for_chain_fits _ _ _ _ _ _ _ Hfit E1) as (Hfit1 & Hp & new1 & -> & Hn1).
    destruct (IH _ _ _ Hfit1 E2) as (Hfit2 & (new2 & -> & Hn2) & Hch2).
    split; [assumption|]. split.
    + exists (new1 ++ new2). rewrite app_assoc. split; [reflexivity|].
      apply Forall_app. split; assumption.
    + intros c Hc. apply elem_of_cons in Hc. destruct Hc as [->|Hc]; [|apply Hch2; exact Hc].
      exists p. split; [reflexivity|]. unfold addrs in *. rewrite map_app.
      apply elem_of_app. left. exact Hp.
Qed.

Lemma set_model_entities_fits (models models' : list (Model.t D))
      (es es' : EntitySetter.t) (ents ents' : list (nat * Entity.t)) :
  fits es ents -> set_model_entities es ents models = (es', ents', models') ->
  fits es' ents'
  /\ (exists new, ents' = ents ++ new /\ Forall no_sequence new)
  /\ forall md ch, md ∈ models' -> ch ∈ Model.chains md ->
        exists p, Chain.entity ch = Some p /\ p ∈ addrs ents'.
Proof.
  revert models' es ents. induction models as [|md models IH]; intros models' es ents Hfit; simpl.
  - intros [= <- <- <-]. split; [assumption|]. split.
    + exists []. rewrite app_nil_r. split; [reflexivity|constructor].
    + intros md ch Hmd. inversion Hmd.
  - destruct (set_chain_entities es ents (Model.chains md)) as [[es1 ents1] chains1] eqn:E1.
    destruct (set_model_entities es1 ents1 models) as [[es2 ents2] models2] eqn:E2.
    intros [= <- <- <-].
    destruct (set_chain_entities_fits _ _ _ _ _ _ Hfit E1) as (Hfit1 & (new1 & -> & Hn1) & Hch1).
    destruct (IH _ _ _ Hfit1 E2) as (Hfit2 & (new2 & -> & Hn2) & Hch2).
    split; [assumption|]. split.
    + exists (new1 ++ new2). rewrite app_assoc. split; [reflexivity|].
      apply Forall_app. split; assumption.
    + intros m c Hm Hc. apply elem_of_cons in Hm.
      destruct Hm as [->|Hm]; [|eapply Hch2; eassumption].
      simpl in Hc. destruct (Hch1 c Hc) as (p & Hp & Hin). exists p. split; [assumption|].
      unfold addrs in *. rewrite map_app. apply elem_of_app. left. exact Hin.
Qed.

End chains.

(** Every address has a representative that is in the list and represents itself. *)
Lemma rep_in (ents : list (nat * Entity.t)) (p0 : nat) :
  NoDup (addrs ents) -> p0 ∈ addrs ents ->
  exists e, (rep ents p0, e) ∈ ents /\ rep ents (rep ents p0) = rep ents p0.
Proof.
  intros Hnd Hp. unfold addrs in Hp. apply list_elem_of_fmap in Hp.
  destruct Hp as ([p e0] & -> & Hin). simpl.
  destruct (Entity.sequence e0) as [|x q] eqn:Eq.
  - destruct (rep_empty ents p e0 Hnd Hin Eq) as [Hr _]. rewrite Hr. eauto.
  - destruct (rep_first ents p e0 Hnd Hin) as (k & p' & e' & Hk & _ & _ & Hr & Hr');
      [rewrite Eq; discriminate|].
    rewrite Hr. exists e'. split; [eapply list_elem_of_lookup_2; exact Hk|exact Hr'].
Qed.

Lemma merge_entities_fits (es : EntitySetter.t) (ents : list (nat * Entity.t)) :
  fits es ents ->
  fits (EntitySetter.mk (snd (merge_entities ents (chain_to_ent_ es))) (next_addr es))
       (fst (merge_entities ents (chain_to_ent_ es))).
Proof.
  intros (Hnd & Hlt & Hmap). unfold merge_entities.
  destruct (merge_loop_spec (length ents) ents (chain_to_ent_ es) (le_n _) Hnd) as [He Hm].
  rewrite He. split; [|split]; simpl.
  - apply NoDup_addrs_filter. exact Hnd.
  - intros p Hp. apply Hlt. eapply addrs_filter. exact Hp.
  - intros n p Hp. rewrite Hm in Hp.
    destruct (chain_to_ent_ es !! n) as [p0|] eqn:E; [|discriminate]. injection Hp as <-.
    destruct (rep_in ents p0 Hnd (Hmap _ _ E)) as (e & Hin & Hr).
    apply (elem_addrs _ (rep ents p0, e)). apply elem_of_filter_bool. split; [exact Hin|].
    simpl. rewrite Hr. apply Nat.eqb_refl.
Qed.

Lemma set_ids_addrs (ents : list (nat * Entity.t)) (serial : Z) :
  addrs (set_ids serial ents) = addrs ents.
Proof.
  revert serial. induction ents as [|[p e] ents IH]; intros serial; simpl; [reflexivity|].
  f_equal. apply IH.
Qed.

Lemma set_ids_inv (ents : list (nat * Entity.t)) (serial : Z) (k p : nat) (e' : Entity.t) :
  set_ids serial ents !! k = Some (p, e') ->
  exists e, ents !! k = Some (p, e)
            /\ e' = Entity.with_id e (to_string (serial + Z.of_nat k)).
Proof.
  revert serial k. induction ents as [|[q e] ents IH]; intros serial k; simpl; [discriminate|].
  destruct k as [|k]; simpl.
  - intros [= <- <-]. exists e. split; [reflexivity|]. do 2 f_equal. lia.
  - intros H. apply IH in H. destruct H as (e0 & H0 & ->). exists e0. split; [exact H0|].
    do 2 f_equal. lia.
Qed.


(** [std::to_string] gives different strings for different positive numbers. *)
Lemma to_string_inj (x y : Z) : (0 < x)%Z -> (0 < y)%Z -> to_string x = to_string y -> x = y.
Proof.
  intros Hx Hy H. unfold to_string in H.
  assert (forall z, (0 < z)%Z ->
            DecimalString.NilZero.int_of_string
              (DecimalString.NilZero.string_of_int (Z.to_int z)) = Some (Z.to_int z)) as Hisi.
  { intros z Hz. apply DecimalString.NilZero.isi; destruct z as [|p|p]; try lia; simpl.
    - intros [= E]. exact (DecimalPos.Unsigned.to_uint_nonnil p E).
    - discriminate. }
  pose proof (Hisi x Hx) as H1. rewrite H, (Hisi y Hy) in H1. injection H1 as H1.
  rewrite <- (DecimalZ.of_to x), <- (DecimalZ.of_to y). congruence.
Qed.

Lemma filter_lookup {A} (P : A -> bool) (l : list A) (j : nat) (y : A) :
  List.filter P l !! j = Some y -> exists j0, l !! j0 = Some y /\ P y = true.
Proof.
  intros H. apply list_elem_of_lookup_2 in H. apply elem_of_filter_bool in H.
  destruct H as [H HP]. apply list_elem_of_lookup_1 in H. destruct H as [j0 H]. eauto.
Qed.

Lemma filter_lookup_lt {A} (P : A -> bool) (l : list A) (i j : nat) (x y : A) :
  i < j -> List.filter P l !! i = Some x -> List.filter P l !! j = Some y ->
  exists i0 j0, i0 < j0 /\ l !! i0 = Some x /\ l !! j0 = Some y.
Proof.
  revert i j. induction l as [|a l IH]; intros i j Hij; simpl; [discriminate|].
  destruct (P a).
  - destruct i as [|i], j as [|j]; simpl; try lia.
    + intros [= <-] Hy. apply filter_lookup in Hy. destruct Hy as (j0 & Hy & _).
      exists 0, (S j0). split; [lia|]. split; [reflexivity|exact Hy].
    + intros Hx Hy. destruct (IH i j) as (i0 & j0 & ? & ? & ?); [lia|assumption|assumption|].
      exists (S i0), (S j0). split; [lia|]. split; assumption.
  - intros Hx Hy. destruct (IH i j Hij Hx Hy) as (i0 & j0 & ? & ? & ?).
    exists (S i0), (S j0). split; [lia|]. split; assumption.
Qed.

(** Of two entities that represent themselves the later one has another
    sequence, or none. *)
Lemma self_rep_distinct (ents : list (nat * Entity.t)) (i0 j0 : nat) (x y : nat * Entity.t) :
  NoDup (addrs ents) -> i0 < j0 -> ents !! i0 = Some x -> ents !! j0 = Some y ->
  rep ents (fst y) = fst y ->
  Entity.sequence (snd x) = Entity.sequence (snd y) -> Entity.sequence (snd x) = [].
Proof.
  intros Hnd Hij Hx Hy Hr Heq. destruct y as [pj ej]. simpl in *.
  destruct (Entity.sequence ej) as [|m q] eqn:Ej; [exact Heq|exfalso].
  destruct (rep_first ents pj ej Hnd) as (k & p & e & Hk & _ & Hfirst & Hrp & _);
    [eapply list_elem_of_lookup_2; exact Hy|rewrite Ej; discriminate|].
  rewrite Hr in Hrp. subst p.
  assert (k = j0) as ->.
  { eapply NoDup_lookup; [exact Hnd| |]; unfold addrs; rewrite list_lookup_fmap.
    - rewrite Hk. reflexivity.
    - rewrite Hy. reflexivity. }
  apply (Hfirst i0 x Hij Hx). rewrite Ej. exact Heq.
Qed.

Section finalize.
Context {D : Type}.

(** What [finalize] leaves, for a resolver that fits. *)
Lemma finalize_fits (es es' : EntitySetter.t) (ents ents' : list (nat * Entity.t))
      (models models' : list (Model.t D)) :
  fits es ents -> finalize es ents models = (es', ents', models') ->
  fits es' ents'
  /\ (forall md ch, md ∈ models' -> ch ∈ Model.chains md ->
         exists p, Chain.entity ch = Some p /\ p ∈ addrs ents')
  /\ forall i j x y, i < j -> ents' !! i = Some x -> ents' !! j = Some y ->
        Entity.sequence (snd x) = Entity.sequence (snd y) -> Entity.sequence (snd x) = [].
Proof.
  intros Hfit H. unfold finalize in H.
  pose proof (merge_entities_fits es ents Hfit) as Hfit1.
  destruct Hfit as (Hnd & Hlt & Hmap).
  pose proof (merge_loop_spec (length ents) ents (chain_to_ent_ es) (le_n _) Hnd) as [He _].
  fold (merge_entities ents (chain_to_ent_ es)) in He.
  destruct (merge_entities ents (chain_to_ent_ es)) as [ents1 m1]. simpl in He, Hfit1.
  destruct (set_model_entities _ ents1 models) as [[es2 ents2] models2] eqn:E2.
  injection H as <- <- <-.
  destruct (set_model_entities_fits _ _ _ _ _ _ Hfit1 E2) as (Hfit2 & (new & -> & Hnew) & Hch).
  split; [|split].
  - unfold fits. rewrite set_ids_addrs. exact Hfit2.
  - intros md ch Hmd Hc. rewrite set_ids_addrs. eapply Hch; eassumption.
  - intros i j [pi ei] [pj ej] Hij Hi Hj. simpl.
    apply set_ids_inv in Hi, Hj. destruct Hi as (ei0 & Hi & ->). destruct Hj as (ej0 & Hj & ->).
    simpl. intros Heq.
    destruct (lookup_app_Some ents1 new j (pj, ej0)) as [Hcase _].
    destruct (Hcase Hj) as [Hj1|[Hlen Hj2]].
    + assert (ents1 !! i = Some (pi, ei0)) as Hi1.
      { rewrite lookup_app_l in Hi; [exact Hi|]. apply lookup_lt_Some in Hj1. lia. }
      rewrite He in Hi1, Hj1.
      destruct (filter_lookup_lt _ _ _ _ _ _ Hij Hi1 Hj1) as (i0 & j0 & Hlt0 & Hi0 & Hj0).
      apply filter_lookup in Hj1. destruct Hj1 as (_ & _ & Hself). simpl in Hself.
      apply Nat.eqb_eq in Hself.
      exact (self_rep_distinct ents i0 j0 (pi, ei0) (pj, ej0) Hnd Hlt0 Hi0 Hj0 Hself Heq).
    + rewrite Forall_lookup in Hnew. pose proof (Hnew _ _ Hj2) as Hn. unfold no_sequence in Hn.
      simpl in Hn. congruence.
Qed.

End finalize.


Section reader.
Import Reader.
Context {D : Type} {ops : DoubleOps D}.

Definition reader_fits (s : Reader.t D) : Prop :=
  fits (ent_setter s) (Structure.entities (st s)).

Lemma same_entities_fits (s s' : Reader.t D) :
  same_entities s s' -> reader_fits s -> reader_fits s'.
Proof. intros [He Hs]. unfold reader_fits. rewrite He, Hs. auto. Qed.

Lemma read_monomers_fits (es : EntitySetter.t) (l : list ascii) (columns : list nat)
      (ents ents' : list (nat * Entity.t)) (ent : nat) :
  read_monomers l columns ents ent = Ok ents' -> fits es ents -> fits es ents'.
Proof.
  intros H. apply read_monomers_addrs in H. unfold fits. rewrite H. auto.
Qed.

Lemma on_seqres_fits (s s' : Reader.t D) :
  reader_fits s -> on_seqres s = Ok s' -> reader_fits s'.
Proof.
  intros Hfit H. unfold on_seqres in H.
  apply bind_Ok in H. destruct H as (chain_name & _ & H).
  destruct (set_for_chain _ _ chain_name Polymer) as [[ent es1] ents1] eqn:E.
  apply bind_Ok in H. destruct H as (ents' & He & H). injection H as <-.
  destruct (set_for_chain_fits _ _ _ _ _ _ _ Hfit E) as (Hfit1 & _).
  unfold reader_fits. simpl. eapply read_monomers_fits; eassumption.
Qed.

Lemma process_line_fits (s s' : Reader.t D) (raw : list ascii) (go_on : bool) :
  reader_fits s -> process_line s raw = Ok (go_on, s') -> reader_fits s'.
Proof.
  intros Hinv H. unfold process_line in H.
  destruct (copy_line_from_stream (line s) raw) as [l len].
  destruct (len =? 0)%nat; [injection H as <- <-; exact Hinv|].
  apply bind_Ok in H. destruct H as (k & _ & H).
  set (s0 := with_line s l (line_num s + 1)%Z) in *.
  assert (reader_fits s0) as Hinv0 by exact Hinv.
  destruct k; try (injection H as <- <-; exact Hinv0);
    apply bind_Ok in H; destruct H as (s1 & Hs1 & H); injection H as <- <-.
  - eapply same_entities_fits; [eapply on_atom_entities|]; eassumption.
  - eapply same_entities_fits; [eapply on_anisou_entities|]; eassumption.
  - eapply on_seqres_fits; eassumption.
  - eapply same_entities_fits; [eapply on_cryst1_entities|]; eassumption.
  - eapply same_entities_fits; [eapply on_mtrix_entities|]; eassumption.
  - eapply same_entities_fits; [eapply on_model_entities|]; eassumption.
  - eapply same_entities_fits; [eapply on_ter_entities|]; eassumption.
  - eapply same_entities_fits; [eapply on_scale_entities|]; eassumption.
  - eapply same_entities_fits; [eapply on_origx_entities|]; eassumption.
  - eapply same_entities_fits; [eapply on_conn_entities|]; eassumption.
  - eapply same_entities_fits; [eapply on_conn_entities|]; eassumption.
Qed.

Lemma initial_fits : reader_fits (initial (D := D)).
Proof.
  split; [apply NoDup_nil_2|]. split; [intros p Hp; inversion Hp|].
  intros n p Hp. simpl in Hp. rewrite lookup_empty in Hp. discriminate.
Qed.

Lemma read_loop_fits (input : list (list ascii)) (s s' : Reader.t D) :
  reader_fits s -> read_loop s input = Ok s' -> reader_fits s'.
Proof.
  revert s. induction input as [|raw input IH]; intros s Hinv; simpl.
  - intros [= <-]. assumption.
  - intros H. apply bind_Ok in H. destruct H as ([go_on s1] & Hp & H).
    pose proof (process_line_fits _ _ _ _ Hinv Hp) as Hinv1.
    destruct go_on; [apply (IH s1); assumption|].
    injection H as <-. assumption.
Qed.

End reader.

(** X7: when the reader's loop has ended and [finalize] has run, no pointer
    to an entity dangles: the entities in the list have distinct addresses,
    every chain of every model points to an entity of the list, and so does
    every chain name the resolver knows. *)
Theorem finalize_no_dangling {D : Type} {ops : DoubleOps D}
        (input : list (list ascii)) (s : Reader.t D)
        (es' : EntitySetter.t) (ents' : list (nat * Entity.t)) (models' : list (Model.t D)) :
  Reader.read_loop Reader.initial input = Ok s ->
  finalize (Reader.ent_setter s) (Structure.entities (Reader.st s))
           (Structure.models (Reader.st s)) = (es', ents', models') ->
  NoDup (addrs ents')
  /\ (forall md ch, md ∈ models' -> ch ∈ Model.chains md ->
         exists p e, Chain.entity ch = Some p /\ (p, e) ∈ ents')
  /\ (forall n p, chain_to_ent_ es' !! n = Some p -> exists e, (p, e) ∈ ents').
Proof.
  intros Hrun Hfin.
  pose proof (read_loop_fits _ _ _ initial_fits Hrun) as Hfit.
  destruct (finalize_fits _ _ _ _ _ _ Hfit Hfin) as ((Hnd & _ & Hmap) & Hch & _).
  assert (forall p, p ∈ addrs ents' -> exists e, (p, e) ∈ ents') as Hin.
  { intros p Hp. unfold addrs in Hp. apply list_elem_of_fmap in Hp.
    destruct Hp as ([q e] & -> & Hp). eauto. }
  split; [exact Hnd|]. split.
  - intros md ch Hmd Hc. destruct (Hch md ch Hmd Hc) as (p & Hp & Hpin).
    destruct (Hin p Hpin) as [e He]. eauto.
  - intros n p Hp. apply Hin. eapply Hmap. exact Hp.
Qed.

(** X8: when the reader's loop has ended and [finalize] has run, two entities
    left in the list have one sequence only when it is empty: all entities
    that could be merged were merged. *)
Theorem finalize_distinct_sequences {D : Type} {ops : DoubleOps D}
        (input : list (list ascii)) (s : Reader.t D)
        (es' : EntitySetter.t) (ents' : list (nat * Entity.t)) (models' : list (Model.t D))
        (i j : nat) (x y : nat * Entity.t) :
  Reader.read_loop Reader.initial input = Ok s ->
  finalize (Reader.ent_setter s) (Structure.entities (Reader.st s))
           (Structure.models (Reader.st s)) = (es', ents', models') ->
  i <> j -> ents' !! i = Some x -> ents' !! j = Some y ->
  Entity.sequence (snd x) = Entity.sequence (snd y) ->
  Entity.sequence (snd x) = [] /\ Entity.sequence (snd y) = [].
Proof.
  intros Hrun Hfin Hij Hi Hj Heq.
  pose proof (read_loop_fits _ _ _ initial_fits Hrun) as Hfit.
  destruct (finalize_fits _ _ _ _ _ _ Hfit Hfin) as (_ & _ & Hseq).
  destruct (Nat.lt_trichotomy i j) as [Hlt|[->|Hlt]]; [|congruence|].
  - pose proof (Hseq i j x y Hlt Hi Hj Heq) as H. split; congruence.
  - pose proof (Hseq j i y x Hlt Hj Hi (eq_sym Heq)) as H. split; congruence.
Qed.

(** X9: [finalize] numbers the entities it leaves by their place in the list,
    from "1" on, so that no two of them have one id. *)
Theorem finalize_ids {D : Type}
        (es es' : EntitySetter.t) (ents ents' : list (nat * Entity.t))
        (models models' : list (Model.t D)) :
  finalize es ents models = (es', ents', models') ->
  (forall k p e, ents' !! k = Some (p, e) -> Entity.id e = to_string (1 + Z.of_nat k))
  /\ (forall k k' p p' e e', ents' !! k = Some (p, e) -> ents' !! k' = Some (p', e') ->
                             Entity.id e = Entity.id e' -> k = k').
Proof.
  intros H. unfold finalize in H.
  destruct (merge_entities ents (chain_to_ent_ es)) as [ents1 m1].
  destruct (set_model_entities _ ents1 models) as [[es2 ents2] models2].
  injection H as <- <- <-.
  assert (forall k p e, set_ids 1 ents2 !! k = Some (p, e) ->
                        Entity.id e = to_string (1 + Z.of_nat k)) as Hid.
  { intros k p e Hk. apply set_ids_inv in Hk. destruct Hk as (e0 & _ & ->). reflexivity. }
  split; [exact Hid|].
  intros k k' p p' e e' Hk Hk' Heq. rewrite (Hid _ _ _ Hk), (Hid _ _ _ Hk') in Heq.
  apply to_string_inj in Heq; lia.
Qed.

(** [set_for_chain] returns for a chain name the entity it returned before:
    a second call, whatever type it asks for, gives the same entity and
    changes neither the map nor the list. *)
Lemma set_for_chain_again (es es' : EntitySetter.t) (ents ents' : list (nat * Entity.t))
        (n : string) (ty ty' : EntityType) (p : nat) :
  set_for_chain es ents n ty = (p, es', ents') ->
  chain_to_ent_ es' !! n = Some p
  /\ set_for_chain es' ents' n ty' = (p, es', ents').
Proof.
  unfold set_for_chain. destruct (chain_to_ent_ es !! n) as [q|] eqn:E.
  - intros [= <- <- <-]. rewrite E. auto.
  - intros [= <- <- <-]. simpl. rewrite lookup_insert_eq. auto.
Qed.

(** The chains A and B of [two_chains], after [finalize]. *)
Lemma finalize_no_dangling_witness :
  NoDup (addrs (snd (fst two_chains_final)))
  /\ (forall md ch, md ∈ snd two_chains_final -> ch ∈ Model.chains md ->
         exists p e, Chain.entity ch = Some p /\ (p, e) ∈ snd (fst two_chains_final))
  /\ (forall n p, chain_to_ent_ (fst (fst two_chains_final)) !! n = Some p ->
         exists e, (p, e) ∈ snd (fst two_chains_final)).
Proof.
  apply (finalize_no_dangling (ops := Float64 no_libm) two_chains two_chains_state);
    vm_compute; reflexivity.
Defined.

(** Two chains that no SEQRES record names: [finalize] gives each an entity of
    its own, and both sequences are empty. *)
Definition unsequenced : list (list ascii) :=
  [MatrixProofs.pdb_line "ATOM      1  N   ALA A   1      11.104   6.134  -6.504  1.00  0.00           N  ";
   MatrixProofs.pdb_line "ATOM      4  N   ALA B   1       1.000   2.000   3.000  1.00  0.00           N  "].

Definition unsequenced_state : Reader.t float :=
  match Reader.read_loop (ops := Float64 no_libm) (Reader.initial (ops := Float64 no_libm))
                         unsequenced with
  | Ok s => s
  | _ => Reader.initial (ops := Float64 no_libm)
  end.

Definition unsequenced_final
  : EntitySetter.t * list (nat * Entity.t) * list (Model.t float) :=
  finalize (Reader.ent_setter unsequenced_state)
           (Structure.entities (Reader.st unsequenced_state))
           (Structure.models (Reader.st unsequenced_state)).

Definition unknown_entity (id : string) : Entity.t := Entity.mk id Unknown NA [].

Lemma finalize_distinct_sequences_witness :
  snd (fst unsequenced_final) = [(0, unknown_entity "1"); (1, unknown_entity "2")]
  /\ Entity.sequence (snd (0, unknown_entity "1")) = []
  /\ Entity.sequence (snd (1, unknown_entity "2")) = [].
Proof.
  split; [vm_compute; reflexivity|].
  apply (finalize_distinct_sequences (ops := Float64 no_libm) unsequenced unsequenced_state
           (fst (fst unsequenced_final)) (snd (fst unsequenced_final)) (snd unsequenced_final)
           0 1);
    try (vm_compute; reflexivity); discriminate.
Defined.

Lemma finalize_ids_witness :
  (forall k p e, snd (fst two_chains_final) !! k = Some (p, e) ->
                 Entity.id e = to_string (1 + Z.of_nat k))
  /\ (forall k k' p p' e e',
         snd (fst two_chains_final) !! k = Some (p, e) ->
         snd (fst two_chains_final) !! k' = Some (p', e') ->
         Entity.id e = Entity.id e' -> k = k').
Proof.
  apply (finalize_ids (Reader.ent_setter two_chains_state) (fst (fst two_chains_final))
           (Structure.entities (Reader.st two_chains_state)) (snd (fst two_chains_final))
           (Structure.models (Reader.st two_chains_state)) (snd two_chains_final)).
  vm_compute; reflexivity.
Defined.

End EntityFacts.

(** ** The reader never leaves its buffer and never follows a stale pointer *)

Module Safety.
Import pdb_impl pdb_num Reader ScannerBounds.
Local Open Scope nat_scope.

(** [o] is no [Fault], and a value it returns satisfies [Q]. *)
Definition safely {A} (o : outcome A) (Q : A -> Prop) : Prop :=
  match o with
  | Ok a => Q a
  | Raise _ => True
  | Fault => False
  end.

Lemma safely_bind {A B} (m : outcome A) (f : A -> outcome B) (P : A -> Prop) (Q : B -> Prop) :
  safely m P -> (forall a, P a -> safely (f a) Q) -> safely (m ≫= f) Q.
Proof. destruct m; simpl; auto. Qed.

Lemma safely_scan {A} (o : option A) (Q : A -> Prop) :
  is_Some o -> (forall a, o = Some a -> Q a) -> safely (scan o) Q.
Proof. intros [a ->] H. simpl. auto. Qed.

Lemma safely_any {A} (o : option A) : is_Some o -> safely (scan o) (fun _ => True).
Proof. intros [a ->]. exact I. Qed.

Lemma safely_weaken {A} (o : outcome A) (P Q : A -> Prop) :
  safely o P -> (forall a, P a -> Q a) -> safely o Q.
Proof. destruct o; simpl; auto. Qed.


(** *** The scanners on the line buffer *)

Section scanners.
Context {D : Type} {ops : DoubleOps D}.
Variable l : list ascii.
Hypothesis line_length : length l = 88.

Lemma line_byte (i : nat) : i < 88 -> is_Some (l !! i).
Proof. intros Hi. apply lookup_lt_is_Some_2. lia. Qed.

Lemma line_string (k n : nat) : k + n <= 88 -> is_Some (read_string (drop k l) n).
Proof. intros H. apply read_string_Some. rewrite length_drop. lia. Qed.

Lemma line_int (k n : nat) : k + n < 88 -> is_Some (read_int (drop k l) n).
Proof. intros H. apply read_int_Some. rewrite length_drop. lia. Qed.

Lemma line_double (k n : nat) : k + n < 88 -> is_Some (read_double (drop k l) n).
Proof. intros H. apply read_double_Some. rewrite length_drop. lia. Qed.

Lemma line_snic (k : nat) : k + 4 < 88 -> is_Some (read_snic (drop k l)).
Proof.
  intros H. unfold read_snic.
  assert (4 < length (drop k l)) as Hlen by (rewrite length_drop; lia).
  destruct (lookup_lt_is_Some_2 (drop k l) 0) as [s0 ->]; [lia|]. simpl.
  destruct (lookup_lt_is_Some_2 (drop k l) 4) as [s4 H4]; [lia|].
  destruct (Char.val s0 <? Char.val "A")%Z.
  - destruct (read_int_Some (drop k l) 4 Hlen) as [n ->]. simpl. rewrite H4. simpl. eauto.
  - unfold read_base36. rewrite memcpy_spec by lia. simpl. rewrite H4. simpl. eauto.
Qed.

Lemma line_record_type : safely (record_type l) (fun _ => True).
Proof.
  unfold record_type.
  assert (forall tests, Forall (fun rk => 4 <= length (literal (fst rk))) tests ->
                        safely (first_record l tests) (fun _ => True)) as H.
  { induction tests as [|[r k] tests IH]; intros Ht; simpl; [exact I|].
    apply Forall_cons in Ht. destruct Ht as [Hr Ht]. simpl in Hr.
    unfold is_record_type.
    destruct (line_byte 0) as [s0 ->]; [lia|]. destruct (line_byte 1) as [s1 ->]; [lia|].
    destruct (line_byte 2) as [s2 ->]; [lia|]. destruct (line_byte 3) as [s3 ->]; [lia|].
    destruct (lookup_lt_is_Some_2 (literal r) 0) as [r0 ->]; [lia|].
    destruct (lookup_lt_is_Some_2 (literal r) 1) as [r1 ->]; [lia|].
    destruct (lookup_lt_is_Some_2 (literal r) 2) as [r2 ->]; [lia|].
    destruct (lookup_lt_is_Some_2 (literal r) 3) as [r3 ->]; [lia|].
    simpl. destruct (_ =? _)%Z; [exact I|apply IH; exact Ht]. }
  apply H. unfold record_tests. repeat constructor; simpl; lia.
Qed.

End scanners.

Lemma copy_line_length (l raw : list ascii) :
  length l = 88 -> length (fst (copy_line_from_stream l raw)) = 88.
Proof.
  intros Hl. unfold copy_line_from_stream. cbv zeta. cbn [fst].
  rewrite length_app, length_drop, !length_app, length_take.
  change (length [Char.NUL]) with 1. lia.
Qed.


Section with_double.
Context {D : Type} {ops : DoubleOps D}.

Definition valid_chain (x : Structure.t D) (cp : nat * nat) : Prop :=
  exists ch, deref_chain x cp = Ok ch.
Definition valid_resi (x : Structure.t D) (rp : nat * nat * nat) : Prop :=
  exists r, deref_resi x rp = Ok r.

(** The invariant of the loop: the line buffer has its 88 bytes, and the
    pointers that the handlers follow lead to a model, a chain in [model] and
    a residue in [chain]. *)
Definition safe (s : Reader.t D) : Prop :=
  length (line s) = 88
  /\ (forall mi, model s = Some mi -> is_Some (Structure.models (st s) !! mi))
  /\ (forall cp, chain s = Some cp ->
         model s = Some (fst cp) /\ valid_chain (st s) cp
         /\ forall rp, resi s = Some rp -> fst rp = cp /\ valid_resi (st s) rp).

Lemma store_chain_ok (x : Structure.t D) (cp : nat * nat) (ch0 ch : Chain.t D) :
  deref_chain x cp = Ok ch0 ->
  exists x', store_chain x cp ch = Ok x' /\ deref_chain x' cp = Ok ch
             /\ length (Structure.models x') = length (Structure.models x).
Proof.
  unfold deref_chain, deref_model, store_chain. intros H.
  destruct (Structure.models x !! cp.1) as [m|] eqn:Em; simpl in H; [|discriminate].
  destruct (Model.chains m !! cp.2) as [c|] eqn:Ec; simpl in H; [|discriminate].
  unfold deref_model. rewrite Em. simpl. eexists. split; [reflexivity|]. simpl. split.
  - rewrite list_lookup_insert_eq by (eapply lookup_lt_Some; eassumption). simpl.
    rewrite list_lookup_insert_eq by (eapply lookup_lt_Some; eassumption). reflexivity.
  - apply length_insert.
Qed.

Lemma store_resi_ok (x : Structure.t D) (rp : nat * nat * nat) (r0 r : Residue.t D) :
  deref_resi x rp = Ok r0 ->
  exists x', store_resi x rp r = Ok x' /\ deref_resi x' rp = Ok r
             /\ valid_chain x' (fst rp)
             /\ length (Structure.models x') = length (Structure.models x).
Proof.
  intros H. unfold deref_resi in H.
  destruct (deref_chain x rp.1) as [ch| |] eqn:Ec; simpl in H; try discriminate.
  destruct (Chain.residues ch !! rp.2) as [r1|] eqn:Er; simpl in H; [|discriminate].
  unfold store_resi. rewrite Ec. simpl.
  destruct (store_chain_ok x rp.1 ch
              (Chain.mk (Chain.name ch) (Chain.auth_name ch) (Chain.entity ch)
                        (<[rp.2 := r]> (Chain.residues ch))) Ec) as (x' & Hs & Hd & Hl).
  exists x'. split; [exact Hs|]. split; [|split; [eexists; exact Hd|exact Hl]].
  unfold deref_resi. rewrite Hd. simpl.
  rewrite list_lookup_insert_eq by (eapply lookup_lt_Some; eassumption). reflexivity.
Qed.

Lemma models_length_Some (x x' : Structure.t D) (mi : nat) :
  length (Structure.models x') = length (Structure.models x) ->
  is_Some (Structure.models x !! mi) -> is_Some (Structure.models x' !! mi).
Proof.
  intros Hl H. apply lookup_lt_is_Some_2. apply lookup_lt_is_Some_1 in H. lia.
Qed.

Lemma find_or_add_model_valid (ms ms' : list (Model.t D)) (n : string) (mi : nat) :
  Structure.find_or_add_model ms n = (ms', mi) ->
  is_Some (ms' !! mi).
Proof.
  unfold Structure.find_or_add_model.
  destruct (Chain.find_index _ ms) as [i|] eqn:E.
  - intros [= <- <-]. apply ChainProofs.find_index_Some in E. destruct E as (m & -> & _). eauto.
  - intros [= <- <-]. rewrite lookup_app_r, Nat.sub_diag by lia. simpl. eauto.
Qed.

Lemma find_or_add_residue_valid (ch ch' : Chain.t D) (rid : ResidueId.t) (ri : nat) :
  Chain.find_or_add_residue ch rid = (ch', ri) -> is_Some (Chain.residues ch' !! ri).
Proof.
  unfold Chain.find_or_add_residue.
  destruct (Chain.find_index _ _) as [i|] eqn:E.
  - intros [= <- <-]. apply ChainProofs.find_index_Some in E. destruct E as (m & -> & _). eauto.
  - intros [= <- <-]. simpl. rewrite lookup_app_r, Nat.sub_diag by lia. simpl. eauto.
Qed.

(** *** ATOM and HETATM *)

Lemma open_chain_safe (s : Reader.t D) (mi : nat) (chain_name : string) :
  safe s -> model s = Some mi ->
  safely (m ← deref_model (st s) mi;
          let ter := in_vector (Model.name m +:+ "/" +:+ chain_name) (has_ter s) in
          let '(m, ci) :=
            Model.find_or_add_chain m (chain_name +:+ (if ter then "_H" else "")) in
          ch ← scan (Model.chains m !! ci);
          let ch := Chain.mk (Chain.name ch) chain_name (Chain.entity ch) (Chain.residues ch) in
          let m := Model.mk (Model.name m) (<[ci := ch]> (Model.chains m)) in
          Ok (with_resi
                (with_chain (with_st s (with_models (st s) (<[mi := m]> (Structure.models (st s)))))
                            (Some (mi, ci)))
                None))
         (fun s1 => safe s1 /\ is_Some (chain s1) /\ line s1 = line s).
Proof.
  intros (Hl & Hm & Hc) Em. destruct (Hm mi Em) as [m Hmi].
  unfold deref_model. rewrite Hmi. simpl.
  destruct (Model.find_or_add_chain m _) as [m' ci] eqn:Ef.
  apply ChainProofs.find_or_add_chain_spec in Ef. destruct Ef as (_ & ch & Hch & _).
  rewrite Hch. simpl.
  assert (mi < length (Structure.models (st s))) as Hlt by (eapply lookup_lt_Some; eassumption).
  assert (ci < length (Model.chains m')) as Hlt' by (eapply lookup_lt_Some; eassumption).
  split; [|split; [eauto|reflexivity]].
  split; [exact Hl|]. split.
  - intros mi' Hmi'. simpl. apply lookup_lt_is_Some_2. rewrite length_insert.
    apply lookup_lt_is_Some_1. apply Hm. exact Hmi'.
  - intros cp [= <-]. simpl. split; [exact Em|]. split; [|intros rp [=]].
    eexists. unfold deref_chain, deref_model. simpl.
    rewrite list_lookup_insert_eq by exact Hlt. simpl.
    rewrite list_lookup_insert_eq by exact Hlt'. reflexivity.
Qed.

Lemma select_chain_safe (s : Reader.t D) (chain_name : string) :
  safe s ->
  safely (select_chain s chain_name)
         (fun s1 => safe s1 /\ is_Some (chain s1) /\ line s1 = line s).
Proof.
  intros Hs. pose proof Hs as (Hl & Hm & Hc). unfold select_chain.
  destruct (chain s) as [cp|] eqn:Ec.
  - destruct (Hc cp eq_refl) as (Hmc & [ch Hch] & _). rewrite Hch. simpl.
    destruct (negb _).
    + rewrite Hmc. apply open_chain_safe; assumption.
    + simpl. rewrite Ec. eauto.
  - simpl. destruct (model s) as [mi|] eqn:Em; [|exact I].
    apply open_chain_safe; assumption.
Qed.

Lemma select_residue_safe (s : Reader.t D) (rid : ResidueId.t) :
  safe s -> is_Some (chain s) ->
  safely (select_residue s rid)
         (fun s2 => safe s2 /\ is_Some (resi s2) /\ is_Some (chain s2) /\ line s2 = line s).
Proof.
  intros Hs [cp Ec]. pose proof Hs as (Hl & Hm & Hc). unfold select_residue.
  rewrite Ec. simpl. destruct (Hc cp Ec) as (Hmc & [ch Hch] & Hr).
  assert (safely (ch ← deref_chain (st s) cp;
                  let '(ch, ri) := Chain.find_or_add_residue ch rid in
                  x ← store_chain (st s) cp ch;
                  Ok (with_resi (with_st s x) (Some (cp, ri))))
                 (fun s2 => safe s2 /\ is_Some (resi s2) /\ is_Some (chain s2)
                            /\ line s2 = line s)) as Hopen.
  { rewrite Hch. simpl.
    destruct (Chain.find_or_add_residue ch rid) as [ch' ri] eqn:Ef.
    apply find_or_add_residue_valid in Ef. destruct Ef as [r Hri].
    destruct (store_chain_ok (st s) cp ch ch' Hch) as (x' & -> & Hd & Hlen). simpl.
    split; [|split; [eauto|split; [rewrite Ec; eauto|reflexivity]]].
    split; [exact Hl|]. split.
    - intros mi Hmi. eapply models_length_Some; [exact Hlen|]. apply Hm. exact Hmi.
    - intros cp' Hcp'. simpl in Hcp'. rewrite Ec in Hcp'. injection Hcp' as <-.
      split; [exact Hmc|]. split; [eexists; exact Hd|].
      intros rp [= <-]. split; [reflexivity|]. exists r.
      unfold deref_resi. simpl. rewrite Hd. simpl. rewrite Hri. reflexivity. }
  destruct (resi s) as [rp|] eqn:Er; [|exact Hopen].
  destruct (Hr rp eq_refl) as (_ & [r Hdr]). rewrite Hdr. simpl.
  destruct (negb _); [exact Hopen|]. simpl. rewrite Er, Ec. eauto.
Qed.

Lemma read_charge_safe (digit sign : ascii) : safely (read_charge digit sign) (fun _ => True).
Proof.
  unfold read_charge. destruct (_ && _); [exact I|].
  destruct (Char.is_digit sign); (destruct (Char.is_digit _); [|exact I]);
    destruct (_ && _); exact I.
Qed.

Lemma parse_atom_safe (l : list ascii) (len : nat) :
  length l = 88 -> safely (parse_atom l len) (fun _ => True).
Proof.
  intros Hl. unfold parse_atom.
  eapply safely_bind; [apply safely_any, line_string; [exact Hl|lia]|intros name _].
  eapply safely_bind; [apply safely_any, line_byte; [exact Hl|lia]|intros c0 _].
  eapply safely_bind; [apply safely_any, line_byte; [exact Hl|lia]|intros c16 _].
  eapply safely_bind with (P := fun _ => True).
  { destruct (78 <? len); [|exact I].
    eapply safely_bind; [apply safely_any, line_byte; [exact Hl|lia]|intros c78 _].
    eapply safely_bind; [apply safely_any, line_byte; [exact Hl|lia]|intros c79 _].
    apply read_charge_safe. }
  intros charge _.
  eapply safely_bind; [apply safely_any, line_byte; [exact Hl|lia]|intros c76 _].
  eapply safely_bind; [apply safely_any, line_byte; [exact Hl|lia]|intros c77 _].
  eapply safely_bind; [apply safely_any, line_double; [exact Hl|lia]|intros x _].
  eapply safely_bind; [apply safely_any, line_double; [exact Hl|lia]|intros y _].
  eapply safely_bind; [apply safely_any, line_double; [exact Hl|lia]|intros z _].
  eapply safely_bind; [apply safely_any, line_double; [exact Hl|lia]|intros occ _].
  eapply safely_bind; [apply safely_any, line_double; [exact Hl|lia]|intros b_iso _].
  exact I.
Qed.

(** Writing a residue through the current residue pointer keeps the invariant. *)
Lemma store_current_safe (s : Reader.t D) (rp : nat * nat * nat) (r : Residue.t D) :
  safe s -> is_Some (chain s) -> resi s = Some rp ->
  safely (x ← store_resi (st s) rp r; Ok (with_st s x)) safe.
Proof.
  intros (Hl & Hm & Hc) [cp Ec] Er.
  destruct (Hc cp Ec) as (Hmc & _ & Hr). destruct (Hr rp Er) as (Hfst & [r0 Hd]).
  destruct (store_resi_ok (st s) rp r0 r Hd) as (x' & -> & Hd' & Hv & Hlen). simpl.
  split; [exact Hl|]. split.
  - intros mi Hmi. eapply models_length_Some; [exact Hlen|]. apply Hm. exact Hmi.
  - intros cp' Hcp'. simpl in Hcp'. rewrite Ec in Hcp'. injection Hcp' as <-.
    split; [exact Hmc|]. split; [rewrite <- Hfst; exact Hv|].
    intros rp' Hrp'. simpl in Hrp'. rewrite Er in Hrp'. injection Hrp' as <-.
    split; [exact Hfst|]. eexists. exact Hd'.
Qed.

Lemma on_atom_safe (s : Reader.t D) (len : nat) : safe s -> safely (on_atom s len) safe.
Proof.
  intros Hs. unfold on_atom. destruct (len <? 77); [exact I|].
  pose proof Hs as (Hl & _).
  eapply safely_bind; [apply safely_any, line_string; [exact Hl|lia]|intros chain_name _].
  eapply safely_bind; [apply select_chain_safe; exact Hs|].
  intros s1 (Hs1 & Hc1 & Hl1). pose proof Hs1 as (Hlen1 & _).
  eapply safely_bind; [apply safely_any, line_snic; [exact Hlen1|lia]|intros snic _].
  eapply safely_bind; [apply safely_any, line_string; [exact Hlen1|lia]|intros res_name _].
  eapply safely_bind; [apply safely_any, line_string; [exact Hlen1|lia]|intros segment _].
  eapply safely_bind; [apply select_residue_safe; assumption|].
  intros s2 (Hs2 & [rp Hr2] & Hc2 & Hl2). pose proof Hs2 as (Hlen2 & _ & Hcc).
  eapply safely_bind; [apply parse_atom_safe; exact Hlen2|intros atom _].
  rewrite Hr2. simpl.
  destruct Hc2 as [cp Ec]. destruct (Hcc cp Ec) as (_ & _ & Hrr).
  destruct (Hrr rp Hr2) as (_ & [r Hd]). rewrite Hd. simpl.
  apply store_current_safe; [exact Hs2|eauto|exact Hr2].
Qed.


(** *** The other records *)

Lemma on_anisou_safe (s : Reader.t D) : safe s -> safely (on_anisou s) safe.
Proof.
  intros Hs. pose proof Hs as (Hl & _ & Hc). unfold on_anisou.
  destruct (model s) as [mi|]; [|exact I].
  destruct (chain s) as [cp|] eqn:Ec; [|exact I].
  destruct (resi s) as [rp|] eqn:Er; [|exact I].
  destruct (Hc cp eq_refl) as (_ & _ & Hr). destruct (Hr rp eq_refl) as (_ & [r Hd]).
  rewrite Hd. simpl. destruct (last _) as [atom|]; [|exact I].
  destruct (negb _); [exact I|].
  do 6 (eapply safely_bind; [apply safely_any, line_int; [exact Hl|lia]|intros ? _]).
  apply store_current_safe; [exact Hs|rewrite Ec; eauto|exact Er].
Qed.

Lemma read_monomers_safe (l : list ascii) (columns : list nat)
      (entities : list (nat * Entity.t)) (ent : nat) :
  length l = 88 -> Forall (fun i => i + 3 <= 88) columns ->
  safely (read_monomers l columns entities ent) (fun _ => True).
Proof.
  intros Hl Hcols. revert entities.
  induction Hcols as [|i columns Hi _ IH]; intros entities; simpl; [exact I|].
  eapply safely_bind; [apply safely_any, line_string; [exact Hl|lia]|intros res_name _].
  apply IH.
Qed.

(** Handlers that leave the pointers and the models alone. *)
Definition same_pointers (s s' : Reader.t D) : Prop :=
  line s' = line s /\ model s' = model s /\ chain s' = chain s /\ resi s' = resi s
  /\ Structure.models (st s') = Structure.models (st s).

Lemma same_pointers_safe (s s' : Reader.t D) : safe s -> same_pointers s s' -> safe s'.
Proof.
  intros (Hl & Hm & Hc) (El & Em & Ec & Er & Ems). unfold safe.
  rewrite El, Em, Ec, Er, Ems. split; [exact Hl|]. split; [exact Hm|].
  intros cp Hcp. destruct (Hc cp Hcp) as (H1 & [ch H2] & H3).
  assert (forall cp0, deref_chain (st s') cp0 = deref_chain (st s) cp0) as Hdc
    by (intros cp0; unfold deref_chain, deref_model; rewrite Ems; reflexivity).
  split; [exact H1|]. split; [exists ch; rewrite Hdc; exact H2|].
  intros rp Hrp. destruct (H3 rp Hrp) as (H4 & [r H5]). split; [exact H4|].
  exists r. unfold deref_resi. rewrite Hdc. exact H5.
Qed.

Lemma on_seqres_safe (s : Reader.t D) : safe s -> safely (on_seqres s) safe.
Proof.
  intros Hs. pose proof Hs as (Hl & _). unfold on_seqres.
  eapply safely_bind; [apply safely_any, line_string; [exact Hl|lia]|intros chain_name _].
  destruct (EntitySetter.set_for_chain _ _ _ _) as [[ent es] entities].
  eapply safely_bind.
  - apply read_monomers_safe; [exact Hl|]. unfold seqres_columns. simpl.
    repeat constructor; lia.
  - intros entities' _. simpl. apply (same_pointers_safe s); [exact Hs|]. repeat split.
Qed.

Lemma on_cryst1_safe (s : Reader.t D) (len : nat) : safe s -> safely (on_cryst1 s len) safe.
Proof.
  intros Hs. pose proof Hs as (Hl & _). unfold on_cryst1.
  eapply safely_bind with (P := fun s1 => same_pointers s s1).
  - destruct (54 <? len); [|simpl; repeat split].
    do 6 (eapply safely_bind; [apply safely_any, line_double; [exact Hl|lia]|intros ? _]).
    destruct (UnitCellM.set _ _ _ _ _ _ _) as [u [msg|]]; simpl; [exact I|repeat split].
  - intros s1 H1. pose proof (same_pointers_safe _ _ Hs H1) as Hs1.
    pose proof Hs1 as (Hl1 & _).
    destruct (56 <? len); [|exact Hs1].
    eapply safely_bind; [apply safely_any, line_string; [exact Hl1|lia]|intros sg _].
    simpl. apply (same_pointers_safe s1); [exact Hs1|]. repeat split.
Qed.

Lemma read_matrix_safe (m : Mat4x4 D) (l : list ascii) (len : nat) :
  length l = 88 -> safely (read_matrix m l len) (fun _ => True).
Proof.
  intros Hl. unfold read_matrix. destruct (len <? 46); [exact I|].
  eapply safely_bind; [apply safely_any, line_byte; [exact Hl|lia]|intros c5 _].
  destruct (_ && _)%bool; [|exact I].
  do 4 (eapply safely_bind; [apply safely_any, line_double; [exact Hl|lia]|intros ? _]).
  exact I.
Qed.

Lemma on_mtrix_safe (s : Reader.t D) (len : nat) : safe s -> safely (on_mtrix s len) safe.
Proof.
  intros Hs. pose proof Hs as (Hl & _). unfold on_mtrix.
  eapply safely_bind; [apply read_matrix_safe; exact Hl|intros [n m] _].
  destruct (_ && _)%bool.
  - eapply safely_bind with (P := fun _ => True).
    { destruct (59 <? len); [|exact I].
      eapply safely_bind; [apply safely_any, line_byte; [exact Hl|lia]|intros c59 _].
      exact I. }
    intros given _.
    eapply safely_bind; [apply safely_any, line_string; [exact Hl|lia]|intros serial _].
    simpl. apply (same_pointers_safe s); [exact Hs|]. repeat split.
  - simpl. apply (same_pointers_safe s); [exact Hs|]. repeat split.
Qed.

Lemma on_scale_safe (s : Reader.t D) (len : nat) : safe s -> safely (on_scale s len) safe.
Proof.
  intros Hs. pose proof Hs as (Hl & _). unfold on_scale.
  eapply safely_bind; [apply read_matrix_safe; exact Hl|intros [n m] _].
  destruct (_ =? _)%Z; simpl; (apply (same_pointers_safe s); [exact Hs|]); repeat split.
Qed.

Lemma on_origx_safe (s : Reader.t D) (len : nat) : safe s -> safely (on_origx s len) safe.
Proof.
  intros Hs. pose proof Hs as (Hl & _). unfold on_origx.
  eapply safely_bind; [apply read_matrix_safe; exact Hl|intros [n m] _].
  destruct (_ =? _)%Z; simpl; (apply (same_pointers_safe s); [exact Hs|]); repeat split.
Qed.

Lemma on_model_safe (s : Reader.t D) : safe s -> safely (on_model s) safe.
Proof.
  intros Hs. pose proof Hs as (Hl & Hm & Hc). unfold on_model.
  assert (safely (n ← scan (read_int (drop 10 (line s)) 4);
                  let name := to_string n in
                  let '(ms, mi) := Structure.find_or_add_model (Structure.models (st s)) name in
                  m ← scan (ms !! mi);
                  match Model.chains m with
                  | _ :: _ => wrong s ("duplicate MODEL number: " +:+ name)
                  | [] => Ok (with_chain (with_model (with_st s (with_models (st s) ms))
                                                     (Some mi)) None)
                  end) safe) as H.
  { eapply safely_bind; [apply safely_any, line_int; [exact Hl|lia]|intros n _].
    simpl. destruct (Structure.find_or_add_model _ _) as [ms mi] eqn:Ef.
    apply find_or_add_model_valid in Ef. destruct Ef as [m Hmi]. rewrite Hmi. simpl.
    destruct (Model.chains m); [|exact I]. simpl.
    split; [exact Hl|]. split; [|intros cp [=]].
    intros mi' [= <-]. simpl. eauto. }
  destruct (model s), (chain s); first [exact I|exact H].
Qed.

Lemma on_endmdl_safe (s : Reader.t D) : safe s -> safely (on_endmdl s) safe.
Proof.
  intros (Hl & _). simpl. split; [exact Hl|]. split; [intros mi [=]|intros cp [=]].
Qed.

Lemma on_ter_safe (s : Reader.t D) : safe s -> safely (on_ter s) safe.
Proof.
  intros Hs. pose proof Hs as (Hl & Hm & Hc). unfold on_ter.
  eapply safely_bind with (P := fun s1 => line s1 = line s /\ model s1 = model s
                                          /\ st s1 = st s).
  - destruct (chain s) as [cp|] eqn:Ec; [|simpl; auto].
    destruct (Hc cp eq_refl) as (Hmc & [ch Hch] & _). rewrite Hmc. simpl.
    destruct (Hm _ Hmc) as [m Hmi]. unfold deref_model at 1. rewrite Hmi. simpl.
    rewrite Hch. simpl. auto.
  - intros s1 (E1 & E2 & E3). simpl. unfold safe. simpl. rewrite E1, E2, E3.
    split; [exact Hl|]. split; [exact Hm|intros cp [=]].
Qed.

Lemma on_conn_safe (s : Reader.t D) (n : nat) : safe s -> safely (on_conn s n) safe.
Proof.
  intros Hs. unfold on_conn.
  destruct (_ <? _); simpl; [apply (same_pointers_safe s); [exact Hs|]; repeat split|exact Hs].
Qed.

(** *** The loop *)

Lemma process_line_safe (s : Reader.t D) (raw : list ascii) :
  safe s -> safely (process_line s raw) (fun r => safe (snd r)).
Proof.
  intros Hs. unfold process_line.
  pose proof (copy_line_length (line s) raw (proj1 Hs)) as Hlen.
  destruct (copy_line_from_stream (line s) raw) as [l len]. simpl in Hlen.
  assert (forall n, safe (with_line s l n)) as Hs0.
  { intros n. destruct Hs as (_ & Hm & Hc). split; [exact Hlen|]. split; assumption. }
  destruct (len =? 0); [simpl; apply Hs0|].
  eapply safely_bind; [apply line_record_type; exact Hlen|intros k _].
  set (s0 := with_line s l (line_num s + 1)%Z).
  assert (forall h : outcome (Reader.t D), safely h safe ->
            safely (s1 ← h; Ok (true, s1)) (fun r => safe (snd r))) as Hstep.
  { intros h Hh. eapply safely_bind; [exact Hh|]. intros s1 Hs1. exact Hs1. }
  destruct k; try (simpl; apply Hs0); apply Hstep.
  - apply on_atom_safe, Hs0.
  - apply on_anisou_safe, Hs0.
  - apply on_seqres_safe, Hs0.
  - apply on_cryst1_safe, Hs0.
  - apply on_mtrix_safe, Hs0.
  - apply on_model_safe, Hs0.
  - apply on_endmdl_safe, Hs0.
  - apply on_ter_safe, Hs0.
  - apply on_scale_safe, Hs0.
  - apply on_origx_safe, Hs0.
  - apply on_conn_safe, Hs0.
  - apply on_conn_safe, Hs0.
Qed.


Lemma initial_safe : safe (initial (D := D)).
Proof.
  split; [reflexivity|]. split.
  - intros mi [= <-]. simpl. eauto.
  - intros cp [=].
Qed.

(** *** After the loop *)



End with_double.


End Safety.

(** ** Record names, byte by byte *)

Module RecordFacts.
Import pdb_impl pdb_num Reader RecordNames.

Definition ascii_byte (c : ascii) : bool := (0 <=? Char.val c)%Z.

Lemma pack4_nonneg (a b c d : ascii) :
  0 <= pack4 a b c d
  <-> 0 <= Char.val a /\ 0 <= Char.val b /\ 0 <= Char.val c /\ 0 <= Char.val d.
Proof. unfold pack4. rewrite !Z.lor_nonneg, !Z.shiftl_nonneg. tauto. Qed.

(** The value of [is_record_type], from the bytes. *)
Lemma record_bytes (s : list ascii) (record : string)
        (s0 s1 s2 s3 r0 r1 r2 r3 : ascii) :
  s !! 0%nat = Some s0 -> s !! 1%nat = Some s1 -> s !! 2%nat = Some s2 -> s !! 3%nat = Some s3 ->
  literal record !! 0%nat = Some r0 -> literal record !! 1%nat = Some r1 ->
  literal record !! 2%nat = Some r2 -> literal record !! 3%nat = Some r3 ->
  Forall (fun c => 0 <= Char.val c) [r0; r1; r2; r3] ->
  is_record_type s record
  = Some (forallb ascii_byte [s0; s1; s2; s3]
          && ((upper s0 =? Char.val r0) && (upper s1 =? Char.val r1)
              && (upper s2 =? Char.val r2) && (upper s3 =? Char.val r3))).
Proof.
  intros Hs0 Hs1 Hs2 Hs3 Hr0 Hr1 Hr2 Hr3 Hr.
  destruct (forallb ascii_byte [s0; s1; s2; s3]) eqn:Hs.
  - simpl in Hs. unfold ascii_byte in Hs. rewrite !andb_true_iff, !Z.leb_le in Hs.
    destruct Hs as (H0 & H1 & H2 & H3 & _).
    rewrite !Forall_cons in Hr. destruct Hr as (G0 & G1 & G2 & G3 & _).
    apply is_record_type_ascii; try assumption. repeat constructor; assumption.
  - unfold is_record_type. rewrite Hs0, Hs1, Hs2, Hs3, Hr0, Hr1, Hr2, Hr3. simpl. f_equal.
    apply Z.eqb_neq. intros Heq.
    assert (0 <= pack4 r0 r1 r2 r3) as Hp.
    { apply pack4_nonneg. rewrite !Forall_cons in Hr. tauto. }
    rewrite <- Heq in Hp. apply Z.land_nonneg in Hp.
    destruct Hp as [Hp|Hp]; [|vm_compute in Hp; apply Hp; reflexivity].
    apply pack4_nonneg in Hp. destruct Hp as (H0 & H1 & H2 & H3).
    simpl in Hs. unfold ascii_byte in Hs.
    apply Z.leb_le in H0, H1, H2, H3. rewrite H0, H1, H2, H3 in Hs. discriminate.
Qed.

(** X11: [is_record_type] holds exactly when the first four bytes of the line
    are ASCII and equal, with the case bit (0x20) cleared, the first four
    bytes of the record name, its terminating NUL included when it has three
    letters: lower and upper case match alike, a space matches the NUL, and a
    byte above 127 matches nothing. *)
Theorem is_record_type_bytes (s : list ascii) (record : string)
        (s0 s1 s2 s3 r0 r1 r2 r3 : ascii) :
  s !! 0%nat = Some s0 -> s !! 1%nat = Some s1 -> s !! 2%nat = Some s2 -> s !! 3%nat = Some s3 ->
  literal record !! 0%nat = Some r0 -> literal record !! 1%nat = Some r1 ->
  literal record !! 2%nat = Some r2 -> literal record !! 3%nat = Some r3 ->
  Forall (fun c => 0 <= Char.val c) [r0; r1; r2; r3] ->
  is_record_type s record
  = Some (forallb ascii_byte [s0; s1; s2; s3]
          && ((upper s0 =? Char.val r0) && (upper s1 =? Char.val r1)
              && (upper s2 =? Char.val r2) && (upper s3 =? Char.val r3))).
Proof. apply record_bytes. Qed.

(** A TER with a byte above 127 after it is no TER record. *)
Lemma is_record_type_bytes_witness :
  is_record_type ["T"; "E"; "R"; "160"]%char "TER"
  = Some (forallb ascii_byte ["T"; "E"; "R"; "160"]%char
          && ((upper "T" =? Char.val "T") && (upper "E" =? Char.val "E")
              && (upper "R" =? Char.val "R") && (upper "160" =? Char.val Char.NUL))).
Proof.
  apply (is_record_type_bytes ["T"; "E"; "R"; "160"]%char "TER"
           "T" "E" "R" "160" "T" "E" "R" Char.NUL);
    try reflexivity.
  repeat constructor; vm_compute; discriminate.
Defined.

(** The names the reader tests hold ASCII letters. *)
Definition letters (r : string) : Prop :=
  exists r0 r1 r2 r3,
    literal r !! 0%nat = Some r0 /\ literal r !! 1%nat = Some r1
    /\ literal r !! 2%nat = Some r2 /\ literal r !! 3%nat = Some r3
    /\ Forall (fun c => 0 <= Char.val c) [r0; r1; r2; r3] /\ 0 < Char.val r0.

Lemma record_tests_letters : Forall (fun rk => letters (fst rk)) record_tests.
Proof.
  unfold record_tests.
  repeat (apply Forall_cons; split;
          [eexists _, _, _, _; repeat (split; [reflexivity|]);
           split; [repeat constructor; vm_compute; discriminate|reflexivity]|]).
  apply Forall_nil. exact I.
Qed.

Lemma upper_NUL_iff (c : ascii) : 0 <= Char.val c -> 0 < upper c -> Char.eqb c Char.NUL = false.
Proof. destruct c as [[] [] [] [] [] [] [] []]; vm_compute; intros; congruence. Qed.

(** A line that a name matches begins with a byte that is not NUL. *)
Lemma is_record_type_first (l : list ascii) (r : string) :
  letters r -> is_record_type l r = Some true ->
  exists c tl, l = c :: tl /\ Char.eqb c Char.NUL = false.
Proof.
  intros (r0 & r1 & r2 & r3 & Hr0 & Hr1 & Hr2 & Hr3 & Hr & Hpos) H.
  destruct l as [|s0 [|s1 [|s2 [|s3 tl]]]]; try discriminate.
  rewrite (record_bytes _ r s0 s1 s2 s3 r0 r1 r2 r3) in H by (reflexivity || assumption).
  injection H as H. rewrite !andb_true_iff in H.
  destruct H as ((H0 & _) & ((Hu & _) & _) & _). unfold ascii_byte in H0.
  apply Z.leb_le in H0. apply Z.eqb_eq in Hu.
  exists s0, (s1 :: s2 :: s3 :: tl). split; [reflexivity|].
  apply upper_NUL_iff; [assumption|lia].
Qed.

Lemma first_record_match (l : list ascii) (tests : list (string * RecordType))
      (k : RecordType) :
  first_record l tests = Ok k ->
  k = OTHER \/ exists r, In (r, k) tests /\ is_record_type l r = Some true.
Proof.
  induction tests as [|[r k'] tests IH]; simpl.
  - intros [= <-]. left. reflexivity.
  - destruct (is_record_type l r) as [[]|] eqn:E; simpl; try discriminate.
    + intros [= <-]. right. exists r. auto.
    + intros H. destruct (IH H) as [->|(r' & Hin & Hr')]; [left; reflexivity|].
      right. exists r'. auto.
Qed.

(** A line with a record type the reader knows is not empty. *)
Lemma record_type_first (l : list ascii) (k : RecordType) :
  record_type l = Ok k -> k <> OTHER ->
  exists c tl, l = c :: tl /\ Char.eqb c Char.NUL = false.
Proof.
  intros H Hk. apply first_record_match in H. destruct H as [->|(r & Hin & Hr)]; [congruence|].
  apply (is_record_type_first l r); [|exact Hr].
  exact (proj1 (List.Forall_forall _ _) record_tests_letters (r, k) Hin).
Qed.

Lemma record_type_strlen (l : list ascii) (k : RecordType) :
  record_type l = Ok k -> k <> OTHER -> (0 < strlen l)%nat.
Proof.
  intros H Hk. destruct (record_type_first l k H Hk) as (c & tl & -> & Hc).
  unfold strlen. simpl. rewrite Hc. simpl. lia.
Qed.

(** ATOM and HETATM: four letters, so none of the four bytes is NUL. *)
Lemma atom_record_bytes (l : list ascii) (i : nat) :
  record_type l = Ok ATOM -> (i < 4)%nat ->
  exists c, l !! i = Some c /\ Char.eqb c Char.NUL = false.
Proof.
  intros H Hi. apply first_record_match in H. destruct H as [H|(r & Hin & Hr)]; [discriminate|].
  assert (r = "ATOM"%string \/ r = "HETATM"%string) as Hname.
  { simpl in Hin.
    repeat (destruct Hin as [Hin|Hin]; [inversion Hin; auto|]).
    destruct Hin. }
  destruct l as [|s0 [|s1 [|s2 [|s3 tl]]]]; try discriminate.
  assert (forall c r0, 0 <= Char.val c -> upper c = Char.val r0 -> 0 < Char.val r0 ->
                       Char.eqb c Char.NUL = false) as Hnz.
  { intros c r0 Hc Hu Hr0. apply upper_NUL_iff; [assumption|lia]. }
  destruct Hname as [-> | ->].
  - rewrite (record_bytes _ "ATOM" s0 s1 s2 s3 "A" "T" "O" "M") in Hr
      by (reflexivity || (repeat constructor; vm_compute; discriminate)).
    injection Hr as Hr. simpl in Hr. unfold ascii_byte in Hr.
    rewrite !andb_true_iff, !Z.leb_le, !Z.eqb_eq in Hr.
    destruct Hr as ((H0 & H1 & H2 & H3 & _) & ((U0 & U1) & U2) & U3).
    destruct i as [|[|[|[|i]]]]; try lia; simpl; eexists; (split; [reflexivity|]);
      eapply Hnz; try eassumption; reflexivity.
  - rewrite (record_bytes _ "HETATM" s0 s1 s2 s3 "H" "E" "T" "A") in Hr
      by (reflexivity || (repeat constructor; vm_compute; discriminate)).
    injection Hr as Hr. simpl in Hr. unfold ascii_byte in Hr.
    rewrite !andb_true_iff, !Z.leb_le, !Z.eqb_eq in Hr.
    destruct Hr as ((H0 & H1 & H2 & H3 & _) & ((U0 & U1) & U2) & U3).
    destruct i as [|[|[|[|i]]]]; try lia; simpl; eexists; (split; [reflexivity|]);
      eapply Hnz; try eassumption; reflexivity.
Qed.

End RecordFacts.

(** ** Lines, errors and atoms *)

Module ReaderFacts.
Import pdb_impl pdb_num Reader ChainProofs RecordFacts.
Local Open Scope nat_scope.

Ltac crunch :=
  repeat first
    [ progress inv_ok
    | match goal with
      | H : (if ?b then _ else _) = Ok _ |- _ => destruct b eqn:?
      | H : (let '(_, _) := ?x in _) = Ok _ |- _ => destruct x eqn:?
      | H : match ?x with _ => _ end = Ok _ |- _ => destruct x eqn:?
      | H : match ?x with _ => _ end ≫= _ = Ok _ |- _ => destruct x eqn:?
      end ];
  simpl in *.

Section with_double.
Context {D : Type} {ops : DoubleOps D}.

(** The handlers leave the line buffer and the line counter alone. *)
Definition same_line (s s' : Reader.t D) : Prop :=
  line s' = line s /\ line_num s' = line_num s.

Lemma select_chain_line (s s' : Reader.t D) n : select_chain s n = Ok s' -> same_line s s'.
Proof. unfold select_chain, same_line. intros H. crunch; split; congruence. Qed.

Lemma select_residue_line (s s' : Reader.t D) rid :
  select_residue s rid = Ok s' -> same_line s s'.
Proof. unfold select_residue, same_line. intros H. crunch; split; congruence. Qed.

Lemma on_atom_line (s s' : Reader.t D) len : on_atom s len = Ok s' -> same_line s s'.
Proof.
  unfold on_atom. intros H. destruct (len <? 77)%nat; [discriminate|].
  apply bind_Ok in H. destruct H as (chain_name & _ & H).
  apply bind_Ok in H. destruct H as (s1 & Hs1 & H).
  apply bind_Ok in H. destruct H as (snic & _ & H).
  apply bind_Ok in H. destruct H as (res_name & _ & H).
  apply bind_Ok in H. destruct H as (segment & _ & H).
  apply bind_Ok in H. destruct H as (s2 & Hs2 & H).
  apply bind_Ok in H. destruct H as (atom & _ & H).
  apply bind_Ok in H. destruct H as (rp & _ & H).
  apply bind_Ok in H. destruct H as (r & _ & H).
  apply bind_Ok in H. destruct H as (x & Hx & H). injection H as <-.
  apply select_chain_line in Hs1. apply select_residue_line in Hs2.
  destruct Hs1 as [? ?], Hs2 as [? ?]. split; simpl; congruence.
Qed.

Lemma on_anisou_line (s s' : Reader.t D) : on_anisou s = Ok s' -> same_line s s'.
Proof.
  unfold on_anisou, same_line. intros H.
  destruct (model s); [|discriminate]. destruct (chain s); [|discriminate].
  destruct (resi s) as [rp|]; [|discriminate].
  apply bind_Ok in H. destruct H as (r & _ & H).
  destruct (last _); [|discriminate]. destruct (negb _); [discriminate|].
  do 6 (apply bind_Ok in H; let v := fresh "v" in destruct H as (v & _ & H)).
  apply bind_Ok in H. destruct H as (x & Hx & H). injection H as <-. auto.
Qed.

Lemma on_seqres_line (s s' : Reader.t D) : on_seqres s = Ok s' -> same_line s s'.
Proof. unfold on_seqres, same_line. intros H. crunch; split; congruence. Qed.

Lemma on_cryst1_line (s s' : Reader.t D) len : on_cryst1 s len = Ok s' -> same_line s s'.
Proof. unfold on_cryst1, same_line. intros H. crunch; split; congruence. Qed.

Lemma on_mtrix_line (s s' : Reader.t D) len : on_mtrix s len = Ok s' -> same_line s s'.
Proof. unfold on_mtrix, same_line. intros H. crunch; split; congruence. Qed.

Lemma on_scale_line (s s' : Reader.t D) len : on_scale s len = Ok s' -> same_line s s'.
Proof. unfold on_scale, same_line. intros H. crunch; split; congruence. Qed.

Lemma on_origx_line (s s' : Reader.t D) len : on_origx s len = Ok s' -> same_line s s'.
Proof. unfold on_origx, same_line. intros H. crunch; split; congruence. Qed.

Lemma on_model_line (s s' : Reader.t D) : on_model s = Ok s' -> same_line s s'.
Proof.
  unfold on_model, same_line. intros H.
  destruct (model s), (chain s); try discriminate; crunch; split; congruence.
Qed.

Lemma on_ter_line (s s' : Reader.t D) : on_ter s = Ok s' -> same_line s s'.
Proof. unfold on_ter, same_line. intros H. crunch; split; congruence. Qed.

Lemma on_conn_line (s s' : Reader.t D) n : on_conn s n = Ok s' -> same_line s s'.
Proof. unfold on_conn, same_line. intros H. crunch; split; congruence. Qed.

(** A line that is processed counts, and stays in the buffer. *)
Lemma process_line_counts (s s' : Reader.t D) (raw : list ascii) :
  process_line s raw = Ok (true, s') ->
  line s' = next_line s raw /\ line_num s' = (line_num s + 1)%Z.
Proof.
  intros H. apply process_line_handler in H. destruct H as (k & _ & H).
  assert (forall s1, same_line (at_line s raw) s1 ->
                     line s1 = next_line s raw /\ line_num s1 = (line_num s + 1)%Z) as Hsame
    by (intros s1 [-> ->]; split; reflexivity).
  destruct k; try (injection H as <-; split; reflexivity); try discriminate; apply Hsame;
    eauto using on_atom_line, on_anisou_line, on_seqres_line, on_cryst1_line, on_mtrix_line,
                on_model_line, on_ter_line, on_scale_line, on_origx_line, on_conn_line.
Qed.

Lemma run_lines_counts (input : list (list ascii)) (s s' : Reader.t D) :
  run_lines s input = Some s' -> line_num s' = (line_num s + Z.of_nat (length input))%Z.
Proof.
  revert s. induction input as [|raw input IH]; intros s; simpl.
  - intros [= <-]. lia.
  - destruct (process_line s raw) as [[[] s1]| |] eqn:E; try discriminate.
    intros H. apply IH in H. apply process_line_counts in E. destruct E as [_ E]. lia.
Qed.

Lemma run_lines_safe (input : list (list ascii)) (s s' : Reader.t D) :
  Safety.safe s -> run_lines s input = Some s' -> Safety.safe s'.
Proof.
  revert s. induction input as [|raw input IH]; intros s Hs; simpl.
  - intros [= <-]. exact Hs.
  - destruct (process_line s raw) as [[[] s1]| |] eqn:E; try discriminate.
    apply IH. pose proof (Safety.process_line_safe s raw Hs) as H. rewrite E in H. exact H.
Qed.

(** The lines before, then a line that raises: the reader raises. *)
Lemma read_loop_raises (pre rest : list (list ascii)) (raw : list ascii)
      (s : Reader.t D) (msg : string) :
  run_lines initial pre = Some s -> process_line s raw = Raise msg ->
  read_loop initial (pre ++ raw :: rest) = Raise msg.
Proof.
  intros Hrun Hp. rewrite (run_lines_read_loop _ _ _ _ Hrun). simpl. rewrite Hp. reflexivity.
Qed.

(** The handler that a line reaches. *)
Lemma process_line_dispatch (s : Reader.t D) (raw : list ascii) (k : RecordType) :
  snd (copy_line_from_stream (line s) raw) <> 0 ->
  record_type (next_line s raw) = Ok k ->
  process_line s raw
  = match k with
    | ATOM => s ← on_atom (at_line s raw) (snd (copy_line_from_stream (line s) raw)); Ok (true, s)
    | ANISOU => s ← on_anisou (at_line s raw); Ok (true, s)
    | SEQRES => s ← on_seqres (at_line s raw); Ok (true, s)
    | CRYST1 => s ← on_cryst1 (at_line s raw) (snd (copy_line_from_stream (line s) raw)); Ok (true, s)
    | MTRIXn => s ← on_mtrix (at_line s raw) (snd (copy_line_from_stream (line s) raw)); Ok (true, s)
    | MODEL => s ← on_model (at_line s raw); Ok (true, s)
    | ENDMDL => s ← on_endmdl (at_line s raw); Ok (true, s)
    | TER => s ← on_ter (at_line s raw); Ok (true, s)
    | SCALEn => s ← on_scale (at_line s raw) (snd (copy_line_from_stream (line s) raw)); Ok (true, s)
    | ORIGX => s ← on_origx (at_line s raw) (snd (copy_line_from_stream (line s) raw)); Ok (true, s)
    | SSBOND => s ← on_conn (at_line s raw) 34; Ok (true, s)
    | CISPEP => s ← on_conn (at_line s raw) 21; Ok (true, s)
    | END => Ok (false, at_line s raw)
    | _ => Ok (true, at_line s raw)
    end.
Proof.
  unfold process_line, at_line, next_line.
  destruct (copy_line_from_stream (line s) raw) as [l len]. simpl. intros Hlen Hk.
  destruct (Nat.eqb_spec len 0) as [->|_]; [congruence|]. rewrite Hk. simpl.
  destruct k; reflexivity.
Qed.

End with_double.

(** *** What the loop sees of a line *)

Lemma c_str_take (n : nat) (raw rest : list ascii) :
  c_str (take n raw ++ Char.NUL :: rest) = take n (c_str raw).
Proof.
  revert n. induction raw as [|c raw IH]; intros [|n]; simpl; try reflexivity;
    destruct (Char.eqb c Char.NUL); simpl; rewrite ?IH; reflexivity.
Qed.

Lemma copied_length (l raw : list ascii) :
  snd (copy_line_from_stream l raw) = min 81 (strlen raw).
Proof.
  unfold copy_line_from_stream, strlen. cbv zeta. cbn [snd].
  rewrite <- app_assoc. change ([Char.NUL] ++ ?x) with (Char.NUL :: x).
  rewrite c_str_take, length_take. reflexivity.
Qed.

Lemma copied_string (l raw : list ascii) :
  strlen raw <= 81 -> string_of_line (fst (copy_line_from_stream l raw)) = string_of_line raw.
Proof.
  unfold copy_line_from_stream, strlen, string_of_line. cbv zeta. cbn [fst]. intros H.
  rewrite <- app_assoc. change ([Char.NUL] ++ ?x) with (Char.NUL :: x).
  rewrite c_str_take, take_ge by lia. reflexivity.
Qed.

Lemma record_type_agree (p q : list ascii) :
  (forall i, i < 4 -> p !! i = q !! i) -> record_type p = record_type q.
Proof.
  intros H. unfold record_type.
  assert (forall r, is_record_type p r = is_record_type q r) as Hr.
  { intros r. unfold is_record_type. rewrite !H by lia. reflexivity. }
  induction record_tests as [|[r k] tests IH]; simpl; [reflexivity|].
  rewrite Hr, IH. reflexivity.
Qed.

Lemma record_type_length (p : list ascii) (k : RecordType) :
  record_type p = Ok k -> 4 <= length p.
Proof.
  intros H. destruct (le_lt_dec 4 (length p)) as [|Hlt]; [assumption|exfalso].
  assert (p !! 3 = None) as H3 by (apply lookup_ge_None; lia).
  assert (is_record_type p "ATOM" = None) as Hn.
  { unfold is_record_type. rewrite H3. destruct (p !! 0), (p !! 1), (p !! 2); reflexivity. }
  unfold record_type in H. change (first_record p record_tests)
    with (b ← scan (is_record_type p "ATOM");
          if b : bool then Ok ATOM else first_record p (tl record_tests)) in H.
  rewrite Hn in H. discriminate.
Qed.

(** The record type is read off the first four bytes [in.gets] delivered. *)
Lemma record_type_next_line {D : Type} (s : Reader.t D) (raw : list ascii) (k : RecordType) :
  record_type raw = Ok k -> record_type (next_line s raw) = Ok k.
Proof.
  intros H. rewrite <- H. apply record_type_agree. intros i Hi.
  apply record_type_length in H.
  unfold next_line, copy_line_from_stream. cbv zeta. cbn [fst].
  rewrite <- app_assoc, lookup_app_l by (rewrite length_take; lia).
  apply lookup_take_lt. lia.
Qed.

Section errors.
Context {D : Type} {ops : DoubleOps D}.

(** *** The messages of the exceptions *)

Definition numbered (n : Z) (msg : string) : Prop :=
  exists m, msg = "Problem in line " +:+ to_string n +:+ ": " +:+ m.

Definition charge_message (msg : string) : Prop :=
  exists digit sign, msg = "Wrong format for charge: " +:+ String digit (String sign "").

(** What a handler may raise. *)
Definition raises {A} (o : outcome A) (P : string -> Prop) : Prop :=
  forall msg, o = Raise msg -> P msg.

Lemma raises_bind {A B} (o : outcome A) (f : A -> outcome B) (P : string -> Prop) :
  raises o P -> (forall a, o = Ok a -> raises (f a) P) -> raises (o ≫= f) P.
Proof.
  intros Ho Hf msg. destruct o as [a|m|]; simpl.
  - apply Hf. reflexivity.
  - intros [= <-]. apply Ho. reflexivity.
  - discriminate.
Qed.

Lemma raises_scan {A} (o : option A) (P : string -> Prop) : raises (scan o) P.
Proof. intros msg. destruct o; discriminate. Qed.

Lemma raises_Ok {A} (a : A) (P : string -> Prop) : raises (Ok a) P.
Proof. intros msg. discriminate. Qed.

Lemma raises_wrong {A} (s : Reader.t D) (m : string) (P : string -> Prop) :
  P ("Problem in line " +:+ to_string (line_num s) +:+ ": " +:+ m) ->
  raises (wrong (A := A) s m) P.
Proof. intros H msg [= <-]. exact H. Qed.

Lemma raises_weaken {A} (o : outcome A) (P Q : string -> Prop) :
  (forall msg, P msg -> Q msg) -> raises o P -> raises o Q.
Proof. intros H Ho msg Hm. apply H, Ho, Hm. Qed.

Ltac quiet :=
  repeat first
    [ apply raises_scan
    | apply raises_Ok
    | apply raises_bind; [|intros ? ?]
    | match goal with
      | |- raises (if ?b then _ else _) _ => destruct b
      | |- raises (let '(_, _) := ?x in _) _ => destruct x
      | |- raises (match ?x with _ => _ end) _ => destruct x
      end ].

Lemma deref_model_quiet (x : Structure.t D) mi P : raises (deref_model x mi) P.
Proof. unfold deref_model. quiet. Qed.
Lemma deref_chain_quiet (x : Structure.t D) cp P : raises (deref_chain x cp) P.
Proof. unfold deref_chain, deref_model. quiet. Qed.
Lemma deref_resi_quiet (x : Structure.t D) rp P : raises (deref_resi x rp) P.
Proof. unfold deref_resi, deref_chain, deref_model. quiet. Qed.
Lemma store_chain_quiet (x : Structure.t D) cp ch P : raises (store_chain x cp ch) P.
Proof. unfold store_chain, deref_model. quiet. Qed.
Lemma store_resi_quiet (x : Structure.t D) rp r P : raises (store_resi x rp r) P.
Proof.
  unfold store_resi. apply raises_bind; [apply deref_chain_quiet|intros; apply store_chain_quiet].
Qed.

Ltac silent :=
  quiet;
  try first [ apply deref_model_quiet | apply deref_chain_quiet | apply deref_resi_quiet
            | apply store_chain_quiet | apply store_resi_quiet ].

Lemma select_chain_raises (s : Reader.t D) n :
  raises (select_chain s n) (numbered (line_num s)).
Proof.
  unfold select_chain.
  apply raises_bind.
  - destruct (chain s); [|apply raises_Ok]. silent.
  - intros [] _; [|apply raises_Ok].
    destruct (model s); [|apply raises_wrong; eexists; reflexivity]. silent.
Qed.

Lemma select_residue_raises (s : Reader.t D) rid P : raises (select_residue s rid) P.
Proof.
  unfold select_residue. apply raises_bind; [apply raises_scan|intros cp _].
  apply raises_bind.
  - destruct (resi s); [|apply raises_Ok]. silent.
  - intros [] _; [|apply raises_Ok]. silent.
Qed.

Lemma read_charge_message (digit sign : ascii) : raises (read_charge digit sign) charge_message.
Proof.
  unfold read_charge. destruct (_ && _); [apply raises_Ok|].
  destruct (Char.is_digit sign).
  - destruct (Char.is_digit digit || true); destruct (Char.is_digit sign); 
      try apply raises_Ok; destruct (_ && _); try apply raises_Ok;
      intros msg [= <-]; eexists _, _; reflexivity.
  - destruct (Char.is_digit digit); [|apply raises_Ok].
    destruct (_ && _); [|apply raises_Ok]. intros msg [= <-]. eexists _, _; reflexivity.
Qed.

Lemma parse_atom_raises (l : list ascii) (len : nat) : raises (parse_atom l len) charge_message.
Proof.
  unfold parse_atom.
  do 3 (apply raises_bind; [apply raises_scan|intros ? _]).
  apply raises_bind.
  - destruct (78 <? len)%nat; [|apply raises_Ok].
    do 2 (apply raises_bind; [apply raises_scan|intros ? _]). apply read_charge_message.
  - intros charge _. silent.
Qed.

Definition atom_error (n : Z) (msg : string) : Prop := numbered n msg \/ charge_message msg.

Lemma on_atom_raises (s : Reader.t D) (len : nat) :
  raises (on_atom s len) (atom_error (line_num s)).
Proof.
  unfold on_atom. destruct (len <? 77)%nat.
  - apply raises_wrong. left. eexists. reflexivity.
  - apply raises_bind; [apply raises_scan|intros chain_name _].
    apply raises_bind.
    + eapply raises_weaken; [|apply select_chain_raises]. intros msg H. left. exact H.
    + intros s1 Hs1. apply select_chain_line in Hs1. destruct Hs1 as [_ Hn1].
      do 3 (apply raises_bind; [apply raises_scan|intros ? _]).
      apply raises_bind; [apply select_residue_raises|intros s2 Hs2].
      apply raises_bind.
      * eapply raises_weaken; [|apply parse_atom_raises]. intros msg H. right. exact H.
      * intros atom _. silent.
Qed.

Lemma on_anisou_raises (s : Reader.t D) : raises (on_anisou s) (numbered (line_num s)).
Proof.
  unfold on_anisou.
  destruct (model s); [|apply raises_wrong; eexists; reflexivity].
  destruct (chain s); [|apply raises_wrong; eexists; reflexivity].
  destruct (resi s); [|apply raises_wrong; eexists; reflexivity].
  apply raises_bind; [apply deref_resi_quiet|intros r _].
  destruct (last _); [|apply raises_wrong; eexists; reflexivity].
  destruct (negb _); [apply raises_wrong; eexists; reflexivity|]. silent.
Qed.

Lemma read_monomers_quiet (l : list ascii) columns entities ent P :
  raises (read_monomers l columns entities ent) P.
Proof.
  revert entities. induction columns as [|i columns IH]; intros entities; simpl.
  - apply raises_Ok.
  - apply raises_bind; [apply raises_scan|intros res_name _]. apply IH.
Qed.

Lemma on_seqres_quiet (s : Reader.t D) P : raises (on_seqres s) P.
Proof.
  unfold on_seqres. apply raises_bind; [apply raises_scan|intros chain_name _].
  destruct (EntitySetter.set_for_chain _ _ _ _) as [[ent es] entities].
  apply raises_bind; [apply read_monomers_quiet|intros ? _]. apply raises_Ok.
Qed.

Lemma on_cryst1_raises (s : Reader.t D) (len : nat) :
  raises (on_cryst1 s len) (fun msg => msg = UnitCellM.impossible_angle).
Proof.
  unfold on_cryst1. apply raises_bind.
  - destruct (54 <? len)%nat; [|apply raises_Ok].
    do 6 (apply raises_bind; [apply raises_scan|intros ? _]).
    unfold UnitCellM.set.
    match goal with |- raises (match (if ?b then _ else _) with _ => _ end) _ => destruct b end.
    + apply raises_Ok.
    + unfold UnitCellM.calculate_properties. cbv zeta.
      destruct (_ || _); [intros msg [= <-]; reflexivity|].
      destruct (explicit_matrices _); apply raises_Ok.
  - intros s1 _. silent.
Qed.

Lemma read_matrix_quiet (m : Mat4x4 D) (l : list ascii) (len : nat) P :
  raises (read_matrix m l len) P.
Proof. unfold read_matrix. silent. Qed.

Lemma on_mtrix_quiet (s : Reader.t D) (len : nat) P : raises (on_mtrix s len) P.
Proof.
  unfold on_mtrix. apply raises_bind; [apply read_matrix_quiet|intros [n m] _]. silent.
Qed.

Lemma on_scale_quiet (s : Reader.t D) (len : nat) P : raises (on_scale s len) P.
Proof.
  unfold on_scale. apply raises_bind; [apply read_matrix_quiet|intros [n m] _]. silent.
Qed.

Lemma on_origx_quiet (s : Reader.t D) (len : nat) P : raises (on_origx s len) P.
Proof.
  unfold on_origx. apply raises_bind; [apply read_matrix_quiet|intros [n m] _]. silent.
Qed.

Lemma on_model_raises (s : Reader.t D) : raises (on_model s) (numbered (line_num s)).
Proof.
  unfold on_model.
  assert (raises (n ← scan (read_int (drop 10 (line s)) 4);
                  (let name := to_string n in
                   let '(ms, mi) := Structure.find_or_add_model (Structure.models (st s)) name in
                   m ← scan (ms !! mi);
                   match Model.chains m with
                   | [] => Ok (with_chain (with_model (with_st s (with_models (st s) ms))
                                                      (Some mi)) None)
                   | _ :: _ => wrong s ("duplicate MODEL number: " +:+ name)
                   end)) (numbered (line_num s))) as H.
  { apply raises_bind; [apply raises_scan|intros n _]. cbv zeta.
    destruct (Structure.find_or_add_model _ _) as [ms mi].
    apply raises_bind; [apply raises_scan|intros m _].
    destruct (Model.chains m); [apply raises_Ok|apply raises_wrong; eexists; reflexivity]. }
  destruct (model s), (chain s); try exact H. apply raises_wrong. eexists. reflexivity.
Qed.

Lemma on_ter_quiet (s : Reader.t D) P : raises (on_ter s) P.
Proof.
  unfold on_ter. apply raises_bind; [|intros ? _; apply raises_Ok].
  destruct (chain s); [|apply raises_Ok]. silent.
Qed.

Lemma on_conn_quiet (s : Reader.t D) n P : raises (on_conn s n) P.
Proof. unfold on_conn. silent. Qed.

Lemma record_type_quiet (l : list ascii) P : raises (record_type l) P.
Proof.
  unfold record_type. induction record_tests as [|[r k] tests IH]; simpl.
  - apply raises_Ok.
  - apply raises_bind; [apply raises_scan|intros [] _; [apply raises_Ok|apply IH]].
Qed.

(** The exceptions of one turn of the loop, by the record that raised. *)
Definition line_error (n : Z) (k : RecordType) (msg : string) : Prop :=
  match k with
  | ATOM => numbered n msg \/ charge_message msg
  | ANISOU | MODEL => numbered n msg
  | CRYST1 => msg = UnitCellM.impossible_angle
  | _ => False
  end.

Lemma process_line_raises (s : Reader.t D) (raw : list ascii) (msg : string) :
  process_line s raw = Raise msg ->
  exists k, record_type (next_line s raw) = Ok k /\ line_error (line_num s + 1) k msg.
Proof.
  unfold process_line, next_line.
  destruct (copy_line_from_stream (line s) raw) as [l len]. cbn [fst].
  destruct (len =? 0)%nat; [discriminate|].
  destruct (record_type l) as [k|msg0|] eqn:Hk; simpl; try discriminate;
    [|destruct (record_type_quiet l (fun _ => False) msg0 Hk)].
  intros H. exists k. split; [reflexivity|].
  set (s0 := with_line s l (line_num s + 1)) in *.
  assert (forall (h : outcome (Reader.t D)) P,
            raises h P -> (s1 ← h; Ok (true, s1)) = Raise msg -> P msg) as Hstep.
  { intros h P Hh Hm. destruct h as [s1|m|]; simpl in Hm; try discriminate.
    injection Hm as <-. apply Hh. reflexivity. }
  destruct k; simpl; try discriminate;
    first [ exact (Hstep _ _ (on_atom_raises s0 len) H)
          | exact (Hstep _ _ (on_anisou_raises s0) H)
          | exact (Hstep _ _ (on_seqres_quiet s0 (fun _ => False)) H)
          | exact (Hstep _ _ (on_cryst1_raises s0 len) H)
          | exact (Hstep _ _ (on_mtrix_quiet s0 len (fun _ => False)) H)
          | exact (Hstep _ _ (on_model_raises s0) H)
          | exact (Hstep _ _ (on_scale_quiet s0 len (fun _ => False)) H)
          | exact (Hstep _ _ (on_origx_quiet s0 len (fun _ => False)) H)
          | exact (Hstep _ _ (on_ter_quiet s0 (fun _ => False)) H)
          | exact (Hstep _ _ (on_conn_quiet s0 _ (fun _ => False)) H) ].
Qed.

Lemma read_loop_raises_at (input : list (list ascii)) (s : Reader.t D) (msg : string) :
  read_loop s input = Raise msg ->
  exists k raw s', input !! k = Some raw /\ run_lines s (take k input) = Some s'
                   /\ process_line s' raw = Raise msg.
Proof.
  revert s. induction input as [|raw input IH]; intros s; simpl; [discriminate|].
  destruct (process_line s raw) as [[[] s1]|m|] eqn:E; simpl; try discriminate.
  - intros H. destruct (IH _ H) as (k & raw' & s' & Hk & Hrun & Hp).
    exists (S k), raw', s'. simpl. rewrite E. auto.
  - intros [= <-]. exists 0, raw, s. auto.
Qed.

Lemma mark_chains_quiet (model_name : string) ht (chains : list (Chain.t D)) entities P :
  raises (mark_chains model_name ht chains entities) P.
Proof.
  revert entities. induction chains as [|ch chains IH]; intros entities; simpl.
  - apply raises_Ok.
  - apply raises_bind; [|intros ? _; apply IH]. silent.
Qed.

Lemma mark_polymers_quiet ht (models : list (Model.t D)) entities P :
  raises (mark_polymers ht models entities) P.
Proof.
  revert entities. induction models as [|m models IH]; intros entities; simpl.
  - apply raises_Ok.
  - apply raises_bind; [apply mark_chains_quiet|intros ? _; apply IH].
Qed.

Lemma reader_raises (input : list (list ascii)) (msg : string) :
  read_pdb_from_line_input (D := D) input = Raise msg -> read_loop initial input = Raise msg.
Proof.
  unfold read_pdb_from_line_input.
  destruct (read_loop initial input) as [s|m|]; simpl; try discriminate; [|congruence].
  destruct (EntitySetter.finalize _ _ _) as [[es entities] models].
  intros H. exfalso.
  pose proof (mark_polymers_quiet (has_ter s) models entities (fun _ => False)) as Hq.
  destruct (mark_polymers _ _ _) as [e|m|] eqn:E; simpl in H; try discriminate.
  injection H as <-. apply (Hq m). reflexivity.
Qed.

Lemma reader_raises_line (pre rest : list (list ascii)) (raw : list ascii)
      (s : Reader.t D) (msg : string) :
  run_lines initial pre = Some s -> process_line s raw = Raise msg ->
  read_pdb_from_line_input (D := D) (pre ++ raw :: rest) = Raise msg.
Proof.
  intros Hrun Hp. unfold read_pdb_from_line_input.
  rewrite (read_loop_raises pre rest raw s msg Hrun Hp). reflexivity.
Qed.

End errors.

(** X12: every exception of the reader comes from one line: the lines before it
    were read without one, the line is an ATOM/HETATM, ANISOU, MODEL or
    CRYST1 record, and the message is [wrong]'s with the 1-based number of
    that line, or else [read_charge]'s (ATOM and HETATM) or the unit cell's
    (CRYST1), which name no line. *)
Theorem exceptions_name_the_line {D : Type} {ops : DoubleOps D}
        (input : list (list ascii)) (msg : string) :
  read_pdb_from_line_input input = Raise msg ->
  exists (k : nat) (raw : list ascii) (s : Reader.t D) (r : RecordType),
    input !! k = Some raw
    /\ run_lines initial (take k input) = Some s
    /\ process_line s raw = Raise msg
    /\ record_type (next_line s raw) = Ok r
    /\ match r with
       | ATOM => numbered (Z.of_nat k + 1) msg \/ charge_message msg
       | ANISOU | MODEL => numbered (Z.of_nat k + 1) msg
       | CRYST1 => msg = UnitCellM.impossible_angle
       | _ => False
       end.
Proof.
  intros H. apply reader_raises, read_loop_raises_at in H.
  destruct H as (k & raw & s & Hk & Hrun & Hp).
  destruct (process_line_raises s raw msg Hp) as (r & Hr & He).
  exists k, raw, s, r. repeat (split; [assumption|]).
  apply run_lines_counts in Hrun. rewrite length_take in Hrun.
  apply lookup_lt_Some in Hk.
  replace (Z.of_nat k + 1)%Z with (line_num s + 1)%Z
    by (rewrite Hrun; simpl; rewrite Nat.min_l by lia; lia).
  exact He.
Qed.

(** An ATOM line that ends after the residue number. *)
Definition short_atom : list ascii := MatrixProofs.pdb_line "ATOM      1  N   ALA A   1".

Lemma exceptions_name_the_line_witness :
  exists (k : nat) (raw : list ascii) (s : Reader.t float) (r : RecordType),
    [short_atom] !! k = Some raw
    /\ run_lines (ops := Float64 no_libm) (initial (ops := Float64 no_libm))
                 (take k [short_atom]) = Some s
    /\ process_line (ops := Float64 no_libm) s raw
       = Raise ("Problem in line 1: The line is too short to be correct:"
                +:+ String Char.LF (string_of_line short_atom))
    /\ record_type (next_line s raw) = Ok r
    /\ match r with
       | ATOM => numbered (Z.of_nat k + 1)
                          ("Problem in line 1: The line is too short to be correct:"
                           +:+ String Char.LF (string_of_line short_atom))
                 \/ charge_message ("Problem in line 1: The line is too short to be correct:"
                                    +:+ String Char.LF (string_of_line short_atom))
       | ANISOU | MODEL =>
           numbered (Z.of_nat k + 1)
                    ("Problem in line 1: The line is too short to be correct:"
                     +:+ String Char.LF (string_of_line short_atom))
       | CRYST1 => "Problem in line 1: The line is too short to be correct:"
                   +:+ String Char.LF (string_of_line short_atom)
                   = UnitCellM.impossible_angle
       | _ => False
       end.
Proof.
  apply (exceptions_name_the_line (ops := Float64 no_libm) [short_atom]).
  vm_compute. reflexivity.
Defined.



Section out_of_place.
Context {D : Type} {ops : DoubleOps D}.

(** The state when the lines [pre] were read, at the line [raw]. *)
Lemma at_line_after (pre : list (list ascii)) (raw : list ascii) (s : Reader.t D) :
  run_lines initial pre = Some s ->
  Safety.safe (at_line s raw)
  /\ line_num (at_line s raw) = (Z.of_nat (length pre) + 1)%Z
  /\ model (at_line s raw) = model s /\ chain (at_line s raw) = chain s
  /\ resi (at_line s raw) = resi s.
Proof.
  intros Hrun. pose proof (run_lines_safe _ _ _ Safety.initial_safe Hrun) as (Hl & Hm & Hc).
  apply run_lines_counts in Hrun. simpl in Hrun.
  split; [|simpl; repeat split; lia].
  split; [|split; assumption].
  unfold at_line, next_line. simpl. apply Safety.copy_line_length. exact Hl.
Qed.

Lemma raising_line (pre rest : list (list ascii)) (raw : list ascii) (s : Reader.t D)
      (k : RecordType) (msg : string) :
  run_lines initial pre = Some s -> record_type raw = Ok k -> k <> OTHER ->
  (forall len, len = min 81 (strlen raw) ->
     match k with
     | ATOM => on_atom (at_line s raw) len
     | ANISOU => on_anisou (at_line s raw)
     | MODEL => on_model (at_line s raw)
     | _ => Ok s
     end = Raise msg) ->
  read_pdb_from_line_input (pre ++ raw :: rest) = Raise msg.
Proof.
  intros Hrun Hk Hother Hh. apply (reader_raises_line pre rest raw s msg Hrun).
  pose proof (record_type_strlen raw k Hk Hother) as Hlen.
  rewrite (process_line_dispatch s raw k).
  - specialize (Hh _ (copied_length (line s) raw)).
    destruct k; try discriminate; rewrite Hh; reflexivity.
  - rewrite copied_length. lia.
  - apply record_type_next_line. exact Hk.
Qed.

End out_of_place.

(** X13: an ATOM or HETATM line of fewer than 77 bytes raises, whatever it
    holds: the message names the line by its 1-based number and quotes it. *)
Theorem short_atom_line {D : Type} {ops : DoubleOps D}
        (pre rest : list (list ascii)) (raw : list ascii) (s : Reader.t D) :
  run_lines initial pre = Some s -> record_type raw = Ok ATOM -> strlen raw < 77 ->
  read_pdb_from_line_input (pre ++ raw :: rest)
  = Raise ("Problem in line " +:+ to_string (Z.of_nat (length pre) + 1)
           +:+ ": The line is too short to be correct:" +:+ String Char.LF (string_of_line raw)).
Proof.
  intros Hrun Hk Hlen. apply (raising_line pre rest raw s ATOM); try assumption; [discriminate|].
  intros len ->. destruct (at_line_after pre raw s Hrun) as (_ & Hn & _).
  unfold on_atom. replace (min 81 (strlen raw) <? 77)%nat with true
    by (symmetry; apply Nat.ltb_lt; lia).
  unfold wrong. rewrite Hn.
  change (line (at_line s raw)) with (fst (copy_line_from_stream (line s) raw)).
  rewrite copied_string by lia. reflexivity.
Qed.

Lemma short_atom_line_witness :
  read_pdb_from_line_input (ops := Float64 no_libm)
                           ([MatrixProofs.pdb_line "REMARK"] ++ short_atom :: [])
  = Raise ("Problem in line " +:+ to_string (Z.of_nat (length [MatrixProofs.pdb_line "REMARK"]) + 1)
           +:+ ": The line is too short to be correct:"
           +:+ String Char.LF (string_of_line short_atom)).
Proof.
  apply (short_atom_line (ops := Float64 no_libm) [MatrixProofs.pdb_line "REMARK"] [] short_atom
           (state_after [MatrixProofs.pdb_line "REMARK"])).
  - vm_compute. reflexivity.
  - vm_compute. reflexivity.
  - vm_compute. lia.
Defined.


(** X14: an ATOM or HETATM line of 77 bytes or more that is met while no model
    is open (ENDMDL closed the last one and no MODEL followed) raises
    [ATOM/HETATM between models] with the number of the line. *)
Theorem atom_between_models {D : Type} {ops : DoubleOps D}
        (pre rest : list (list ascii)) (raw : list ascii) (s : Reader.t D) :
  run_lines initial pre = Some s -> model s = None ->
  record_type raw = Ok ATOM -> 77 <= strlen raw ->
  read_pdb_from_line_input (pre ++ raw :: rest)
  = Raise ("Problem in line " +:+ to_string (Z.of_nat (length pre) + 1)
           +:+ ": ATOM/HETATM between models").
Proof.
  intros Hrun Hm Hk Hlen.
  apply (raising_line pre rest raw s ATOM); try assumption; [discriminate|].
  intros len ->. destruct (at_line_after pre raw s Hrun) as (Hs & Hn & Hm0 & Hc0 & _).
  destruct Hs as (Hl & _). rewrite Hm in Hm0.
  assert (chain (at_line s raw) = None) as Hc.
  { rewrite Hc0. destruct (chain s) as [cp|] eqn:E; [|reflexivity].
    pose proof (run_lines_safe _ _ _ Safety.initial_safe Hrun) as (_ & _ & Hcs).
    destruct (Hcs cp E) as (Hms & _). congruence. }
  unfold on_atom. replace (min 81 (strlen raw) <? 77)%nat with false
    by (symmetry; apply Nat.ltb_ge; lia).
  destruct (Safety.line_string _ Hl 20 2) as [chain_name ->]; [lia|].
  unfold select_chain. rewrite Hc, Hm0. unfold wrong. rewrite Hn. reflexivity.
Qed.

Definition endmdl_record : list ascii := MatrixProofs.pdb_line "ENDMDL".

Lemma atom_between_models_witness :
  read_pdb_from_line_input (ops := Float64 no_libm)
                           ([atom_of_A; endmdl_record] ++ hetatm_of_A :: [])
  = Raise ("Problem in line " +:+ to_string (Z.of_nat (length [atom_of_A; endmdl_record]) + 1)
           +:+ ": ATOM/HETATM between models").
Proof.
  apply (atom_between_models (ops := Float64 no_libm) [atom_of_A; endmdl_record] [] hetatm_of_A
           (state_after [atom_of_A; endmdl_record])).
  - vm_compute. reflexivity.
  - vm_compute. reflexivity.
  - vm_compute. reflexivity.
  - vm_compute. lia.
Defined.


(** X15: an ANISOU line that is met while no chain is current (at the start
    and after TER, MODEL and ENDMDL) raises [ANISOU record not directly after
    ATOM/HETATM.] with the number of the line. *)
Theorem anisou_without_atom {D : Type} {ops : DoubleOps D}
        (pre rest : list (list ascii)) (raw : list ascii) (s : Reader.t D) :
  run_lines initial pre = Some s -> chain s = None -> record_type raw = Ok ANISOU ->
  read_pdb_from_line_input (pre ++ raw :: rest)
  = Raise ("Problem in line " +:+ to_string (Z.of_nat (length pre) + 1)
           +:+ ": ANISOU record not directly after ATOM/HETATM.").
Proof.
  intros Hrun Hc Hk. apply (raising_line pre rest raw s ANISOU); try assumption; [discriminate|].
  intros len _. destruct (at_line_after pre raw s Hrun) as (_ & Hn & _ & Hc0 & _).
  unfold on_anisou. rewrite Hc0, Hc. unfold wrong. rewrite Hn.
  destruct (model (at_line s raw)); reflexivity.
Qed.

Definition anisou_record : list ascii :=
  MatrixProofs.pdb_line "ANISOU    1  N   ALA A   1      688   1234    806    -19    -49    178       N  ".

Lemma anisou_without_atom_witness :
  read_pdb_from_line_input (ops := Float64 no_libm)
                           ([atom_of_A; ter_record] ++ anisou_record :: [])
  = Raise ("Problem in line " +:+ to_string (Z.of_nat (length [atom_of_A; ter_record]) + 1)
           +:+ ": ANISOU record not directly after ATOM/HETATM.").
Proof.
  apply (anisou_without_atom (ops := Float64 no_libm) [atom_of_A; ter_record] [] anisou_record
           (state_after [atom_of_A; ter_record])).
  - vm_compute. reflexivity.
  - vm_compute. reflexivity.
  - vm_compute. reflexivity.
Defined.


(** X16: a MODEL line that is met while a chain is current (an atom was read
    and neither TER nor ENDMDL followed) raises [MODEL without ENDMDL?] with
    the number of the line. *)
Theorem model_without_endmdl {D : Type} {ops : DoubleOps D}
        (pre rest : list (list ascii)) (raw : list ascii) (s : Reader.t D) :
  run_lines initial pre = Some s -> is_Some (chain s) -> record_type raw = Ok MODEL ->
  read_pdb_from_line_input (pre ++ raw :: rest)
  = Raise ("Problem in line " +:+ to_string (Z.of_nat (length pre) + 1)
           +:+ ": MODEL without ENDMDL?").
Proof.
  intros Hrun [cp Hc] Hk.
  apply (raising_line pre rest raw s MODEL); try assumption; [discriminate|].
  intros len _. destruct (at_line_after pre raw s Hrun) as (_ & Hn & Hm0 & Hc0 & _).
  pose proof (run_lines_safe _ _ _ Safety.initial_safe Hrun) as (_ & _ & Hcs).
  destruct (Hcs cp Hc) as (Hms & _).
  unfold on_model. rewrite Hc0, Hc, Hm0, Hms. unfold wrong. rewrite Hn. reflexivity.
Qed.

Definition model_record : list ascii := MatrixProofs.pdb_line "MODEL        2".

Lemma model_without_endmdl_witness :
  read_pdb_from_line_input (ops := Float64 no_libm) ([atom_of_A] ++ model_record :: [])
  = Raise ("Problem in line " +:+ to_string (Z.of_nat (length [atom_of_A]) + 1)
           +:+ ": MODEL without ENDMDL?").
Proof.
  apply (model_without_endmdl (ops := Float64 no_libm) [atom_of_A] [] model_record
           (state_after [atom_of_A])).
  - vm_compute. reflexivity.
  - vm_compute. eauto.
  - vm_compute. reflexivity.
Defined.


(** X17: the loop is left at an END record and at a line whose first byte is
    NUL: what follows it in the input is not read. *)
Theorem nothing_is_read_after_end {D : Type} {ops : DoubleOps D}
        (pre rest : list (list ascii)) (raw : list ascii) (s : Reader.t D) :
  run_lines initial pre = Some s ->
  strlen raw = 0 \/ record_type raw = Ok END ->
  read_pdb_from_line_input (D := D) (pre ++ raw :: rest)
  = read_pdb_from_line_input (pre ++ [raw]).
Proof.
  intros Hrun Hend. unfold read_pdb_from_line_input.
  rewrite !(run_lines_read_loop _ _ _ _ Hrun).
  assert (exists s', process_line s raw = Ok (false, s')) as [s' Hp].
  { destruct (Nat.eq_dec (strlen raw) 0) as [H0|H0].
    - unfold process_line. pose proof (copied_length (line s) raw) as Hlen.
      destruct (copy_line_from_stream (line s) raw) as [l len]. simpl in Hlen.
      rewrite Hlen, H0. simpl. eauto.
    - destruct Hend as [|Hk]; [contradiction|].
      rewrite (process_line_dispatch s raw END).
      + eauto.
      + rewrite copied_length. lia.
      + apply record_type_next_line. exact Hk. }
  simpl. rewrite Hp. reflexivity.
Qed.

Definition end_record : list ascii := MatrixProofs.pdb_line "END   ".

Lemma nothing_is_read_after_end_witness :
  read_pdb_from_line_input (ops := Float64 no_libm) ([atom_of_A] ++ end_record :: [hetatm_of_A])
  = read_pdb_from_line_input (ops := Float64 no_libm) ([atom_of_A] ++ [end_record]).
Proof.
  apply (nothing_is_read_after_end (ops := Float64 no_libm) [atom_of_A] [hetatm_of_A] end_record
           (state_after [atom_of_A])).
  - vm_compute. reflexivity.
  - right. vm_compute. reflexivity.
Defined.



(** X18: a TER or END line that ends right after the three letters (the fourth
    byte is the line feed or the carriage return) is no TER and no END record
    for the reader: [is_record_type] compares four bytes, and the line is
    passed over like an unknown record. *)
Theorem bare_ter_and_end_are_skipped {D : Type} {ops : DoubleOps D}
        (s : Reader.t D) (name : string) (eol : ascii) (tl : list ascii) :
  name = "TER"%string \/ name = "END"%string -> eol = Char.LF \/ eol = Char.CR ->
  record_type (list_ascii_of_string name ++ eol :: tl) = Ok OTHER
  /\ process_line s (list_ascii_of_string name ++ eol :: tl)
     = Ok (true, at_line s (list_ascii_of_string name ++ eol :: tl)).
Proof.
  intros Hname Heol.
  assert (record_type (list_ascii_of_string name ++ eol :: tl) = Ok OTHER) as Hk.
  { transitivity (record_type (list_ascii_of_string name ++ [eol])).
    - apply record_type_agree. intros i Hi.
      destruct Hname as [-> | ->]; destruct i as [|[|[|[|i]]]]; try reflexivity; lia.
    - destruct Hname as [-> | ->], Heol as [-> | ->]; vm_compute; reflexivity. }
  split; [exact Hk|].
  rewrite (process_line_dispatch s _ OTHER).
  - reflexivity.
  - rewrite copied_length. destruct Hname as [-> | ->]; unfold strlen; simpl; lia.
  - apply record_type_next_line. exact Hk.
Qed.

Lemma bare_ter_and_end_are_skipped_witness :
  record_type (list_ascii_of_string "TER" ++ Char.LF :: []) = Ok OTHER
  /\ process_line (ops := Float64 no_libm) (state_after [atom_of_A])
                  (list_ascii_of_string "TER" ++ Char.LF :: [])
     = Ok (true, at_line (state_after [atom_of_A]) (list_ascii_of_string "TER" ++ Char.LF :: [])).
Proof.
  apply (bare_ter_and_end_are_skipped (ops := Float64 no_libm) (state_after [atom_of_A])
           "TER" Char.LF []); left; reflexivity.
Defined.

End ReaderFacts.

(** ** Counting atoms *)

Module AtomCount.
Import pdb_impl pdb_num Reader ChainProofs RecordFacts ReaderFacts.
Local Open Scope nat_scope.

Section with_double.
Context {D : Type} {ops : DoubleOps D}.

(** The atoms of a model and of the structure, by [Chain.count_atoms]. *)
Definition model_atoms (m : Model.t D) : nat :=
  list_sum (map Chain.count_atoms (Model.chains m)).
Definition structure_atoms (x : Structure.t D) : nat :=
  list_sum (map model_atoms (Structure.models x)).

Lemma list_sum_insert {A} (f : A -> nat) (l : list A) (i : nat) (old new : A) :
  l !! i = Some old ->
  list_sum (map f (<[i := new]> l)) + f old = list_sum (map f l) + f new.
Proof.
  revert i. induction l as [|x l IH]; intros [|i]; simpl; try discriminate.
  - intros [= ->]. lia.
  - intros H. specialize (IH i H). lia.
Qed.

Lemma list_sum_snoc {A} (f : A -> nat) (l : list A) (x : A) :
  list_sum (map f (l ++ [x])) = list_sum (map f l) + f x.
Proof. rewrite map_app, list_sum_app. simpl. lia. Qed.

Lemma store_chain_atoms (x x' : Structure.t D) (cp : nat * nat) (ch ch' : Chain.t D) :
  deref_chain x cp = Ok ch -> store_chain x cp ch' = Ok x' ->
  structure_atoms x' + Chain.count_atoms ch = structure_atoms x + Chain.count_atoms ch'.
Proof.
  unfold deref_chain, store_chain, deref_model. intros Hd Hs.
  destruct (Structure.models x !! fst cp) as [m|] eqn:Em; [|discriminate].
  simpl in Hd, Hs. apply scan_Ok in Hd. injection Hs as <-.
  unfold structure_atoms. simpl.
  pose proof (list_sum_insert model_atoms _ _ _
                (Model.mk (Model.name m) (<[snd cp := ch']> (Model.chains m))) Em) as H1.
  pose proof (list_sum_insert Chain.count_atoms _ _ _ ch' Hd) as H2.
  change (model_atoms (Model.mk ?n ?cs)) with (list_sum (map Chain.count_atoms cs)) in H1.
  change (model_atoms m) with (list_sum (map Chain.count_atoms (Model.chains m))) in H1.
  lia.
Qed.

Lemma store_resi_atoms (x x' : Structure.t D) (rp : nat * nat * nat) (r r' : Residue.t D) :
  deref_resi x rp = Ok r -> store_resi x rp r' = Ok x' ->
  structure_atoms x' + length (Residue.atoms r) = structure_atoms x + length (Residue.atoms r').
Proof.
  unfold deref_resi, store_resi. intros Hd Hs.
  destruct (deref_chain x (fst rp)) as [ch| |] eqn:Ec; try discriminate.
  simpl in Hd, Hs. apply scan_Ok in Hd.
  pose proof (store_chain_atoms _ _ _ _ _ Ec Hs) as H1.
  pose proof (list_sum_insert (fun r => length (Residue.atoms r)) _ _ _ r' Hd) as H2.
  change (Chain.count_atoms (Chain.mk ?n ?a ?e ?rs))
    with (list_sum (map (fun r : Residue.t D => length (Residue.atoms r)) rs)) in H1.
  change (Chain.count_atoms ch)
    with (list_sum (map (fun r : Residue.t D => length (Residue.atoms r)) (Chain.residues ch)))
    in H1.
  lia.
Qed.

Lemma select_chain_atoms (s s1 : Reader.t D) (n : string) :
  select_chain s n = Ok s1 -> structure_atoms (st s1) = structure_atoms (st s).
Proof.
  unfold select_chain. intros H. apply bind_Ok in H. destruct H as (differs & _ & H).
  destruct differs; [|injection H as <-; reflexivity].
  destruct (model s) as [mi|]; [|discriminate].
  apply bind_Ok in H. destruct H as (m & Hm & H). unfold deref_model in Hm. apply scan_Ok in Hm.
  destruct (Model.find_or_add_chain m _) as [m' ci] eqn:Ef.
  apply bind_Ok in H. destruct H as (ch & Hch & H). apply scan_Ok in Hch. injection H as <-.
  unfold structure_atoms. simpl.
  pose proof (list_sum_insert model_atoms _ _ _
                (Model.mk (Model.name m')
                   (<[ci := Chain.mk (Chain.name ch) n (Chain.entity ch) (Chain.residues ch)]>
                      (Model.chains m'))) Hm) as H1.
  pose proof (list_sum_insert Chain.count_atoms _ _ _
                (Chain.mk (Chain.name ch) n (Chain.entity ch) (Chain.residues ch)) Hch) as H2.
  assert (model_atoms m' = model_atoms m) as H3.
  { unfold Model.find_or_add_chain in Ef. destruct (Chain.find_index _ _).
    - injection Ef as <- <-. reflexivity.
    - injection Ef as <- <-. unfold model_atoms. simpl. rewrite list_sum_snoc.
      unfold Chain.count_atoms. simpl. lia. }
  change (model_atoms (Model.mk ?n ?cs)) with (list_sum (map Chain.count_atoms cs)) in H1.
  change (list_sum (map Chain.count_atoms (Model.chains m'))) with (model_atoms m') in H2.
  change (Chain.count_atoms (Chain.mk ?n ?a ?e ?rs)) with (Chain.count_atoms ch) in H2.
  lia.
Qed.

Lemma select_residue_atoms (s s2 : Reader.t D) (rid : ResidueId.t) :
  select_residue s rid = Ok s2 -> structure_atoms (st s2) = structure_atoms (st s).
Proof.
  unfold select_residue. intros H. apply bind_Ok in H. destruct H as (cp & _ & H).
  apply bind_Ok in H. destruct H as (differs & _ & H).
  destruct differs; [|injection H as <-; reflexivity].
  apply bind_Ok in H. destruct H as (ch & Hch & H).
  destruct (Chain.find_or_add_residue ch rid) as [ch' ri] eqn:Ef.
  apply bind_Ok in H. destruct H as (x & Hx & H). injection H as <-. simpl.
  pose proof (store_chain_atoms _ _ _ _ _ Hch Hx) as H1.
  assert (Chain.count_atoms ch' = Chain.count_atoms ch) as H2.
  { unfold Chain.find_or_add_residue in Ef. destruct (Chain.find_index _ _).
    - injection Ef as <- <-. reflexivity.
    - injection Ef as <- <-. unfold Chain.count_atoms. simpl. rewrite list_sum_snoc.
      simpl. lia. }
  lia.
Qed.

(** An ATOM or HETATM record adds one atom. *)
Lemma on_atom_atoms (s s' : Reader.t D) (len : nat) :
  on_atom s len = Ok s' -> structure_atoms (st s') = S (structure_atoms (st s)).
Proof.
  unfold on_atom. intros H. destruct (len <? 77); [discriminate|].
  apply bind_Ok in H. destruct H as (chain_name & _ & H).
  apply bind_Ok in H. destruct H as (s1 & Hs1 & H).
  apply bind_Ok in H. destruct H as (snic & _ & H).
  apply bind_Ok in H. destruct H as (res_name & _ & H).
  apply bind_Ok in H. destruct H as (segment & _ & H).
  apply bind_Ok in H. destruct H as (s2 & Hs2 & H).
  apply bind_Ok in H. destruct H as (atom & _ & H).
  apply bind_Ok in H. destruct H as (rp & _ & H).
  apply bind_Ok in H. destruct H as (r & Hr & H).
  apply bind_Ok in H. destruct H as (x & Hx & H). injection H as <-. simpl.
  apply select_chain_atoms in Hs1. apply select_residue_atoms in Hs2.
  pose proof (store_resi_atoms _ _ _ _ _ Hr Hx) as H1. simpl in H1.
  rewrite length_app in H1. simpl in H1. lia.
Qed.

(** An ANISOU record writes to the last atom and adds none. *)
Lemma on_anisou_atoms (s s' : Reader.t D) :
  on_anisou s = Ok s' -> structure_atoms (st s') = structure_atoms (st s).
Proof.
  unfold on_anisou. intros H.
  destruct (model s); [|discriminate]. destruct (chain s); [|discriminate].
  destruct (resi s) as [rp|]; [|discriminate].
  apply bind_Ok in H. destruct H as (r & Hr & H).
  destruct (last (Residue.atoms r)) as [atom|] eqn:El; [|discriminate].
  destruct (negb _); [discriminate|].
  do 6 (apply bind_Ok in H; let v := fresh "v" in destruct H as (v & _ & H)).
  apply bind_Ok in H. destruct H as (x & Hx & H). injection H as <-. simpl.
  pose proof (store_resi_atoms _ _ _ _ _ Hr Hx) as H1. simpl in H1.
  rewrite length_app in H1. simpl in H1.
  assert (length (removelast (Residue.atoms r)) + 1 = length (Residue.atoms r)) as H2.
  { destruct (Residue.atoms r) as [|a l] using rev_ind; [discriminate|].
    rewrite removelast_last, length_app. reflexivity. }
  lia.
Qed.

(** A MODEL record opens an empty model or none. *)
Lemma on_model_atoms (s s' : Reader.t D) :
  on_model s = Ok s' -> structure_atoms (st s') = structure_atoms (st s).
Proof.
  unfold on_model. intros H.
  assert (forall n ms mi, Structure.find_or_add_model (Structure.models (st s)) n = (ms, mi) ->
            list_sum (map model_atoms ms) = structure_atoms (st s)) as Hadd.
  { intros n ms mi. unfold Structure.find_or_add_model.
    destruct (Chain.find_index _ _); intros [= <- <-]; [reflexivity|].
    rewrite list_sum_snoc. unfold model_atoms at 2. simpl. unfold structure_atoms. lia. }
  destruct (model s), (chain s); try discriminate;
    (apply bind_Ok in H; destruct H as (num & _ & H); cbv zeta in H;
     destruct (Structure.find_or_add_model _ _) as [ms mi] eqn:Ef;
     apply bind_Ok in H; destruct H as (m & _ & H);
     destruct (Model.chains m); [|discriminate]; injection H as <-;
     unfold structure_atoms at 1; simpl; eapply Hadd; exact Ef).
Qed.

(** The other records leave the models as they are. *)
Lemma other_records_models (s s' : Reader.t D) (len : nat) (k : RecordType) :
  match k with
  | SEQRES => on_seqres s
  | CRYST1 => on_cryst1 s len
  | MTRIXn => on_mtrix s len
  | SCALEn => on_scale s len
  | ORIGX => on_origx s len
  | TER => on_ter s
  | ENDMDL => on_endmdl s
  | SSBOND => on_conn s 34
  | CISPEP => on_conn s 21
  | ATOM | ANISOU | MODEL => Fault
  | _ => Ok s
  end = Ok s' ->
  Structure.models (st s') = Structure.models (st s).
Proof.
  destruct k; try discriminate; try (intros [= <-]; reflexivity);
    unfold on_seqres, on_cryst1, on_mtrix, on_scale, on_origx, on_ter, on_endmdl, on_conn;
    intros H; crunch; congruence.
Qed.

(** An ATOM or HETATM record that is read adds exactly one atom to the
    structure, and no other record adds or removes one. *)
Lemma process_line_atoms (s s' : Reader.t D) (raw : list ascii) (go_on : bool) :
  process_line s raw = Ok (go_on, s') ->
  structure_atoms (st s')
  = structure_atoms (st s)
    + match record_type (next_line s raw) with
      | Ok ATOM => if go_on then 1 else 0
      | _ => 0
      end.
Proof.
  intros H. destruct go_on.
  - apply process_line_handler in H. destruct H as (k & Hk & H). rewrite Hk.
    destruct k; simpl;
      try (apply on_atom_atoms in H; change (st (at_line s raw)) with (st s) in H; lia);
      try (apply on_anisou_atoms in H; change (st (at_line s raw)) with (st s) in H; lia);
      try (apply on_model_atoms in H; change (st (at_line s raw)) with (st s) in H; lia);
      try discriminate;
      rewrite Nat.add_0_r; unfold structure_atoms; f_equal; f_equal.
    all: first
      [ exact (other_records_models _ _ (snd (copy_line_from_stream (line s) raw)) SEQRES H)
      | exact (other_records_models _ _ (snd (copy_line_from_stream (line s) raw)) CRYST1 H)
      | exact (other_records_models _ _ (snd (copy_line_from_stream (line s) raw)) MTRIXn H)
      | exact (other_records_models _ _ (snd (copy_line_from_stream (line s) raw)) SCALEn H)
      | exact (other_records_models _ _ (snd (copy_line_from_stream (line s) raw)) ORIGX H)
      | exact (other_records_models _ _ (snd (copy_line_from_stream (line s) raw)) TER H)
      | exact (other_records_models _ _ (snd (copy_line_from_stream (line s) raw)) ENDMDL H)
      | exact (other_records_models _ _ (snd (copy_line_from_stream (line s) raw)) SSBOND H)
      | exact (other_records_models _ _ (snd (copy_line_from_stream (line s) raw)) CISPEP H)
      | injection H as <-; reflexivity ].
  - assert (st s' = st s) as ->.
    { unfold process_line in H.
      destruct (copy_line_from_stream (line s) raw) as [l len].
      destruct (len =? 0); [injection H as <-; reflexivity|].
      apply bind_Ok in H. destruct H as (k & _ & H).
      destruct k; try (apply bind_Ok in H; destruct H as (? & _ & H)); try discriminate.
      injection H as <-. reflexivity. }
    destruct (record_type _) as [[]| |]; lia.
Qed.

(** ATOM and HETATM lines, as the reader tells them. *)
Definition is_atom_record (raw : list ascii) : bool :=
  match record_type raw with Ok ATOM => true | _ => false end.

Lemma next_line_atom (s : Reader.t D) (raw : list ascii) :
  match record_type (next_line s raw) with Ok ATOM => 1 | _ => 0 end
  = if is_atom_record raw then 1 else 0.
Proof.
  unfold is_atom_record.
  destruct (le_lt_dec 4 (length raw)) as [Hlen|Hlen].
  - replace (record_type (next_line s raw)) with (record_type raw);
      [destruct (record_type raw) as [[]| |]; reflexivity|].
    apply record_type_agree. intros i Hi.
    unfold next_line, copy_line_from_stream. cbv zeta. cbn [fst].
    rewrite <- app_assoc, lookup_app_l by (rewrite length_take; lia).
    symmetry. apply lookup_take_lt. lia.
  - assert (record_type raw <> Ok ATOM) as Hraw.
    { intros H. apply record_type_length in H. lia. }
    assert (record_type (next_line s raw) <> Ok ATOM) as Hnext.
    { intros H. destruct (atom_record_bytes _ (length raw) H Hlen) as (c & Hc & Hnul).
      unfold next_line, copy_line_from_stream in Hc. cbv zeta in Hc. cbn [fst] in Hc.
      rewrite take_ge, <- app_assoc in Hc by lia. cbn [app] in Hc.
      rewrite list_lookup_middle in Hc by reflexivity. injection Hc as <-. discriminate. }
    destruct (record_type raw) as [[]| |], (record_type (next_line s raw)) as [[]| |];
      congruence.
Qed.

Lemma run_lines_atoms (input : list (list ascii)) (s s' : Reader.t D) :
  run_lines s input = Some s' ->
  structure_atoms (st s') = structure_atoms (st s) + length (List.filter is_atom_record input).
Proof.
  revert s. induction input as [|raw input IH]; intros s; simpl.
  - intros [= <-]. lia.
  - destruct (process_line s raw) as [[[] s1]| |] eqn:E; try discriminate.
    intros H. apply IH in H. apply process_line_atoms in E.
    rewrite next_line_atom in E. destruct (is_atom_record raw); simpl; lia.
Qed.

(** [finalize] writes the entities of the chains and leaves their atoms. *)
Lemma set_chain_entities_atoms es entities (chains : list (Chain.t D)) es' entities' chains' :
  EntitySetter.set_chain_entities es entities chains = (es', entities', chains') ->
  map Chain.count_atoms chains' = map Chain.count_atoms chains.
Proof.
  revert es entities es' entities' chains'.
  induction chains as [|ch chains IH]; intros es entities es' entities' chains'; simpl.
  - intros [= <- <- <-]. reflexivity.
  - destruct (EntitySetter.set_for_chain _ _ _ _) as [[ent es1] entities1].
    destruct (EntitySetter.set_chain_entities es1 entities1 chains) as [[es2 entities2] chains2]
      eqn:E.
    intros [= <- <- <-]. simpl. rewrite (IH _ _ _ _ _ E). reflexivity.
Qed.

Lemma set_model_entities_atoms es entities (models : list (Model.t D)) es' entities' models' :
  EntitySetter.set_model_entities es entities models = (es', entities', models') ->
  map model_atoms models' = map model_atoms models.
Proof.
  revert es entities es' entities' models'.
  induction models as [|md models IH]; intros es entities es' entities' models'; simpl.
  - intros [= <- <- <-]. reflexivity.
  - destruct (EntitySetter.set_chain_entities _ _ _) as [[es1 entities1] chains1] eqn:Ec.
    destruct (EntitySetter.set_model_entities es1 entities1 models) as [[es2 entities2] models2]
      eqn:E.
    intros [= <- <- <-]. simpl. rewrite (IH _ _ _ _ _ E). f_equal.
    unfold model_atoms. simpl. rewrite (set_chain_entities_atoms _ _ _ _ _ _ Ec). reflexivity.
Qed.

End with_double.

(** X19: when every line of the input is read, the structure the reader returns
    holds exactly as many atoms as the input has ATOM and HETATM lines: each
    of them adds one atom, and no other record adds or removes one. *)
Theorem atoms_are_atom_records {D : Type} {ops : DoubleOps D}
        (input : list (list ascii)) (s : Reader.t D) (x : Structure.t D) :
  run_lines initial input = Some s -> read_pdb_from_line_input input = Ok x ->
  structure_atoms x = length (List.filter is_atom_record input).
Proof.
  intros Hrun Hx. unfold read_pdb_from_line_input in Hx.
  pose proof (run_lines_read_loop input [] _ _ Hrun) as Hloop.
  rewrite app_nil_r in Hloop. simpl in Hloop. rewrite Hloop in Hx. simpl in Hx.
  unfold EntitySetter.finalize in Hx.
  destruct (EntitySetter.merge_entities _ _) as [entities1 m1].
  destruct (EntitySetter.set_model_entities _ _ _) as [[es2 entities2] models2] eqn:E.
  apply bind_Ok in Hx. destruct Hx as (entities3 & _ & Hx). injection Hx as <-.
  apply run_lines_atoms in Hrun. apply set_model_entities_atoms in E.
  unfold structure_atoms in *. simpl in *. rewrite E. exact Hrun.
Qed.

(** The chains A and B of [two_chains], an atom each, after two SEQRES lines. *)
Lemma atoms_are_atom_records_witness :
  exists x, read_pdb_from_line_input (ops := Float64 no_libm) EntityProofs.two_chains = Ok x
            /\ structure_atoms x = length (List.filter is_atom_record EntityProofs.two_chains).
Proof.
  destruct (read_pdb_from_line_input (ops := Float64 no_libm) EntityProofs.two_chains)
    as [x| |] eqn:E; [|vm_compute in E; discriminate|vm_compute in E; discriminate].
  exists x. split; [reflexivity|].
  apply (atoms_are_atom_records (ops := Float64 no_libm) EntityProofs.two_chains
           (state_after EntityProofs.two_chains) x); [vm_compute; reflexivity|exact E].
Defined.

End AtomCount.

(** ** The unit cell: the metric of [orth], and what the calls compose to *)

Module CellFacts.
Import UnitCellM CellProofs.

Section metric.
Local Open Scope R_scope.




End metric.




Section any_arithmetic.
Context {D : Type} {ops : DoubleOps D}.
Local Open Scope d_scope.

(** X21: [set_matrices_from_fract] is idempotent: a second call with the same
    transform changes nothing, whichever of its three ways the first went and
    whatever the arithmetic. *)
Theorem set_matrices_from_fract_twice (u : UnitCell D) (f : Transform D) :
  set_matrices_from_fract (set_matrices_from_fract u f) f = set_matrices_from_fract u f.
Proof.
  unfold set_matrices_from_fract.
  destruct (mat33_approx (mat f) (mat (frac u)) (d_lit 5 (-6))
            && vec3_approx (vec f) (vec (frac u)) (d_lit 1 (-6))) eqn:E1;
    [rewrite E1; reflexivity|].
  destruct ((m00 (mat (frac u)) == #1) && ((m00 (mat f) == #0) || (m00 (mat f) >? #1)))
    eqn:E2; [rewrite E1, E2; reflexivity|].
  cbn [frac].
  destruct (mat33_approx (mat f) (mat f) (d_lit 5 (-6))
            && vec3_approx (vec f) (vec f) (d_lit 1 (-6))); [reflexivity|].
  destruct ((m00 (mat f) == #1) && ((m00 (mat f) == #0) || (m00 (mat f) >? #1)));
    reflexivity.
Qed.

(** *** [Fractional::move_toward_zero_by_one] *)



Context {ieee : IEEEOps D}.

(** *** [NearbyImage::same_image] *)
Definition same_image (image : NearbyImage D) : bool :=
  box_is_zero image && (nb_sym_id image =? 0)%Z.

Lemma search_pbc_images_id (u : UnitCell D) (diff : Vec3 D) (image : NearbyImage D) :
  nb_sym_id (snd (search_pbc_images u diff image)) = nb_sym_id image
  /\ (fst (search_pbc_images u diff image) = false ->
      snd (search_pbc_images u diff image) = image).
Proof. unfold search_pbc_images. cbv zeta. destruct (_ <? _); simpl; auto; split; congruence. Qed.

(** The loop over the images: either no image was nearer, or [sym_id] is the
    1-based number of one of them. *)
Lemma search_images_id (u : UnitCell D) (fpos fref : Vec3 D) (imgs : list (Transform D))
      (n : Z) (image : NearbyImage D) :
  search_images u fpos fref imgs n image = image
  \/ (n < nb_sym_id (search_images u fpos fref imgs n image) <= n + Z.of_nat (length imgs))%Z.
Proof.
  revert n image. induction imgs as [|t imgs IH]; intros n image; [left; reflexivity|].
  cbn [search_images].
  pose proof (search_pbc_images_id u (vec3_sub (transform_apply t fpos) fref) image) as [Hid Hn].
  destruct (search_pbc_images u (vec3_sub (transform_apply t fpos) fref) image)
    as [found image1].
  simpl in Hid, Hn. change (length (t :: imgs)) with (S (length imgs)).
  rewrite Nat2Z.inj_succ. destruct found; cbv beta iota zeta.
  - right.
    destruct (IH (n + 1)%Z (mkNearbyImage (nb_dist_sq image1) (nb_box image1) (n + 1)%Z))
      as [-> | H]; [simpl nb_sym_id; lia|].
    set (k := nb_sym_id _) in *. clearbody k. lia.
  - rewrite (Hn eq_refl).
    destruct (IH (n + 1)%Z image) as [-> | H]; [left; reflexivity|right].
    set (k := nb_sym_id _) in *. clearbody k. lia.
Qed.

(** X22: the image [find_nearest_image] returns has as [sym_id] 0 or the
    1-based number of one of the cell's images; asked for the same image it
    returns it (box 0 0 0, [sym_id] 0); and asked for a different one it
    never returns the same image at a distance other than INFINITY. *)
Theorem nearest_image_identity (u : UnitCell D) (ref pos : Vec3 D) (sym_image : SymmetryImage) :
  let r := find_nearest_image u ref pos sym_image in
  (0 <= nb_sym_id r <= Z.of_nat (length (images u)))%Z
  /\ (sym_image = Same -> same_image r = true)
  /\ (sym_image = Different -> same_image r = true -> nb_dist_sq r = d_infinity).
Proof.
  cbv zeta. unfold find_nearest_image. cbv zeta.
  destruct (SymmetryImage_eqb sym_image Same || negb (is_crystal u)) eqn:E.
  - split; [|split].
    + match goal with |- context [if ?c then _ else _] => destruct c end; simpl; lia.
    + intros _. match goal with |- context [if ?c then _ else _] => destruct c end; reflexivity.
    + intros ->. reflexivity.
  - set (image0 := mkNearbyImage (dist_sq ref pos) (0, 0, 0)%Z 0%Z).
    pose proof (search_pbc_images_id u (vec3_sub (fractionalize u pos) (fractionalize u ref))
                  image0) as [Hid _].
    destruct (search_pbc_images u _ image0) as [found image1]. simpl in Hid.
    set (image2 := if (SymmetryImage_eqb sym_image Different || (nb_dist_sq image1 == #0))
                      && box_is_zero image1
                   then mkNearbyImage d_infinity (nb_box image1) (nb_sym_id image1)
                   else image1).
    assert (nb_sym_id image2 = 0%Z /\ nb_box image2 = nb_box image1) as [Hid2 Hbox2]
      by (unfold image2;
          match goal with |- context [if ?c then _ else _] => destruct c end; simpl; auto).
    assert (sym_image = Different -> box_is_zero image2 = true -> nb_dist_sq image2 = d_infinity)
      as Hdiff.
    { intros ->. unfold box_is_zero. rewrite Hbox2. fold (box_is_zero image1). intros Hz.
      unfold image2. rewrite Hz. reflexivity. }
    destruct (search_images_id u (fractionalize u pos) (fractionalize u ref) (images u) 0 image2)
      as [-> | H].
    + split; [rewrite Hid2; lia|]. split.
      * intros ->. discriminate.
      * intros Hd Hs. unfold same_image in Hs. apply andb_true_iff in Hs.
        apply Hdiff; tauto.
    + split; [lia|]. split.
      * intros ->. discriminate.
      * intros _ Hs. unfold same_image in Hs. apply andb_true_iff in Hs.
        destruct Hs as [_ Hs]. apply Z.eqb_eq in Hs. lia.
Qed.

(** *** [NearbyImage::pdb_symbol]

    [char nnn[4] = "555"; for (int i = 0; i < 3; ++i) nnn[i] += box[0];]
    The sum is narrowed to a byte, and [+ nnn] appends the bytes before the
    first NUL. *)
Definition pdb_symbol (image : NearbyImage D) (underscore : bool) : string :=
  let digit := ascii_of_N (Z.to_N ((Char.val "5" + fst (fst (nb_box image))) mod 256)) in
  let nnn := [digit; digit; digit; Char.NUL] in
  to_string (nb_sym_id image + 1)
  +:+ (if underscore then "_" else "")
  +:+ string_of_list_ascii (pdb_impl.c_str nnn).

(** X23: [pdb_symbol] writes the three digits of the translation from
    [box[0]] alone: for [box[0]] from -5 to 4 each of them is [5 + box[0]],
    whatever [box[1]] and [box[2]] are. *)
Theorem pdb_symbol_digits (dist_sq : D) (b0 b1 b2 sym_id : Z) (underscore : bool) :
  (-5 <= b0 <= 4)%Z ->
  pdb_symbol (mkNearbyImage dist_sq (b0, b1, b2) sym_id) underscore
  = to_string (sym_id + 1) +:+ (if underscore then "_" else "")
    +:+ (to_string (5 + b0) +:+ to_string (5 + b0) +:+ to_string (5 + b0)).
Proof.
  intros Hb. unfold pdb_symbol. cbn [nb_box nb_sym_id fst]. do 2 f_equal.
  assert (b0 = -5 \/ b0 = -4 \/ b0 = -3 \/ b0 = -2 \/ b0 = -1 \/ b0 = 0 \/ b0 = 1
          \/ b0 = 2 \/ b0 = 3 \/ b0 = 4)%Z as Hcases by lia.
  repeat (destruct Hcases as [-> | Hcases]; [vm_compute; reflexivity|]).
  subst b0. vm_compute. reflexivity.
Qed.

End any_arithmetic.

(** The image one cell along x and one cell back along z: the symbol says 666. *)
Lemma pdb_symbol_digits_witness :
  pdb_symbol (mkNearbyImage 0%R (1, 0, -1) 0) true
  = to_string (0 + 1) +:+ "_" +:+ (to_string (5 + 1) +:+ to_string (5 + 1) +:+ to_string (5 + 1)).
Proof. apply (pdb_symbol_digits (D := R) 0%R 1 0 (-1) 0 true). lia. Defined.


End CellFacts.

(** ** The Python bindings of [cif::Document]: indices *)

Module CifDocument.

(** What the two lambdas end with: a value, [std::out_of_range] from
    [std::vector::at], or [py::index_error]. *)
Inductive result (A : Type) : Type :=
| Returns (a : A)
| OutOfRange
| IndexError.
Arguments Returns {A}.
Arguments OutOfRange {A}.
Arguments IndexError {A}.

(** The conversions of the index: to [size_t] (64 bits) and back to [int]. *)
Definition to_size_t (z : Z) : Z := z mod 2 ^ 64.
Definition to_int (z : Z) : Z := (z + 2 ^ 31) mod 2 ^ 32 - 2 ^ 31.

Section blocks.
Context {Block : Type}.

(** [d.blocks.at(index >= 0 ? index : index + d.blocks.size())] *)
Definition getitem (blocks : list Block) (index : Z) : result Block :=
  let size := Z.of_nat (length blocks) in
  let i := if 0 <=? index then to_size_t index else to_size_t (to_size_t index + size) in
  match blocks !! Z.to_nat i with
  | Some b => Returns b
  | None => OutOfRange
  end.

(** [if (index < 0) index += d.blocks.size();
     if (index < 0 || static_cast<size_t>(index) >= d.blocks.size())
       throw py::index_error();
     d.blocks.erase(d.blocks.begin() + index);] *)
Definition delitem (blocks : list Block) (index : Z) : result (list Block) :=
  let size := Z.of_nat (length blocks) in
  let index := if index <? 0 then to_int (to_size_t (to_size_t index + size)) else index in
  if (index <? 0) || (size <=? to_size_t index) then IndexError
  else Returns (delete (Z.to_nat index) blocks).

(** The place a Python index names in a sequence of [size] elements. *)
Definition python_index (size : nat) (index : Z) : option nat :=
  if (0 <=? index) && (index <? Z.of_nat size) then Some (Z.to_nat index)
  else if (- Z.of_nat size <=? index) && (index <? 0) then Some (Z.to_nat (Z.of_nat size + index))
  else None.

Lemma wrapped_index (size index : Z) :
  - 2 ^ 31 <= index < 0 -> 0 <= size < 2 ^ 31 ->
  to_size_t (to_size_t index + size)
  = if - size <=? index then size + index else 2 ^ 64 + (size + index).
Proof.
  intros Hi Hs. unfold to_size_t.
  rewrite Zplus_mod_idemp_l.
  destruct (Z.leb_spec (- size) index).
  - rewrite Z.add_comm. apply Z.mod_small. lia.
  - replace (index + size) with (2 ^ 64 + (size + index) + (-1) * 2 ^ 64) by ring.
    rewrite Z_mod_plus_full. apply Z.mod_small. lia.
Qed.

End blocks.

(** X25: [Document.__getitem__] with an integer follows Python's indices on a
    document of fewer than 2^31 blocks: an index from 0 to the size less one
    names a block from the front, one from -1 down to minus the size a block
    from the end, and any other [int] ends in [std::out_of_range]. *)
Theorem getitem_python_index {Block : Type} (blocks : list Block) (index : Z) :
  - 2 ^ 31 <= index < 2 ^ 31 -> Z.of_nat (length blocks) < 2 ^ 31 ->
  getitem blocks index
  = match python_index (length blocks) index with
    | Some k => match blocks !! k with Some b => Returns b | None => OutOfRange end
    | None => OutOfRange
    end.
Proof.
  intros Hi Hs. unfold getitem, python_index. cbv zeta.
  destruct (Z.leb_spec 0 index) as [H0|H0]; simpl.
  - unfold to_size_t. rewrite Z.mod_small by lia.
    destruct (Z.ltb_spec index (Z.of_nat (length blocks))) as [Hlt|Hge]; [reflexivity|].
    rewrite lookup_ge_None_2 by lia.
    destruct ((- Z.of_nat (length blocks) <=? index) && (index <? 0)) eqn:E; [|reflexivity].
    apply andb_true_iff in E. destruct E as [_ E]. apply Z.ltb_lt in E. lia.
  - rewrite wrapped_index by lia.
    destruct (Z.leb_spec (- Z.of_nat (length blocks)) index) as [Hle|Hgt].
    + replace (index <? 0) with true by (symmetry; apply Z.ltb_lt; lia). reflexivity.
    + simpl. rewrite lookup_ge_None_2 by lia. reflexivity.
Qed.

Lemma getitem_python_index_witness :
  getitem ["a"; "b"; "c"]%string (-1)
  = match python_index (length ["a"; "b"; "c"]%string) (-1) with
    | Some k => match ["a"; "b"; "c"]%string !! k with
                | Some b => Returns b
                | None => OutOfRange
                end
    | None => OutOfRange
    end.
Proof. apply (getitem_python_index ["a"; "b"; "c"]%string (-1)); simpl; lia. Defined.

(** X26: [Document.__delitem__] with an integer follows Python's indices on a
    document of fewer than 2^31 blocks: it removes the block that the index
    names, from the front or from the end, and keeps the others in their
    order; any other [int] raises [IndexError] and removes nothing. *)
Theorem delitem_python_index {Block : Type} (blocks : list Block) (index : Z) :
  - 2 ^ 31 <= index < 2 ^ 31 -> Z.of_nat (length blocks) < 2 ^ 31 ->
  delitem blocks index
  = match python_index (length blocks) index with
    | Some k => Returns (take k blocks ++ drop (S k) blocks)
    | None => IndexError
    end.
Proof.
  intros Hi Hs. unfold delitem, python_index. cbv zeta.
  pose proof (fun k => delete_take_drop blocks k) as Hdel.
  destruct (Z.ltb_spec index 0) as [H0|H0].
  - replace (0 <=? index) with false by (symmetry; apply Z.leb_gt; lia). simpl.
    rewrite wrapped_index by lia.
    destruct (Z.leb_spec (- Z.of_nat (length blocks)) index) as [Hle|Hgt]; simpl.
    + unfold to_int, to_size_t. rewrite (Z.mod_small (_ + 2 ^ 31)) by lia.
      replace (Z.of_nat (length blocks) + index + 2 ^ 31 - 2 ^ 31)
        with (Z.of_nat (length blocks) + index) by ring.
      rewrite Z.mod_small by lia.
      replace (Z.of_nat (length blocks) + index <? 0) with false
        by (symmetry; apply Z.ltb_ge; lia).
      replace (Z.of_nat (length blocks) <=? Z.of_nat (length blocks) + index) with false
        by (symmetry; apply Z.leb_gt; lia).
      simpl. rewrite Hdel. reflexivity.
    + assert (to_int (2 ^ 64 + (Z.of_nat (length blocks) + index))
              = Z.of_nat (length blocks) + index) as ->.
      { unfold to_int.
        replace (2 ^ 64 + (Z.of_nat (length blocks) + index) + 2 ^ 31)
          with (Z.of_nat (length blocks) + index + 2 ^ 31 + 2 ^ 32 * 2 ^ 32) by ring.
        rewrite Z_mod_plus_full. rewrite Z.mod_small by lia. ring. }
      replace (Z.of_nat (length blocks) + index <? 0) with true
        by (symmetry; apply Z.ltb_lt; lia).
      reflexivity.
  - replace (0 <=? index) with true by (symmetry; apply Z.leb_le; lia).
    replace (index <? 0) with false by (symmetry; apply Z.ltb_ge; lia).
    unfold to_size_t. rewrite Z.mod_small by lia. rewrite andb_false_r. simpl.
    destruct (Z.ltb_spec index (Z.of_nat (length blocks))) as [Hlt|Hge].
    + replace (Z.of_nat (length blocks) <=? index) with false
        by (symmetry; apply Z.leb_gt; lia).
      rewrite Hdel. reflexivity.
    + replace (Z.of_nat (length blocks) <=? index) with true
        by (symmetry; apply Z.leb_le; lia).
      reflexivity.
Qed.

Lemma delitem_python_index_witness :
  delitem ["a"; "b"; "c"]%string (-2)
  = match python_index (length ["a"; "b"; "c"]%string) (-2) with
    | Some k => Returns (take k ["a"; "b"; "c"]%string ++ drop (S k) ["a"; "b"; "c"]%string)
    | None => IndexError
    end.
Proof. apply (delitem_python_index ["a"; "b"; "c"]%string (-2)); simpl; lia. Defined.

End CifDocument.

(** ** MTRIXn, SCALEn and ORIGXn: the three rows of a matrix *)

Module MatrixFacts.
Import pdb_impl pdb_num Reader.
Local Open Scope nat_scope.

Section with_double.
Context {D : Type} {ops : DoubleOps D}.

(** The numbers of one row, as [read_matrix] reads them. *)
Definition row_of (l : list ascii) (x y z w : D) : Prop :=
  read_double (drop 10 l) 10 = Some x /\ read_double (drop 20 l) 10 = Some y
  /\ read_double (drop 30 l) 10 = Some z /\ read_double (drop 45 l) 10 = Some w.

Lemma read_matrix_row (m : Mat4x4 D) (l : list ascii) (len : nat) (digit : ascii) (n : Z)
      (x y z w : D) :
  46 <= len -> l !! 5 = Some digit -> to_char (Char.val digit - Char.val "0") = n ->
  (1 <= n <= 3)%Z -> row_of l x y z w ->
  read_matrix m l len
  = Ok (n, mkMat4x4 (vec4_set (col_x m) (n - 1) x) (vec4_set (col_y m) (n - 1) y)
                    (vec4_set (col_z m) (n - 1) z) (vec4_set (col_w m) (n - 1) w)).
Proof.
  intros Hlen Hd Hn Hr (Hx & Hy & Hz & Hw). unfold read_matrix.
  replace (len <? 46) with false by (symmetry; apply Nat.ltb_ge; lia).
  rewrite Hd. simpl. rewrite Hn.
  replace ((1 <=? n)%Z && (n <=? 3)%Z) with true
    by (symmetry; apply andb_true_iff; split; apply Z.leb_le; lia).
  rewrite Hx, Hy, Hz, Hw. reflexivity.
Qed.

End with_double.

(** X27: the rows 1, 2 and 3 of a matrix, read in this order into an
    accumulator that holds anything, give the transform with these rows: its
    matrix has the first three numbers of each record as rows and its vector
    the fourth numbers; the fourth row of the accumulator is never written. *)
Theorem read_matrix_triplet {D : Type} {ops : DoubleOps D}
        (m0 : Mat4x4 D) (l1 l2 l3 : list ascii) (len1 len2 len3 : nat)
        (x1 y1 z1 w1 x2 y2 z2 w2 x3 y3 z3 w3 : D) :
  46 <= len1 -> 46 <= len2 -> 46 <= len3 ->
  l1 !! 5 = Some "1"%char -> l2 !! 5 = Some "2"%char -> l3 !! 5 = Some "3"%char ->
  row_of l1 x1 y1 z1 w1 -> row_of l2 x2 y2 z2 w2 -> row_of l3 x3 y3 z3 w3 ->
  exists m1 m2 m3,
    read_matrix m0 l1 len1 = Ok (1%Z, m1)
    /\ read_matrix m1 l2 len2 = Ok (2%Z, m2)
    /\ read_matrix m2 l3 len3 = Ok (3%Z, m3)
    /\ transform_of_mat4 m3
       = mkTransform (mkMat33 x1 y1 z1 x2 y2 z2 x3 y3 z3) (mkVec3 w1 w2 w3)
    /\ v4_3 (col_x m3) = v4_3 (col_x m0) /\ v4_3 (col_y m3) = v4_3 (col_y m0)
    /\ v4_3 (col_z m3) = v4_3 (col_z m0) /\ v4_3 (col_w m3) = v4_3 (col_w m0).
Proof.
  intros H1 H2 H3 D1 D2 D3 R1 R2 R3.
  eexists _, _, _.
  split; [apply (read_matrix_row m0 l1 len1 "1" 1 x1 y1 z1 w1); auto; lia|].
  split; [apply (read_matrix_row _ l2 len2 "2" 2 x2 y2 z2 w2); auto; lia|].
  split; [apply (read_matrix_row _ l3 len3 "3" 3 x3 y3 z3 w3); auto; lia|].
  repeat split.
Qed.

(** The three ORIGX records of [origx_triplet], read over the identity. *)
Lemma read_matrix_triplet_witness :
  exists m1 m2 m3 : Mat4x4 float,
    read_matrix (ops := Float64 no_libm) (mat4_identity (ops := Float64 no_libm))
                (list_ascii_of_string "ORIGX1      1.000000  0.000000  0.000000        0.00000")
                56
    = Ok (1%Z, m1)
    /\ read_matrix (ops := Float64 no_libm) m1
         (list_ascii_of_string "ORIGX2      0.000000  1.000000  0.000000        0.00000") 56
       = Ok (2%Z, m2)
    /\ read_matrix (ops := Float64 no_libm) m2
         (list_ascii_of_string "ORIGX3      0.000000  0.000000  2.000000        5.00000") 56
       = Ok (3%Z, m3)
    /\ transform_of_mat4 m3 = mkTransform (mkMat33 1 0 0 0 1 0 0 0 2)%float (mkVec3 0 0 5)%float
    /\ v4_3 (col_x m3) = v4_3 (col_x (mat4_identity (ops := Float64 no_libm)))
    /\ v4_3 (col_y m3) = v4_3 (col_y (mat4_identity (ops := Float64 no_libm)))
    /\ v4_3 (col_z m3) = v4_3 (col_z (mat4_identity (ops := Float64 no_libm)))
    /\ v4_3 (col_w m3) = v4_3 (col_w (mat4_identity (ops := Float64 no_libm))).
Proof.
  apply (read_matrix_triplet (ops := Float64 no_libm));
    try (simpl; lia); try reflexivity; repeat split; vm_compute; reflexivity.
Defined.

End MatrixFacts.

(** ** HEADER, TITLE, KEYWDS and EXPDTA: what goes to [st.info] *)

Module InfoRecords.
Import pdb_impl.
Local Open Scope nat_scope.

(** [rtrimmed]: the reverse iterator stops at the last byte that is no white
    space, and what follows it is erased. *)
Definition rtrimmed (s : list ascii) : list ascii :=
  reverse (ScannerBounds.drop_while Char.isspace (reverse s)).

(** [std::string(p + pos, n)]: [n] bytes, a NUL among them or not. *)
Definition std_string (p : list ascii) (pos n : nat) : option (list ascii) :=
  if pos + n <=? length p then Some (take n (drop pos p)) else None.

(** [s.substr(pos, n)] with [pos] inside [s] *)
Definition substr (s : list ascii) (pos n : nat) : list ascii := take n (drop pos s).

Fixpoint starts_with (needle hay : list ascii) : bool :=
  match needle, hay with
  | [], _ => true
  | c :: needle', d :: hay' => Char.eqb c d && starts_with needle' hay'
  | _ :: _, [] => false
  end.

(** [strstr(hay, needle)]: the rest of [hay] from the first place where
    [needle] begins. *)
Fixpoint strstr (hay needle : list ascii) : option (list ascii) :=
  if starts_with needle hay then Some hay
  else match hay with
       | [] => None
       | _ :: hay' => strstr hay' needle
       end.

Definition months : list ascii :=
  list_ascii_of_string "JAN01FEB02MAR03APR04MAY05JUN06JUL07AUG08SEP09OCT10NOV11DEC122222".

(** The date of HEADER, from [28-MAR-07] to [2007-03-28]:
    [(date[7] > '6' ? "19" : "20") + date.substr(7, 2) + "-"
     + (m ? std::string(m+3, 2) : "??") + "-" + date.substr(0, 2)] *)
Definition header_date (date : list ascii) : option (list ascii) :=
  d7 ← date !! 7;
  month ← match strstr months (c_str (substr date 3 3)) with
          | Some m => std_string (m ++ [Char.NUL]) 3 2
          | None => Some (list_ascii_of_string "??")
          end;
  Some (list_ascii_of_string (if (Char.val "6" <? Char.val d7)%Z then "19" else "20")
        ++ substr date 7 2 ++ list_ascii_of_string "-" ++ month
        ++ list_ascii_of_string "-" ++ substr date 0 2).

(** [st.info] is a [std::map] from strings to strings.
    [info[key] += text]: a key that is not there starts from the empty string. *)
Definition append_to (i : gmap string string) (key : string) (text : list ascii)
  : gmap string string :=
  <[key := default ""%string (i !! key) +:+ string_of_list_ascii text]> i.

Definition on_header (i : gmap string string) (line : list ascii) (len : nat)
  : outcome (gmap string string) :=
  i ← (if 50 <? len
       then s ← scan (std_string line 10 40);
            Ok (<["_struct_keywords.pdbx_keywords"%string
                    := string_of_list_ascii (rtrimmed s)]> i)
       else Ok i);
  i ← (if 59 <? len (* date in PDB has format 28-MAR-07 *)
       then date ← scan (std_string line 50 9);
            d ← scan (header_date date);
            Ok (<["_pdbx_database_status.recvd_initial_deposition_date"%string
                    := string_of_list_ascii d]> i)
       else Ok i);
  if 66 <? len
  then id ← scan (std_string line 62 4);
       Ok (<["_entry.id"%string := string_of_list_ascii id]> i)
  else Ok i.

(** TITLE, KEYWDS and EXPDTA, each with its key:
    [if (len > 10) st.info[key] += rtrimmed(std::string(line+10, len-10-1));] *)
Definition on_text (key : string) (i : gmap string string) (line : list ascii) (len : nat)
  : outcome (gmap string string) :=
  if 10 <? len
  then s ← scan (std_string line 10 (len - 10 - 1));
       Ok (append_to i key (rtrimmed s))
  else Ok i.

(** The names of the months, and the two digits of a number below 100. *)
Definition month_names : list string :=
  ["JAN"; "FEB"; "MAR"; "APR"; "MAY"; "JUN"; "JUL"; "AUG"; "SEP"; "OCT"; "NOV"; "DEC"]%string.

Definition two_digits (n : nat) : list ascii :=
  [ascii_of_nat (48 + n / 10); ascii_of_nat (48 + n mod 10)].

Lemma month_number (k : nat) (name : string) :
  month_names !! k = Some name ->
  c_str (list_ascii_of_string name) = list_ascii_of_string name
  /\ length (list_ascii_of_string name) = 3
  /\ exists m, strstr months (list_ascii_of_string name) = Some m
               /\ std_string (m ++ [Char.NUL]) 3 2 = Some (two_digits (S k)).
Proof.
  intros H.
  do 12 (destruct k as [|k];
         [injection H as <-; repeat split; eexists; split; vm_compute; reflexivity|]).
  discriminate.
Qed.

(** X28: from a HEADER record of 60 bytes or more whose date (columns 51 to 59)
    is [dd-MMM-yy] with one of the twelve upper-case month names, the reader
    stores the date as [ccyy-mm-dd], where [mm] is the number of the month
    and the century is 19 when the tens digit of the year is above 6, and 20
    otherwise; what the other columns hold plays no part. *)
Theorem header_date_iso (i i' : gmap string string) (line : list ascii) (len k : nat)
        (d1 d2 y1 y2 : ascii) (name : string) :
  59 < len -> month_names !! k = Some name ->
  std_string line 50 9
  = Some ([d1; d2; "-"%char] ++ list_ascii_of_string name ++ ["-"%char; y1; y2]) ->
  on_header i line len = Ok i' ->
  i' !! "_pdbx_database_status.recvd_initial_deposition_date"%string
  = Some (string_of_list_ascii
            (list_ascii_of_string (if (Char.val "6" <? Char.val y1)%Z then "19" else "20")
             ++ [y1; y2] ++ ["-"%char] ++ two_digits (S k) ++ ["-"%char] ++ [d1; d2])).
Proof.
  intros Hlen Hk Hdate H.
  destruct (month_number k name Hk) as (Hc & Hl & m & Hm & Hmm).
  unfold on_header in H.
  apply bind_Ok in H. destruct H as (i1 & _ & H).
  apply bind_Ok in H. destruct H as (i2 & H2 & H).
  replace (59 <? len) with true in H2 by (symmetry; apply Nat.ltb_lt; lia).
  apply bind_Ok in H2. destruct H2 as (date & Hs & H2). apply scan_Ok in Hs.
  rewrite Hdate in Hs. injection Hs as <-.
  apply bind_Ok in H2. destruct H2 as (d & Hd' & H2). apply scan_Ok in Hd'.
  assert (header_date (d1 :: d2 :: "-"%char :: list_ascii_of_string name ++ ["-"%char; y1; y2])
          = Some (list_ascii_of_string (if (Char.val "6" <? Char.val y1)%Z then "19" else "20")
                  ++ [y1; y2] ++ ["-"%char] ++ two_digits (S k) ++ ["-"%char] ++ [d1; d2]))
    as Hd.
  { destruct (list_ascii_of_string name) as [|n1 [|n2 [|n3 [|? ?]]]] eqn:En; try discriminate.
    unfold header_date. cbn [app lookup list_lookup substr drop take].
    change (c_str [n1; n2; n3]) with (c_str [n1; n2; n3]). rewrite Hc, Hm. simpl.
    rewrite Hmm. reflexivity. }
  rewrite Hd in Hd'. injection Hd' as <-. injection H2 as <-.
  destruct (66 <? len).
  - apply bind_Ok in H. destruct H as (id & _ & H). injection H as <-.
    rewrite lookup_insert_ne; [|discriminate]. apply lookup_insert_eq.
  - injection H as <-. apply lookup_insert_eq.
Qed.

(** A HEADER record of 28 March 2007. *)
Definition header_line : list ascii :=
  MatrixProofs.pdb_line "HEADER    HYDROLASE                               28-MAR-07   1ABC              ".

Definition header_info : gmap string string :=
  match on_header ∅ header_line 81 with
  | Ok i => i
  | _ => ∅
  end.

Lemma header_date_iso_witness :
  header_info !! "_pdbx_database_status.recvd_initial_deposition_date"%string
  = Some (string_of_list_ascii
            (list_ascii_of_string (if (Char.val "6" <? Char.val "0")%Z then "19" else "20")
             ++ ["0"; "7"]%char ++ ["-"%char] ++ two_digits 3 ++ ["-"%char]
             ++ ["2"; "8"]%char)).
Proof.
  apply (header_date_iso ∅ header_info header_line 81 2 "2" "8" "0" "7" "MAR").
  - lia.
  - reflexivity.
  - vm_compute. reflexivity.
  - vm_compute. reflexivity.
Defined.

(** *** [rtrimmed] *)

Lemma drop_while_split (f : ascii -> bool) (l : list ascii) :
  l = ScannerBounds.take_while f l ++ ScannerBounds.drop_while f l
  /\ Forall (fun c => f c = true) (ScannerBounds.take_while f l)
  /\ forall c, head (ScannerBounds.drop_while f l) = Some c -> f c = false.
Proof.
  induction l as [|c l (IH1 & IH2 & IH3)]; simpl.
  - repeat split; [constructor|discriminate].
  - destruct (f c) eqn:E; simpl.
    + split; [f_equal; exact IH1|]. split; [constructor; assumption|exact IH3].
    + repeat split; [constructor|]. intros c' [= <-]. exact E.
Qed.

(** X29: [rtrimmed] removes the white space at the end of a string and nothing
    else: what it removes is white space only, and what it returns does not
    end in white space. *)
Theorem rtrimmed_spec (s : list ascii) :
  (exists ws, s = rtrimmed s ++ ws /\ Forall (fun c => Char.isspace c = true) ws)
  /\ forall c, last (rtrimmed s) = Some c -> Char.isspace c = false.
Proof.
  unfold rtrimmed.
  destruct (drop_while_split Char.isspace (reverse s)) as (Hs & Hw & Hh).
  split.
  - exists (reverse (ScannerBounds.take_while Char.isspace (reverse s))). split.
    + rewrite <- reverse_app, <- Hs, reverse_involutive. reflexivity.
    + apply Forall_reverse. exact Hw.
  - intros c Hc. apply Hh. rewrite <- Hc, last_reverse. reflexivity.
Qed.

End InfoRecords.

(** ** After the loop: the chains that a TER record closed hold polymers *)

Module PolymerFacts.
Import pdb_impl pdb_num Reader.
Local Open Scope nat_scope.

Section with_double.
Context {D : Type} {ops : DoubleOps D}.

(** What the marks keep: every entity was there before, and a polymer stays one. *)
Definition kept (ents ents' : list (nat * Entity.t)) : Prop :=
  forall p e', In (p, e') ents' ->
    exists e, In (p, e) ents /\ (Entity.type e = Polymer -> Entity.type e' = Polymer).

Lemma kept_refl ents : kept ents ents.
Proof. intros p e H. eauto. Qed.

Lemma kept_trans ents1 ents2 ents3 : kept ents1 ents2 -> kept ents2 ents3 -> kept ents1 ents3.
Proof.
  intros H12 H23 p e3 H3. destruct (H23 p e3 H3) as (e2 & H2 & Ht2).
  destruct (H12 p e2 H2) as (e1 & H1 & Ht1). eauto.
Qed.

Lemma set_polymer_kept ents ent :
  kept ents (set_polymer ents ent)
  /\ forall e', In (ent, e') (set_polymer ents ent) -> Entity.type e' = Polymer.
Proof.
  unfold set_polymer. split.
  - intros p e' H. apply in_map_iff in H. destruct H as ([q e] & Heq & Hin).
    simpl in Heq. destruct (q =? ent); injection Heq as <- <-; eauto.
  - intros e' H. apply in_map_iff in H. destruct H as ([q e] & Heq & Hin).
    simpl in Heq. destruct (Nat.eqb_spec q ent); injection Heq as ? <-; [reflexivity|].
    congruence.
Qed.

(** A chain that [has_ter] names, and the entity it points to. *)
Definition closed_chain (model_name : string) (ht : list string) (ch : Chain.t D) (p : nat)
  : Prop :=
  in_vector (model_name +:+ "/" +:+ Chain.name ch) ht = true /\ Chain.entity ch = Some p.

Lemma mark_chains_marks (model_name : string) (ht : list string) (chains : list (Chain.t D))
      (ents ents' : list (nat * Entity.t)) :
  mark_chains model_name ht chains ents = Ok ents' ->
  kept ents ents'
  /\ forall ch p e', In ch chains -> closed_chain model_name ht ch p -> In (p, e') ents' ->
       Entity.type e' = Polymer.
Proof.
  revert ents. induction chains as [|ch chains IH]; intros ents; simpl.
  - intros [= <-]. split; [apply kept_refl|]. intros ch p e' [].
  - intros H. apply bind_Ok in H. destruct H as (ents1 & H1 & H).
    destruct (IH _ H) as (Hk & Hm).
    assert (kept ents ents1
            /\ forall p e1, closed_chain model_name ht ch p -> In (p, e1) ents1 ->
                 Entity.type e1 = Polymer) as (Hk1 & Hm1).
    { destruct (in_vector _ ht) eqn:E.
      - apply bind_Ok in H1. destruct H1 as (ent & Hent & H1). apply scan_Ok in Hent.
        injection H1 as <-. destruct (set_polymer_kept ents ent) as (Hs1 & Hs2).
        split; [exact Hs1|]. intros p e1 (_ & Hp) Hin.
        rewrite Hent in Hp. injection Hp as <-. apply (Hs2 e1 Hin).
      - injection H1 as <-. split; [apply kept_refl|]. intros p e1 (Hc & _). congruence. }
    split; [eapply kept_trans; eassumption|].
    intros ch' p e' [<- | Hin] Hc He'.
    + destruct (Hk p e' He') as (e1 & Hin1 & Ht). apply Ht. eapply Hm1; eassumption.
    + eapply Hm; eassumption.
Qed.

Lemma mark_polymers_marks (ht : list string) (models : list (Model.t D))
      (ents ents' : list (nat * Entity.t)) :
  mark_polymers ht models ents = Ok ents' ->
  kept ents ents'
  /\ forall md ch p e', In md models -> In ch (Model.chains md) ->
       closed_chain (Model.name md) ht ch p -> In (p, e') ents' ->
       Entity.type e' = Polymer.
Proof.
  revert ents. induction models as [|md models IH]; intros ents; simpl.
  - intros [= <-]. split; [apply kept_refl|]. intros md ch p e' [].
  - intros H. apply bind_Ok in H. destruct H as (ents1 & H1 & H).
    destruct (IH _ H) as (Hk & Hm). destruct (mark_chains_marks _ _ _ _ _ H1) as (Hk1 & Hm1).
    split; [eapply kept_trans; eassumption|].
    intros md' ch p e' [<- | Hin] Hch Hc He'.
    + destruct (Hk p e' He') as (e1 & Hin1 & Ht). apply Ht. eapply Hm1; eassumption.
    + eapply Hm; eassumption.
Qed.

End with_double.

(** X30: in the structure the reader returns, every chain that a TER record
    closed (its model's name and its own, joined by a slash, are in
    [has_ter]) points to an entity of type [Polymer]. *)
Theorem closed_chains_are_polymers {D : Type} {ops : DoubleOps D}
        (input : list (list ascii)) (s : Reader.t D) (x : Structure.t D)
        (md : Model.t D) (ch : Chain.t D) (p : nat) (e : Entity.t) :
  read_loop initial input = Ok s -> read_pdb_from_line_input input = Ok x ->
  In md (Structure.models x) -> In ch (Model.chains md) ->
  in_vector (Model.name md +:+ "/" +:+ Chain.name ch) (has_ter s) = true ->
  Chain.entity ch = Some p -> In (p, e) (Structure.entities x) ->
  Entity.type e = Polymer.
Proof.
  intros Hloop Hx Hmd Hch Hter Hent He. unfold read_pdb_from_line_input in Hx.
  rewrite Hloop in Hx. simpl in Hx.
  destruct (EntitySetter.finalize _ _ _) as [[es entities] models].
  apply bind_Ok in Hx. destruct Hx as (entities' & Hmark & Hx). injection Hx as <-.
  simpl in Hmd, He.
  destruct (mark_polymers_marks _ _ _ _ Hmark) as (_ & Hm).
  eapply Hm; try eassumption. split; assumption.
Qed.

(** An atom of chain A and a TER record: the entity of A is a polymer. *)
Definition closed_A : list (list ascii) := [ChainProofs.atom_of_A; ChainProofs.ter_record].

Definition closed_A_structure : Structure.t float :=
  match read_pdb_from_line_input (ops := Float64 no_libm) closed_A with
  | Ok x => x
  | _ => st (initial (ops := Float64 no_libm))
  end.

Definition closed_A_model : Model.t float :=
  hd (Model.mk "" []) (Structure.models closed_A_structure).
Definition closed_A_chain : Chain.t float :=
  hd (Chain.mk "" "" None []) (Model.chains closed_A_model).
Definition closed_A_entity : nat * Entity.t :=
  hd (0, Entity.mk "" Unknown NA []) (Structure.entities closed_A_structure).

Lemma closed_chains_are_polymers_witness : Entity.type (snd closed_A_entity) = Polymer.
Proof.
  apply (closed_chains_are_polymers (ops := Float64 no_libm) closed_A
           (ChainProofs.state_after closed_A) closed_A_structure closed_A_model closed_A_chain
           (fst closed_A_entity) (snd closed_A_entity)).
  - vm_compute. reflexivity.
  - vm_compute. reflexivity.
  - vm_compute. left. reflexivity.
  - vm_compute. left. reflexivity.
  - vm_compute. reflexivity.
  - vm_compute. reflexivity.
  - vm_compute. left. reflexivity.
Defined.

End PolymerFacts.
